(** * Daily Belfast News: slug generation, post creation and the read paths

    A shallow embedding of [src/pages/CreatePost.tsx], [src/pages/Home.tsx],
    [src/pages/TagPosts.tsx] and [src/pages/PostDetail.tsx].

    Text is a sequence of code units; the embedding covers the code units
    0..255 (the Latin-1 range), on which [toLowerCase], [trim] and the
    regular-expression classes [\w] and [\s] are given by their exact
    restriction.  The hosted backend (tables, storage) is reached only
    through calls whose answers the pages inspect; it is a parameter of the
    page functions, and an in-memory instance of it is given further down. *)

From Stdlib Require Import List Ascii String NArith Arith Bool Lia.
From Stdlib Require Import Sorting.Sorted Sorting.Permutation.
From Stdlib Require Import DecimalString.
Import ListNotations.

(** ** JavaScript strings *)

Module JS.

Definition jsstring := list ascii.

Definition str (s : string) : jsstring := list_ascii_of_string s.

Definition code (c : ascii) : N := N_of_ascii c.

Definition in_range (lo hi : N) (c : ascii) : bool :=
  ((lo <=? code c) && (code c <=? hi))%N.

(** [A-Z], [a-z], [0-9] *)
Definition isUpper (c : ascii) : bool := in_range 65 90 c.
Definition isLower (c : ascii) : bool := in_range 97 122 c.
Definition isDigit (c : ascii) : bool := in_range 48 57 c.
Definition isAlnum (c : ascii) : bool := isUpper c || isLower c || isDigit c.

Definition isUnderscore (c : ascii) : bool := (code c =? 95)%N.
Definition isHyphen (c : ascii) : bool := (code c =? 45)%N.

(** The class [\w] of a regular expression without the [u] and [i] flags. *)
Definition isWord (c : ascii) : bool := isAlnum c || isUnderscore c.

(** The class [\s], which is also the white space [trim] removes: TAB, LF,
    VT, FF, CR, SPACE and NO-BREAK SPACE are its members below 256. *)
Definition isSpace (c : ascii) : bool :=
  in_range 9 13 c || (code c =? 32)%N || (code c =? 160)%N.

(** [String.prototype.toLowerCase] on one code unit: [A-Z] and the Latin-1
    capitals U+00C0..U+00DE (but not the multiplication sign U+00D7) move up
    by 32; every other code unit below 256 is its own lower case. *)
Definition toLower (c : ascii) : ascii :=
  if isUpper c || (in_range 192 222 c && negb (code c =? 215)%N)
  then ascii_of_N (code c + 32)
  else c.

Definition toLowerCase (s : jsstring) : jsstring := map toLower s.

Fixpoint dropWhile (p : ascii -> bool) (s : jsstring) : jsstring :=
  match s with
  | [] => []
  | c :: r => if p c then dropWhile p r else s
  end.

Definition isEmpty (s : jsstring) : bool :=
  match s with [] => true | _ :: _ => false end.

Fixpoint dropWhileEnd (p : ascii -> bool) (s : jsstring) : jsstring :=
  match s with
  | [] => []
  | c :: r =>
      let r' := dropWhileEnd p r in
      if p c && isEmpty r' then [] else c :: r'
  end.

(** [String.prototype.trim] *)
Definition trim (s : jsstring) : jsstring :=
  dropWhileEnd isSpace (dropWhile isSpace s).

(** [String.prototype.substring(0, n)] *)
Definition substring0 (n : nat) (s : jsstring) : jsstring := firstn n s.

(** [String.prototype.split(sep)] for a one-character separator; the result
    always has at least one entry. *)
Fixpoint split (sep : ascii) (s : jsstring) : list jsstring :=
  match s with
  | [] => [[]]
  | c :: r =>
      if Ascii.eqb c sep then [] :: split sep r
      else match split sep r with
           | [] => [[c]]
           | w :: ws => (c :: w) :: ws
           end
  end.

(** [Array.prototype.pop] on the result of [split]: its last entry. *)
Definition pop (l : list jsstring) : jsstring := last l [].

(** [a === b] on strings *)
Fixpoint eqs (a b : jsstring) : bool :=
  match a, b with
  | [], [] => true
  | x :: a', y :: b' => Ascii.eqb x y && eqs a' b'
  | _, _ => false
  end.

(** [String.prototype.length] *)
Definition len (s : jsstring) : N := N.of_nat (List.length s).

(** Truthiness of a string: the empty string is falsy. *)
Definition truthy (s : jsstring) : bool := negb (isEmpty s).

End JS.

Import JS.

(** ** The slug generator of [CreatePost.tsx] *)

(** [.replace(/[^\w\s-]/g, '')]: every code unit outside [\w], [\s] and the
    hyphen is deleted. *)
Definition keepsSlugChar (c : ascii) : bool := isWord c || isSpace c || isHyphen c.

Definition removeOthers (s : jsstring) : jsstring := filter keepsSlugChar s.

(** [.replace(/[\s_-]+/g, '-')]: every maximal run of white space,
    underscores and hyphens becomes one hyphen.  [inRun] tells whether the
    previous code unit belonged to the run being replaced. *)
Definition isSeparator (c : ascii) : bool := isSpace c || isUnderscore c || isHyphen c.

Fixpoint collapseFrom (inRun : bool) (s : jsstring) : jsstring :=
  match s with
  | [] => []
  | c :: r =>
      if isSeparator c
      then (if inRun then collapseFrom true r else "-"%char :: collapseFrom true r)
      else c :: collapseFrom false r
  end.

Definition collapseSeparators (s : jsstring) : jsstring := collapseFrom false s.

(** [.replace(/^-+|-+$/g, '')]: the hyphens at the start and those at the
    end are deleted. *)
Definition stripHyphens (s : jsstring) : jsstring :=
  dropWhileEnd isHyphen (dropWhile isHyphen s).

Definition generateSlug (text : jsstring) : jsstring :=
  stripHyphens (collapseSeparators (removeOthers (trim (toLowerCase text)))).


(** ** Form validation: [postSchema] *)

(** The four text fields [handleSubmit] hands to [postSchema.parse], and the
    chosen file. *)
Record File := { file_name : jsstring }.

Record Form := {
  title : jsstring;
  content : jsstring;
  excerpt : jsstring;
  tags : jsstring;
  image : option File
}.

Record ValidationData := {
  v_title : jsstring;
  v_content : jsstring;
  v_excerpt : jsstring;
  v_tags : jsstring
}.

(** [z.string().trim().min(lo, m1).max(hi, m2)]: the checks run in the order
    written, on the trimmed text; each failed check adds its message. *)
Definition minIssue (lo : N) (msg : string) (s : jsstring) : list jsstring :=
  if (len s <? lo)%N then [str msg] else [].

Definition maxIssue (hi : N) (msg : string) (s : jsstring) : list jsstring :=
  if (hi <? len s)%N then [str msg] else [].

Definition titleIssues (s : jsstring) : list jsstring :=
  minIssue 1 "Title is required" s
  ++ maxIssue 200 "Title must be less than 200 characters" s.

Definition contentIssues (s : jsstring) : list jsstring :=
  minIssue 1 "Content is required" s ++ maxIssue 50000 "Content is too long" s.

Definition excerptIssues (s : jsstring) : list jsstring :=
  maxIssue 500 "Excerpt must be less than 500 characters" s.

Definition tagsIssues (s : jsstring) : list jsstring :=
  maxIssue 200 "Tags must be less than 200 characters" s.

(** The issues of all four keys, in the order of the schema's keys. *)
Definition issuesOf (f : Form) : list jsstring :=
  titleIssues (trim (title f)) ++ contentIssues (trim (content f))
  ++ excerptIssues (trim (excerpt f)) ++ tagsIssues (trim (tags f)).

(** What a [try] block can throw in these pages: the [ZodError] of
    [postSchema.parse], with its first issue and the others, or the error
    object a backend call returned. *)
Record Error := { message : jsstring; errcode : jsstring }.

Inductive Thrown :=
| ZodError (first : jsstring) (others : list jsstring)
| BackendError (e : Error).

Definition postSchema_parse (f : Form) : Thrown + ValidationData :=
  match issuesOf f with
  | [] => inr {| v_title := trim (title f); v_content := trim (content f);
                 v_excerpt := trim (excerpt f); v_tags := trim (tags f) |}
  | m :: ms => inl (ZodError m ms)
  end.

(** ** Rows, calls and effects *)

Definition ID := N.

Record User := { user_id : jsstring }.

(** The object [handleSubmit] inserts into [posts]. *)
Record NewPost := {
  np_title : jsstring;
  np_slug : jsstring;
  np_content : jsstring;
  np_excerpt : jsstring;
  np_featured_image : option jsstring;
  np_author_id : jsstring
}.

Record PostRow := {
  p_id : ID;
  p_title : jsstring;
  p_slug : jsstring;
  p_content : jsstring;
  p_excerpt : jsstring;
  p_featured_image : option jsstring;
  p_author_id : jsstring;
  p_published : bool;
  p_created_at : N
}.

Record TagRow := { t_id : ID; t_name : jsstring; t_slug : jsstring }.

Record Link := { l_post : ID; l_tag : ID }.

(** A post as the read pages select it: the row, the author's
    [profiles.full_name] and the [(name, slug)] of its tags. *)
Record Post := {
  row : PostRow;
  full_name : option jsstring;
  post_tags_of : list (jsstring * jsstring)
}.

(** The filters and the ordering the pages put on a [posts] query. *)
Inductive PostFilter :=
| EqPublished (b : bool)
| EqSlug (s : jsstring).

Inductive Order := CreatedAt (ascending : bool).

(** Every request a page sends, with the answer it got. *)
Inductive Call :=
| Upload (path : jsstring) (f : File) (answer : option Error)
| InsertPost (p : NewPost) (answer : Error + PostRow)
| SelectTags (slug : jsstring) (answer : Error + list TagRow)
| InsertTag (name slug : jsstring) (answer : Error + TagRow)
| InsertPostTag (post_id tag_id : ID) (answer : option Error)
| SelectPosts (filters : list PostFilter) (order : option Order)
              (answer : Error + list Post)
| SelectPostsOfTag (tag_id : ID) (answer : Error + list (option Post)).

(** What a page does to its own state and to the browser. *)
Inductive Effect :=
| SetLoading (b : bool)
| SetPosts (data : list Post)
| SetPost (data : option Post)
| SetTagName (name : jsstring)
| ToastSuccess (msg : jsstring)
| ToastError (msg : jsstring)
| Navigate (path : jsstring)
| ConsoleError (label : jsstring) (error : Thrown).

Definition isWrite (c : Call) : bool :=
  match c with
  | Upload _ _ _ | InsertPost _ _ | InsertTag _ _ _ | InsertPostTag _ _ _ => true
  | SelectTags _ _ | SelectPosts _ _ _ | SelectPostsOfTag _ _ => false
  end.

(** [.maybeSingle()] on the rows of a select: no row is [null] without an
    error, one row is that row, more rows are an error and [null]. *)
Definition PGRST116 : Error :=
  {| message := str "JSON object requested, multiple (or no) rows returned";
     errcode := str "PGRST116" |}.

Definition maybeSingle {A : Type} (answer : Error + list A) : Error + option A :=
  match answer with
  | inl e => inl e
  | inr [] => inr None
  | inr [x] => inr (Some x)
  | inr (_ :: _ :: _) => inl PGRST116
  end.

(** The [data] field of an answer: [null] when there is an error. *)
Definition dataOf {A : Type} (answer : Error + option A) : option A :=
  match answer with inl _ => None | inr d => d end.

(** ** The pages, over any backend *)

(** A backend answers each request from its own state [W], which it may
    change; [publicUrl] is computed without a request. *)
Record Backend (W : Type) := {
  upload : jsstring -> File -> W -> option Error * W;
  publicUrl : jsstring -> jsstring;
  insertPost : NewPost -> W -> (Error + PostRow) * W;
  selectTags : jsstring -> W -> (Error + list TagRow) * W;
  insertTag : jsstring -> jsstring -> W -> (Error + TagRow) * W;
  insertPostTag : ID -> ID -> W -> option Error * W;
  selectPosts : list PostFilter -> option Order -> W -> (Error + list Post) * W;
  selectPostsOfTag : ID -> W -> (Error + list (option Post)) * W
}.

Arguments upload {W}.
Arguments publicUrl {W}.
Arguments insertPost {W}.
Arguments selectTags {W}.
Arguments insertTag {W}.
Arguments insertPostTag {W}.
Arguments selectPosts {W}.
Arguments selectPostsOfTag {W}.

(** The state a page function runs in: the backend's state, the requests
    sent so far and the effects performed so far, both oldest first. *)
Record Run (W : Type) := {
  world : W;
  calls : list Call;
  effects : list Effect
}.

Arguments world {W}.
Arguments calls {W}.
Arguments effects {W}.

Definition start {W : Type} (w : W) : Run W :=
  {| world := w; calls := []; effects := [] |}.

Section Pages.

Context {W : Type} (B : Backend W).

(** A computation either throws or returns, and leaves a state. *)
Definition M (A : Type) : Type := Run W -> (Thrown + A) * Run W.

Definition ret {A : Type} (a : A) : M A := fun r => (inr a, r).

Definition throw {A : Type} (t : Thrown) : M A := fun r => (inl t, r).

Definition bind {A C : Type} (m : M A) (k : A -> M C) : M C :=
  fun r =>
    match m r with
    | (inl t, r') => (inl t, r')
    | (inr a, r') => k a r'
    end.

Notation "x <- m ;; k" := (bind m (fun x => k))
  (at level 61, m at next level, right associativity).
Notation "m ;; k" := (bind m (fun _ => k))
  (at level 61, right associativity).

Definition effect (e : Effect) : M unit :=
  fun r => (inr tt, {| world := world r; calls := calls r;
                       effects := effects r ++ [e] |}).

(** Send a request: the backend answers and the call is recorded. *)
Definition request {A : Type} (op : W -> A * W) (record : A -> Call) : M A :=
  fun r =>
    let (a, w') := op (world r) in
    (inr a, {| world := w'; calls := calls r ++ [record a];
               effects := effects r |}).

(** [if (error) throw error] *)
Definition throwIf (error : option Error) : M unit :=
  match error with
  | Some e => throw (BackendError e)
  | None => ret tt
  end.

(** [const { data, error } = ...; if (error) throw error], then [data]. *)
Definition orThrow {A : Type} (answer : Error + A) : M A :=
  match answer with
  | inl e => throw (BackendError e)
  | inr d => ret d
  end.

(** [try { body } catch (error) { handler } finally { final }]; neither the
    handlers nor the [finally] blocks of these pages throw. *)
Definition tryCatchFinally (body : M unit) (handler : Thrown -> M unit)
    (final : M unit) : Run W -> Run W :=
  fun r =>
    let r1 := match body r with
              | (inl t, r') => snd (handler t r')
              | (inr _, r') => r'
              end in
    snd (final r1).

(** [for (const x of l) { body }] *)
Fixpoint forEach {A : Type} (l : list A) (body : A -> M unit) : M unit :=
  match l with
  | [] => ret tt
  | x :: rest => body x ;; forEach rest body
  end.

(** *** [CreatePost.tsx] *)

(** [validationData.tags.split(',').map(t => t.trim()).filter(t => t)] *)
Definition tagNamesOf (validTags : jsstring) : list jsstring :=
  filter truthy (map trim (split ","%char validTags)).

(** [`${user.id}/${Date.now()}.${fileExt}`] *)
Definition fileNameOf (user : User) (now : N) (img : File) : jsstring :=
  let fileExt := pop (split "."%char (file_name img)) in
  user_id user ++ str "/" ++ str (NilZero.string_of_uint (N.to_uint now))
  ++ str "." ++ fileExt.

(** [validationData.excerpt || validationData.content.substring(0, 200)] *)
Definition postExcerptOf (v : ValidationData) : jsstring :=
  if truthy (v_excerpt v) then v_excerpt v else substring0 200 (v_content v).

(** The body of the loop over the tag names: find the tag by its slug or
    create it, then link it to the post.  The error of the select and the
    answer of the link insert are not looked at. *)
Definition resolveTag (tagName : jsstring) : M ID :=
  let tagSlug := generateSlug tagName in
  answer <- request (selectTags B tagSlug) (SelectTags tagSlug) ;;
  match dataOf (maybeSingle answer) with
  | Some existingTag => ret (t_id existingTag)
  | None =>
      created <- request (insertTag B tagName tagSlug) (InsertTag tagName tagSlug) ;;
      newTag <- orThrow created ;;
      ret (t_id newTag)
  end.

Definition linkTag (post_id : ID) (tagName : jsstring) : M unit :=
  tagId <- resolveTag tagName ;;
  _ <- request (insertPostTag B post_id tagId) (InsertPostTag post_id tagId) ;;
  ret tt.

(** The [if (image) { ... }] block: [null] without a file, else the public
    URL of the uploaded file. *)
Definition uploadImage (user : User) (now : N) (img : option File)
  : M (option jsstring) :=
  match img with
  | None => ret None
  | Some file =>
      let fileName := fileNameOf user now file in
      uploadError <- request (upload B fileName file) (Upload fileName file) ;;
      throwIf uploadError ;;
      ret (Some (publicUrl B fileName))
  end.

(** The [try] block of [handleSubmit] from the post insert on: insert the
    post, resolve and link its tags, announce the success. *)
Definition insertAndTag (user : User) (validationData : ValidationData)
    (imageUrl : option jsstring) : M unit :=
  let slug := generateSlug (v_title validationData) in
  let postExcerpt := postExcerptOf validationData in
  let newPost := {| np_title := v_title validationData;
                    np_slug := slug;
                    np_content := v_content validationData;
                    np_excerpt := postExcerpt;
                    np_featured_image := imageUrl;
                    np_author_id := user_id user |} in
  inserted <- request (insertPost B newPost) (InsertPost newPost) ;;
  postData <- orThrow inserted ;;
  (if truthy (v_tags validationData)
   then forEach (tagNamesOf (v_tags validationData)) (linkTag (p_id postData))
   else ret tt) ;;
  effect (ToastSuccess (str "Post created successfully!")) ;;
  effect (Navigate (str "/posts/" ++ slug)).

(** The [try] block of [handleSubmit]. *)
Definition submitBody (user : User) (now : N) (f : Form) : M unit :=
  match postSchema_parse f with
  | inl zodError => throw zodError
  | inr validationData =>
      imageUrl <- uploadImage user now (image f) ;;
      insertAndTag user validationData imageUrl
  end.

(** The [catch] block of [handleSubmit]. *)
Definition submitCatch (error : Thrown) : M unit :=
  match error with
  | ZodError first _ => effect (ToastError first)
  | BackendError _ =>
      effect (ConsoleError (str "Error creating post:") error) ;;
      effect (ToastError (str "Failed to create post"))
  end.

(** [handleSubmit]: nothing at all without a signed-in user; [now] is what
    [Date.now()] reads. *)
Definition handleSubmit (user : option User) (now : N) (f : Form)
  : Run W -> Run W :=
  match user with
  | None => fun r => r
  | Some u =>
      fun r =>
        let r0 := snd (effect (SetLoading true) r) in
        tryCatchFinally (submitBody u now f) submitCatch
                        (effect (SetLoading false)) r0
  end.

(** *** [Home.tsx] *)

(** [fetchPosts]: the published posts, newest first.  Without an error
    [data] is the array of rows, so [data || []] is [data]. *)
Definition fetchPosts : Run W -> Run W :=
  let filters := [EqPublished true] in
  let order := Some (CreatedAt false) in
  tryCatchFinally
    (answer <- request (selectPosts B filters order) (SelectPosts filters order) ;;
     data <- orThrow answer ;;
     effect (SetPosts data))
    (fun error => effect (ConsoleError (str "Error fetching posts:") error))
    (effect (SetLoading false)).

(** *** [TagPosts.tsx] *)

(** [.map(pt => pt.posts).filter(post => post !== null && post !== undefined)] *)
Fixpoint nonNull (l : list (option Post)) : list Post :=
  match l with
  | [] => []
  | Some p :: rest => p :: nonNull rest
  | None :: rest => nonNull rest
  end.

(** [fetchPostsByTag]: the tag of that slug first, then the posts linked to
    it.  Without a tag the function sets [loading] and returns; the
    [finally] block still runs. *)
Definition fetchPostsByTag (tagSlug : jsstring) : Run W -> Run W :=
  tryCatchFinally
    (tagAnswer <- request (selectTags B tagSlug) (SelectTags tagSlug) ;;
     found <- orThrow (maybeSingle tagAnswer) ;;
     match found with
     | None => effect (SetLoading false)
     | Some tagData =>
         effect (SetTagName (t_name tagData)) ;;
         linked <- request (selectPostsOfTag B (t_id tagData))
                           (SelectPostsOfTag (t_id tagData)) ;;
         postTagsData <- orThrow linked ;;
         effect (SetPosts (nonNull postTagsData))
     end)
    (fun error => effect (ConsoleError (str "Error fetching posts by tag:") error))
    (effect (SetLoading false)).

(** *** [PostDetail.tsx] *)

(** [fetchPost]: the published post of that slug, or [null]. *)
Definition fetchPost (slug : jsstring) : Run W -> Run W :=
  let filters := [EqSlug slug; EqPublished true] in
  tryCatchFinally
    (answer <- request (selectPosts B filters None) (SelectPosts filters None) ;;
     data <- orThrow (maybeSingle answer) ;;
     effect (SetPost data))
    (fun error => effect (ConsoleError (str "Error fetching post:") error))
    (effect (SetLoading false)).

End Pages.

(** ** What the read pages show *)

(** The state of [TagPosts]: [useState([])], [useState('')],
    [useState(true)]. *)
Record TagPostsState := {
  tp_posts : list Post;
  tp_tagName : jsstring;
  tp_loading : bool
}.

Definition tagPostsMounted : TagPostsState :=
  {| tp_posts := []; tp_tagName := []; tp_loading := true |}.

Definition tagPostsSet (s : TagPostsState) (e : Effect) : TagPostsState :=
  match e with
  | SetPosts d =>
      {| tp_posts := d; tp_tagName := tp_tagName s; tp_loading := tp_loading s |}
  | SetTagName n =>
      {| tp_posts := tp_posts s; tp_tagName := n; tp_loading := tp_loading s |}
  | SetLoading b =>
      {| tp_posts := tp_posts s; tp_tagName := tp_tagName s; tp_loading := b |}
  | _ => s
  end.

(** The heading is [Posts tagged "name"] with a tag name and [Tag not found]
    without; an empty list of cards stands for the paragraph
    [No posts found with this tag.] *)
Inductive TagPostsView :=
| TagLoading
| TagPage (heading : jsstring) (cards : list Post).

Definition quote : jsstring := [ascii_of_N 34].

Definition renderTagPosts (s : TagPostsState) : TagPostsView :=
  if tp_loading s then TagLoading
  else TagPage (if truthy (tp_tagName s)
                then str "Posts tagged " ++ quote ++ tp_tagName s ++ quote
                else str "Tag not found")
               (tp_posts s).

(** The state of [PostDetail]: [useState(null)], [useState(true)]. *)
Record PostDetailState := {
  pd_post : option Post;
  pd_loading : bool
}.

Definition postDetailMounted : PostDetailState :=
  {| pd_post := None; pd_loading := true |}.

Definition postDetailSet (s : PostDetailState) (e : Effect) : PostDetailState :=
  match e with
  | SetPost d => {| pd_post := d; pd_loading := pd_loading s |}
  | SetLoading b => {| pd_post := pd_post s; pd_loading := b |}
  | _ => s
  end.

Inductive PostDetailView :=
| DetailLoading
| PostNotFound
| Article (post : Post).

Definition renderPostDetail (s : PostDetailState) : PostDetailView :=
  if pd_loading s then DetailLoading
  else match pd_post s with
       | None => PostNotFound
       | Some post => Article post
       end.

(** The view a page shows once the effects of a fetch have been applied to
    its state. *)
Definition tagPostsShows (s : TagPostsState) (es : list Effect) : TagPostsView :=
  renderTagPosts (fold_left tagPostsSet es s).

Definition postDetailShows (s : PostDetailState) (es : list Effect) : PostDetailView :=
  renderPostDetail (fold_left postDetailSet es s).

(** ** An in-memory backend *)

Module Mem.

Record Profile := { pr_id : jsstring; pr_full_name : jsstring }.

(** Modelled from the spec: the tables and the bucket behind the calls; the
    schema is not part of the pages.  From the data model: a post's slug is
    unique, a tag's name and a tag's slug are unique, a post-tag link is a
    unique pair of an existing post and an existing tag; a new post is
    published and stamped with the time of its creation. *)
Record DB := {
  posts : list PostRow;
  tags : list TagRow;
  post_tags : list Link;
  profiles : list Profile;
  objects : list jsstring;
  next_id : ID;
  clock : N
}.

Definition empty : DB :=
  {| posts := []; tags := []; post_tags := []; profiles := []; objects := [];
     next_id := 1%N; clock := 0%N |}.

Definition uniqueViolation (constraint : string) : Error :=
  {| message := str "duplicate key value violates unique constraint "
                ++ str constraint;
     errcode := str "23505" |}.

Definition foreignKeyViolation (constraint : string) : Error :=
  {| message := str "insert or update violates foreign key constraint "
                ++ str constraint;
     errcode := str "23503" |}.

Definition alreadyExists : Error :=
  {| message := str "The resource already exists"; errcode := str "409" |}.

Definition db_upload (path : jsstring) (d : DB) : option Error * DB :=
  if existsb (eqs path) (objects d) then (Some alreadyExists, d)
  else (None, {| posts := posts d; tags := tags d; post_tags := post_tags d;
                 profiles := profiles d; objects := objects d ++ [path];
                 next_id := next_id d; clock := clock d |}).

(** Modelled from the spec: [posts.slug] is unique; a new post gets a fresh
    identifier, is published and carries the time of its creation. *)
Definition db_insertPost (np : NewPost) (d : DB) : (Error + PostRow) * DB :=
  if existsb (fun p => eqs (p_slug p) (np_slug np)) (posts d)
  then (inl (uniqueViolation "posts_slug_key"), d)
  else
    let r := {| p_id := next_id d; p_title := np_title np; p_slug := np_slug np;
                p_content := np_content np; p_excerpt := np_excerpt np;
                p_featured_image := np_featured_image np;
                p_author_id := np_author_id np;
                p_published := true; p_created_at := clock d |} in
    (inr r, {| posts := posts d ++ [r]; tags := tags d; post_tags := post_tags d;
               profiles := profiles d; objects := objects d;
               next_id := N.succ (next_id d); clock := N.succ (clock d) |}).

Definition db_selectTags (slug : jsstring) (d : DB) : (Error + list TagRow) * DB :=
  (inr (filter (fun t => eqs (t_slug t) slug) (tags d)), d).

(** Modelled from the spec: [tags.name] and [tags.slug] are unique. *)
Definition db_insertTag (name slug : jsstring) (d : DB) : (Error + TagRow) * DB :=
  if existsb (fun t => eqs (t_name t) name) (tags d)
  then (inl (uniqueViolation "tags_name_key"), d)
  else if existsb (fun t => eqs (t_slug t) slug) (tags d)
  then (inl (uniqueViolation "tags_slug_key"), d)
  else
    let r := {| t_id := next_id d; t_name := name; t_slug := slug |} in
    (inr r, {| posts := posts d; tags := tags d ++ [r]; post_tags := post_tags d;
               profiles := profiles d; objects := objects d;
               next_id := N.succ (next_id d); clock := clock d |}).

Definition sameLink (a b : Link) : bool :=
  (l_post a =? l_post b)%N && (l_tag a =? l_tag b)%N.

(** Modelled from the spec: a link refers to a stored post and a stored
    tag, and the pair is unique. *)
Definition db_insertPostTag (post_id tag_id : ID) (d : DB) : option Error * DB :=
  let l := {| l_post := post_id; l_tag := tag_id |} in
  if negb (existsb (fun p => (p_id p =? post_id)%N) (posts d))
  then (Some (foreignKeyViolation "post_tags_post_id_fkey"), d)
  else if negb (existsb (fun t => (t_id t =? tag_id)%N) (tags d))
  then (Some (foreignKeyViolation "post_tags_tag_id_fkey"), d)
  else if existsb (sameLink l) (post_tags d)
  then (Some (uniqueViolation "post_tags_pkey"), d)
  else (None, {| posts := posts d; tags := tags d; post_tags := post_tags d ++ [l];
                 profiles := profiles d; objects := objects d;
                 next_id := next_id d; clock := clock d |}).

(** The embedded resources of a selected post: [profiles:author_id
    (full_name)] and [post_tags (tags (name, slug))]. *)
Definition tagsOfPost (d : DB) (post_id : ID) : list (jsstring * jsstring) :=
  flat_map (fun l =>
              if (l_post l =? post_id)%N
              then map (fun t => (t_name t, t_slug t))
                       (filter (fun t => (t_id t =? l_tag l)%N) (tags d))
              else [])
           (post_tags d).

Definition embed (d : DB) (r : PostRow) : Post :=
  {| row := r;
     full_name := option_map pr_full_name
                    (find (fun pr => eqs (pr_id pr) (p_author_id r)) (profiles d));
     post_tags_of := tagsOfPost d (p_id r) |}.

Definition matches (f : PostFilter) (r : PostRow) : bool :=
  match f with
  | EqPublished b => Bool.eqb (p_published r) b
  | EqSlug s => eqs (p_slug r) s
  end.

(** [ORDER BY created_at]: [before o a b] tells that [a] may stand before
    [b]. *)
Definition before (o : Order) (a b : PostRow) : bool :=
  match o with
  | CreatedAt true => (p_created_at a <=? p_created_at b)%N
  | CreatedAt false => (p_created_at b <=? p_created_at a)%N
  end.

Fixpoint insertBy (le : PostRow -> PostRow -> bool) (x : PostRow)
    (l : list PostRow) : list PostRow :=
  match l with
  | [] => [x]
  | y :: rest => if le x y then x :: l else y :: insertBy le x rest
  end.

Definition sortBy (le : PostRow -> PostRow -> bool) (l : list PostRow)
  : list PostRow :=
  fold_right (insertBy le) [] l.

Definition selectedRows (filters : list PostFilter) (order : option Order)
    (d : DB) : list PostRow :=
  let rows := filter (fun r => forallb (fun f => matches f r) filters) (posts d) in
  match order with
  | Some o => sortBy (before o) rows
  | None => rows
  end.

Definition db_selectPosts (filters : list PostFilter) (order : option Order)
    (d : DB) : (Error + list Post) * DB :=
  (inr (map (embed d) (selectedRows filters order d)), d).

Definition db_selectPostsOfTag (tag_id : ID) (d : DB)
  : (Error + list (option Post)) * DB :=
  (inr (map (fun l => option_map (embed d)
                        (find (fun p => (p_id p =? l_post l)%N) (posts d)))
            (filter (fun l => (l_tag l =? tag_id)%N) (post_tags d))),
   d).

(** What can happen to a request on its way: nothing, a failure that keeps
    it from the tables, or another author's page creating a tag of that
    name just before the request is served. *)
Inductive Interference :=
| Quiet
| Fault (e : Error)
| Rival (name : jsstring).

(** The backend's state: the tables, and what will happen to the coming
    requests, one entry for each, nothing once the list is used up. *)
Record World := {
  db : DB;
  pending : list Interference
}.

Definition quiet (d : DB) : World := {| db := d; pending := [] |}.

Definition arrive (w : World) : option Error * World :=
  match pending w with
  | [] => (None, w)
  | Quiet :: rest => (None, {| db := db w; pending := rest |})
  | Fault e :: rest => (Some e, {| db := db w; pending := rest |})
  | Rival name :: rest =>
      (None, {| db := snd (db_insertTag name (generateSlug name) (db w));
                pending := rest |})
  end.

Definition serve {A : Type} (op : DB -> (Error + A) * DB) (w : World)
  : (Error + A) * World :=
  match arrive w with
  | (Some e, w') => (inl e, w')
  | (None, w') =>
      let (answer, d) := op (db w') in
      (answer, {| db := d; pending := pending w' |})
  end.

Definition serveVoid (op : DB -> option Error * DB) (w : World)
  : option Error * World :=
  match arrive w with
  | (Some e, w') => (Some e, w')
  | (None, w') =>
      let (answer, d) := op (db w') in
      (answer, {| db := d; pending := pending w' |})
  end.

Definition bucketUrl : jsstring :=
  str "https://backend.example/storage/v1/object/public/post-images/".

Definition backend : Backend World :=
  {| upload := fun path _ => serveVoid (db_upload path);
     publicUrl := fun path => bucketUrl ++ path;
     insertPost := fun np => serve (db_insertPost np);
     selectTags := fun slug => serve (db_selectTags slug);
     insertTag := fun name slug => serve (db_insertTag name slug);
     insertPostTag := fun p t => serveVoid (db_insertPostTag p t);
     selectPosts := fun fs o => serve (db_selectPosts fs o);
     selectPostsOfTag := fun t => serve (db_selectPostsOfTag t) |}.

(** The constraints the claims rest on: no two tags share a slug, no link
    is stored twice. *)
Definition constrained (d : DB) : Prop :=
  NoDup (map t_slug (tags d)) /\ NoDup (post_tags d).

(** The links of post [post_id] to a tag of slug [slug]. *)
Definition linksTo (d : DB) (post_id : ID) (slug : jsstring) : list Link :=
  filter (fun l => (l_post l =? post_id)%N
                   && existsb (fun t => (t_id t =? l_tag l)%N && eqs (t_slug t) slug)
                              (tags d))
         (post_tags d).

End Mem.

(** ** Slug form *)

(** A slug is empty or made of lower-case letters and digits joined by
    single hyphens: [slugRest prevHyphen s] reads what follows a code unit
    that was ([prevHyphen]) or was not a hyphen. *)
Fixpoint slugRest (prevHyphen : bool) (s : jsstring) : bool :=
  match s with
  | [] => negb prevHyphen
  | c :: r =>
      if isHyphen c then negb prevHyphen && slugRest true r
      else (isLower c || isDigit c) && slugRest false r
  end.

Definition isSlug (s : jsstring) : bool :=
  match s with
  | [] => true
  | c :: r => (isLower c || isDigit c) && slugRest false r
  end.

(** As [slugRest], but the text may end in a hyphen. *)
Fixpoint hyphenated (prevHyphen : bool) (s : jsstring) : bool :=
  match s with
  | [] => true
  | c :: r =>
      if isHyphen c then negb prevHyphen && hyphenated true r
      else (isLower c || isDigit c) && hyphenated false r
  end.

(** Two texts that differ only in the case of their letters. *)
Definition sameUpToCase (a b : jsstring) : Prop :=
  Forall2 (fun c d => toLower c = toLower d) a b.

(** What is left by [removeOthers] of a lower-cased text. *)
Definition keptLower (c : ascii) : Prop :=
  keepsSlugChar c = true /\ isUpper c = false.

(** ** Reading a run of [handleSubmit] *)

(** The error of a call whose answer [handleSubmit] checks with
    [if (error) throw error]: the upload, the post insert and the tag
    insert. *)
Definition thrownBy (c : Call) : option Error :=
  match c with
  | Upload _ _ (Some e) => Some e
  | InsertPost _ (inl e) => Some e
  | InsertTag _ _ (inl e) => Some e
  | _ => None
  end.

(** The error of any call the backend answered with an error. *)
Definition answeredError (c : Call) : option Error :=
  match c with
  | Upload _ _ (Some e) => Some e
  | InsertPost _ (inl e) => Some e
  | SelectTags _ (inl e) => Some e
  | InsertTag _ _ (inl e) => Some e
  | InsertPostTag _ _ (Some e) => Some e
  | SelectPosts _ _ (inl e) => Some e
  | SelectPostsOfTag _ (inl e) => Some e
  | _ => None
  end.

(** How the calls of a computation and its result go together: it returns
    after calls whose checked answers were all good, or it throws the error
    of its last call, the only one with a bad checked answer. *)
Inductive Ends {A : Type} : list Call -> Thrown + A -> Prop :=
| EndsReturn (cs : list Call) (a : A) :
    Forall (fun c => thrownBy c = None) cs -> Ends cs (inr a)
| EndsThrow (cs : list Call) (c : Call) (e : Error) :
    Forall (fun c => thrownBy c = None) cs -> thrownBy c = Some e ->
    Ends (cs ++ [c]) (inl (BackendError e)).

Definition tracks {W A : Type} (m : Run W -> (Thrown + A) * Run W) : Prop :=
  forall r, exists cs,
    calls (snd (m r)) = calls r ++ cs /\ Ends cs (fst (m r)).

(** A computation that performs the effects [es] when it returns and none
    when it throws. *)
Definition emits {W A : Type} (m : Run W -> (Thrown + A) * Run W)
    (es : list Effect) : Prop :=
  forall r,
    effects (snd (m r))
    = effects r ++ match fst (m r) with inr _ => es | inl _ => [] end.

(** The constraints of [postSchema], on the trimmed fields. *)
Definition validForm (f : Form) : bool :=
  ((1 <=? len (trim (title f))) && (len (trim (title f)) <=? 200)
   && (1 <=? len (trim (content f))) && (len (trim (content f)) <=? 50000)
   && (len (trim (excerpt f)) <=? 500)
   && (len (trim (tags f)) <=? 200))%N.

(** The claim that every failed step ends the run: whichever call was
    answered with an error, no call follows it, the error is reported and
    no success is. *)
Definition surfacesEveryFailure {W : Type} (r : Run W) : Prop :=
  forall pre c post e,
    calls r = pre ++ c :: post -> answeredError c = Some e ->
    post = []
    /\ (exists label, In (ConsoleError label (BackendError e)) (effects r))
    /\ (forall msg, ~ In (ToastSuccess msg) (effects r)).

(** A computation all of whose calls satisfy [P]. *)
Definition sends {W A : Type} (P : Call -> Prop)
    (m : Run W -> (Thrown + A) * Run W) : Prop :=
  forall r, exists cs, calls (snd (m r)) = calls r ++ cs /\ Forall P cs.

(** The inserted post carries the trimmed content of the form and this
    excerpt. *)
Definition insertsPost (content excerpt : jsstring) (c : Call) : Prop :=
  match c with
  | InsertPost np _ => np_content np = content /\ np_excerpt np = excerpt
  | _ => True
  end.

(** What [handleSubmit] does to the page when a backend error is thrown:
    the error goes to the console, the toast has a fixed text. *)
Definition failureEffects (e : Error) : list Effect :=
  [SetLoading true;
   ConsoleError (str "Error creating post:") (BackendError e);
   ToastError (str "Failed to create post");
   SetLoading false].

(** What it does when the [try] block runs to its end. *)
Definition successEffects (f : Form) : list Effect :=
  [SetLoading true;
   ToastSuccess (str "Post created successfully!");
   Navigate (str "/posts/" ++ generateSlug (trim (title f)));
   SetLoading false].

Definition isInsertPost (c : Call) : bool :=
  match c with InsertPost _ _ => true | _ => false end.

(** ** Sample data *)

Definition alice : User := {| user_id := str "7f3c" |}.

Definition stormPost (tagList : string) (img : option File) : Form :=
  {| title := str "Belfast Storm Warning";
     content := str "Gales are expected along the coast tonight.";
     excerpt := str "";
     tags := str tagList;
     image := img |}.

Definition photo : File := {| file_name := str "harbour.storm.jpg" |}.

Definition fetchFailed : Error :=
  {| message := str "Failed to fetch"; errcode := str "" |}.

(** Two authors introduce the tag [news] at the same time: the other
    author's tag arrives between this page's lookup and its insert. *)
Definition raceWorld : Mem.World :=
  {| Mem.db := Mem.empty;
     Mem.pending := [Mem.Quiet; Mem.Quiet; Mem.Rival (str "News")] |}.

(** The upload does not reach the bucket. *)
Definition offlineWorld : Mem.World :=
  {| Mem.db := Mem.empty; Mem.pending := [Mem.Fault fetchFailed] |}.

(** What [Date.now()] read at the sample submissions. *)
Definition submittedAt : N := 1762113600000.

(** The race: the tag [news] is new when looked up and taken when
    inserted. *)
Definition raceRun : Run Mem.World :=
  handleSubmit Mem.backend (Some alice) submittedAt (stormPost "news" None)
    (start raceWorld).

(** A post with an image whose upload fails. *)
Definition offlineRun : Run Mem.World :=
  handleSubmit Mem.backend (Some alice) submittedAt
    (stormPost "news" (Some photo)) (start offlineWorld).

(** A post that names the tag [news] twice, on an empty backend without
    interference. *)
Definition twiceRun : Run Mem.World :=
  handleSubmit Mem.backend (Some alice) submittedAt
    (stormPost "news, news, sport" None) (start (Mem.quiet Mem.empty)).

(** A form without a title. *)
Definition untitled : Form :=
  {| title := str "   "; content := str "Body"; excerpt := str "";
     tags := str ""; image := None |}.

(** The slugs of the tag lookups among the calls, oldest first. *)
Fixpoint lookedUp (cs : list Call) : list jsstring :=
  match cs with
  | [] => []
  | SelectTags slug _ :: rest => slug :: lookedUp rest
  | _ :: rest => lookedUp rest
  end.

(** A computation over the in-memory backend that keeps the constraints. *)
Definition keeps {A : Type} (m : Run Mem.World -> (Thrown + A) * Run Mem.World)
  : Prop :=
  forall r, Mem.constrained (Mem.db (world r)) ->
            Mem.constrained (Mem.db (world (snd (m r)))).

(** A computation that, when it returns, has looked up the tags of these
    slugs, in this order. *)
Definition looksUp {W A : Type} (slugs : list jsstring)
    (m : Run W -> (Thrown + A) * Run W) : Prop :=
  forall r, exists cs,
    calls (snd (m r)) = calls r ++ cs
    /\ (forall a, fst (m r) = inr a -> lookedUp cs = slugs).

(** The claim that a reader can tell an unknown slug from a failure: the
    post page shows one view when the backend has no such post and another
    when the request fails. *)
Definition tellsNotFoundFromFailure {W : Type} (B : Backend W)
    (answering failing : W) (slug : jsstring) : Prop :=
  postDetailShows postDetailMounted (effects (fetchPost B slug (start answering)))
  <> postDetailShows postDetailMounted (effects (fetchPost B slug (start failing))).

(** Newest first. *)
Definition newerFirst (a b : PostRow) : Prop :=
  (p_created_at b <= p_created_at a)%N.

(** ** Further parts of the pages *)

(** [Array.prototype.join(sep)] for a one-character separator. *)
Fixpoint join (sep : ascii) (l : list jsstring) : jsstring :=
  match l with
  | [] => []
  | [w] => w
  | w :: rest => w ++ sep :: join sep rest
  end.

(** The words of a text: its maximal runs of code units that are not
    separators, in their order; [current] is the word being read. *)
Fixpoint wordsFrom (current : jsstring) (s : jsstring) : list jsstring :=
  match s with
  | [] => if isEmpty current then [] else [current]
  | c :: r =>
      if isSeparator c
      then (if isEmpty current then wordsFrom [] r else current :: wordsFrom [] r)
      else wordsFrom (current ++ [c]) r
  end.

Definition wordsOf (s : jsstring) : list jsstring := wordsFrom [] s.

(** [post.content.split('\n')] in [PostDetail.tsx]: one paragraph for each
    line of the content. *)
Definition newline : ascii := ascii_of_N 10.

Definition paragraphsOf (post : Post) : list jsstring :=
  split newline (p_content (row post)).

(** The form whose fields are the validated ones. *)
Definition formOf (v : ValidationData) (img : option File) : Form :=
  {| title := v_title v; content := v_content v; excerpt := v_excerpt v;
     tags := v_tags v; image := img |}.

Definition isToast (e : Effect) : bool :=
  match e with
  | ToastSuccess _ | ToastError _ => true
  | _ => false
  end.

(** The row [handleSubmit] asks the backend to insert, read off the form:
    [imageUrl] is the public URL of the uploaded image, if any. *)
Definition newPostOf (u : User) (f : Form) (imageUrl : option jsstring) : NewPost :=
  {| np_title := trim (title f);
     np_slug := generateSlug (trim (title f));
     np_content := trim (content f);
     np_excerpt := match trim (excerpt f) with
                   | [] => substring0 200 (trim (content f))
                   | given => given
                   end;
     np_featured_image := imageUrl;
     np_author_id := user_id u |}.

(** The requests the loop over the tag names may send for the post
    [post_id]: a lookup of the slug of a name, an insert of a name with its
    slug, a link of that post. *)
Definition tagCall (names : list jsstring) (post_id : ID) (c : Call) : Prop :=
  match c with
  | SelectTags slug _ => exists name, In name names /\ slug = generateSlug name
  | InsertTag name slug _ => In name names /\ slug = generateSlug name
  | InsertPostTag p _ _ => p = post_id
  | _ => False
  end.

(** The requests after the post insert: none when the insert failed. *)
Definition tagCalls (names : list jsstring) (answer : Error + PostRow)
    (cs : list Call) : Prop :=
  match answer with
  | inl _ => cs = []
  | inr postData => Forall (tagCall names (p_id postData)) cs
  end.

(** The requests of one pass of the loop that runs to its end: the tag is
    found and linked, or it is not found, created and linked. *)
Inductive TagGroup (post_id : ID) (name : jsstring) : list Call -> Prop :=
| Reused (answer : Error + list TagRow) (existingTag : TagRow)
         (linked : option Error) :
    dataOf (maybeSingle answer) = Some existingTag ->
    TagGroup post_id name
      [SelectTags (generateSlug name) answer;
       InsertPostTag post_id (t_id existingTag) linked]
| Created (answer : Error + list TagRow) (newTag : TagRow)
          (linked : option Error) :
    dataOf (maybeSingle answer) = None ->
    TagGroup post_id name
      [SelectTags (generateSlug name) answer;
       InsertTag name (generateSlug name) (inr newTag);
       InsertPostTag post_id (t_id newTag) linked].

Definition isUpload (c : Call) : bool :=
  match c with Upload _ _ _ => true | _ => false end.

(** A computation over the in-memory backend that takes the tables to a
    state related by [R] to the one it found. *)
Definition advances {A : Type} (R : Mem.DB -> Mem.DB -> Prop)
    (m : Run Mem.World -> (Thrown + A) * Run Mem.World) : Prop :=
  forall r, R (Mem.db (world r)) (Mem.db (world (snd (m r)))).

(** Tables that hold the same posts, read at the same time of the clock. *)
Definition samePosts (d d' : Mem.DB) : Prop :=
  Mem.posts d' = Mem.posts d /\ Mem.clock d' = Mem.clock d.

(** A second form whose title differs from the first in case, spacing and
    punctuation only. *)
Definition stormAgain : Form :=
  {| title := str "  belfast STORM warning!! ";
     content := str "The warning has been extended.";
     excerpt := str "";
     tags := str "";
     image := None |}.

(** The row the sample submissions store for the first form. *)
Definition stormRow : PostRow :=
  {| p_id := 1%N;
     p_title := str "Belfast Storm Warning";
     p_slug := str "belfast-storm-warning";
     p_content := str "Gales are expected along the coast tonight.";
     p_excerpt := str "Gales are expected along the coast tonight.";
     p_featured_image := None;
     p_author_id := str "7f3c";
     p_published := true;
     p_created_at := 0%N |}.



(** A third form, for the tables the first one left. *)
Definition harbourPost : Form :=
  {| title := str "Harbour reopens";
     content := str "Ferries sail again from noon.";
     excerpt := str "Sailings resume.";
     tags := str "News, travel";
     image := None |}.

(** The tables the first sample submission left. *)
Definition afterStorm : Mem.DB := Mem.db (world twiceRun).

Definition harbourRun : Run Mem.World :=
  handleSubmit Mem.backend (Some alice) submittedAt harbourPost
    (start (Mem.quiet afterStorm)).

(** The tag page of [news] as it stands after the first sample submission. *)
Definition newsPage : TagPostsState :=
  fold_left tagPostsSet
    (effects (fetchPostsByTag Mem.backend (str "news")
                (start (Mem.quiet afterStorm))))
    tagPostsMounted.

(** ** [Admin.tsx] *)

Module Admin.

(** A row of [posts] as the panel selects it, with the author's
    [profiles.full_name]. *)
Record Post := {
  ap_id : ID;
  ap_title : jsstring;
  ap_slug : jsstring;
  ap_created_at : N;
  ap_full_name : option jsstring
}.

Record UserProfile := {
  up_id : jsstring;
  up_email : jsstring;
  up_full_name : jsstring;
  up_created_at : N
}.

(** The requests of the panel, with their answers. *)
Inductive Call :=
| SelectPosts (answer : Error + list Post)
| SelectProfiles (answer : Error + list UserProfile)
| DeletePost (postId : ID) (answer : option Error).

Inductive Effect :=
| SetPosts (data : list Post)
| SetUsers (data : list UserProfile)
| SetLoading (b : bool)
| ToastSuccess (msg : jsstring)
| ToastError (msg : jsstring)
| ConsoleError (label : jsstring) (error : Error)
| Navigate (path : jsstring).

Record Backend (W : Type) := {
  selectPosts : W -> (Error + list Post) * W;
  selectProfiles : W -> (Error + list UserProfile) * W;
  deletePost : ID -> W -> option Error * W
}.

Arguments selectPosts {W}.
Arguments selectProfiles {W}.
Arguments deletePost {W}.

Record Run (W : Type) := {
  world : W;
  calls : list Call;
  effects : list Effect
}.

Arguments world {W}.
Arguments calls {W}.
Arguments effects {W}.

Definition start {W : Type} (w : W) : Run W :=
  {| world := w; calls := []; effects := [] |}.

Section Panel.

Context {W : Type} (B : Backend W).

Definition M (A : Type) : Type := Run W -> (Error + A) * Run W.

Definition ret {A : Type} (a : A) : M A := fun r => (inr a, r).

Definition throw {A : Type} (e : Error) : M A := fun r => (inl e, r).

Definition bind {A C : Type} (m : M A) (k : A -> M C) : M C :=
  fun r =>
    match m r with
    | (inl e, r') => (inl e, r')
    | (inr a, r') => k a r'
    end.

Notation "x <- m ;; k" := (bind m (fun x => k))
  (at level 61, m at next level, right associativity).
Notation "m ;; k" := (bind m (fun _ => k))
  (at level 61, right associativity).

Definition effect (e : Effect) : M unit :=
  fun r => (inr tt, {| world := world r; calls := calls r;
                       effects := effects r ++ [e] |}).

Definition request {A : Type} (op : W -> A * W) (record : A -> Call) : M A :=
  fun r =>
    let (a, w') := op (world r) in
    (inr a, {| world := w'; calls := calls r ++ [record a];
               effects := effects r |}).

Definition throwIf (error : option Error) : M unit :=
  match error with
  | Some e => throw e
  | None => ret tt
  end.

Definition orThrow {A : Type} (answer : Error + A) : M A :=
  match answer with
  | inl e => throw e
  | inr d => ret d
  end.

(** [try { body } catch (error) { handler }], and [finally { final }] where
    there is one. *)
Definition tryCatchFinally (body : M unit) (handler : Error -> M unit)
    (final : M unit) : Run W -> Run W :=
  fun r =>
    let r1 := match body r with
              | (inl e, r') => snd (handler e r')
              | (inr _, r') => r'
              end in
    snd (final r1).

(** [fetchData]: the two selects of [Promise.all] are both sent before
    either answer is looked at; the backend serves them in the order of the
    array.  Without an error [data] is the array of rows. *)
Definition fetchData : Run W -> Run W :=
  tryCatchFinally
    (postsData <- request (selectPosts B) SelectPosts ;;
     usersData <- request (selectProfiles B) SelectProfiles ;;
     posts <- orThrow postsData ;;
     users <- orThrow usersData ;;
     effect (SetPosts posts) ;;
     effect (SetUsers users))
    (fun error =>
       effect (ConsoleError (str "Error fetching data:") error) ;;
       effect (ToastError (str "Failed to load admin data")))
    (effect (SetLoading false)).

(** [handleDeletePost]: [confirmed] is the answer of the [confirm] dialog,
    [posts] the list the panel holds when the button is pressed. *)
Definition handleDeletePost (confirmed : bool) (posts : list Post)
    (postId : ID) : Run W -> Run W :=
  if negb confirmed then fun r => r
  else
    tryCatchFinally
      (error <- request (deletePost B postId) (DeletePost postId) ;;
       throwIf error ;;
       effect (SetPosts (filter (fun p => negb (ap_id p =? postId)%N) posts)) ;;
       effect (ToastSuccess (str "Post deleted successfully")))
      (fun error =>
         effect (ConsoleError (str "Error deleting post:") error) ;;
         effect (ToastError (str "Failed to delete post")))
      (ret tt).

(** The effect hook of the panel, run with what [useAuth] gives. *)
Definition onAuth (authLoading : bool) (user : option User) (isAdmin : bool)
  : Run W -> Run W :=
  if negb authLoading
     && (match user with None => true | Some _ => false end || negb isAdmin)
  then fun r => snd (effect (Navigate (str "/")) r)
  else if isAdmin then fetchData
  else fun r => r.

End Panel.

(** The state of the panel: [useState([])], [useState([])],
    [useState(true)]. *)
Record State := {
  posts : list Post;
  users : list UserProfile;
  loading : bool
}.

Definition mounted : State := {| posts := []; users := []; loading := true |}.

Definition update (s : State) (e : Effect) : State :=
  match e with
  | SetPosts d => {| posts := d; users := users s; loading := loading s |}
  | SetUsers d => {| posts := posts s; users := d; loading := loading s |}
  | SetLoading b => {| posts := posts s; users := users s; loading := b |}
  | _ => s
  end.

Definition isToast (e : Effect) : bool :=
  match e with
  | ToastSuccess _ | ToastError _ => true
  | _ => false
  end.

End Admin.

(** ** What the home page shows *)

(** The state of [Home]: [useState([])], [useState(true)]. *)
Record HomeState := {
  hm_posts : list Post;
  hm_loading : bool
}.

Definition homeMounted : HomeState := {| hm_posts := []; hm_loading := true |}.

Definition homeSet (s : HomeState) (e : Effect) : HomeState :=
  match e with
  | SetPosts d => {| hm_posts := d; hm_loading := hm_loading s |}
  | SetLoading b => {| hm_posts := hm_posts s; hm_loading := b |}
  | _ => s
  end.

(** A card of the grid, without its date: the link around it, the image
    when [featured_image] is truthy, the badges of
    [post.post_tags?.slice(0, 3)], the title, the excerpt and the author,
    [post.profiles?.full_name || 'Anonymous']. *)
Record Card := {
  card_link : jsstring;
  card_image : option jsstring;
  card_badges : list jsstring;
  card_title : jsstring;
  card_excerpt : jsstring;
  card_author : jsstring
}.

Definition cardOf (post : Post) : Card :=
  {| card_link := str "/posts/" ++ p_slug (row post);
     card_image := match p_featured_image (row post) with
                   | Some url => if truthy url then Some url else None
                   | None => None
                   end;
     card_badges := map fst (firstn 3 (post_tags_of post));
     card_title := p_title (row post);
     card_excerpt := p_excerpt (row post);
     card_author := match full_name post with
                    | Some name => if truthy name then name else str "Anonymous"
                    | None => str "Anonymous"
                    end |}.

(** [NoPostsYet] stands for the paragraph [No posts yet. Check back soon!] *)
Inductive HomeView :=
| HomeLoading
| NoPostsYet
| Grid (cards : list Card).

Definition renderHome (s : HomeState) : HomeView :=
  if hm_loading s then HomeLoading
  else match hm_posts s with
       | [] => NoPostsYet
       | posts => Grid (map cardOf posts)
       end.

Definition homeShows (s : HomeState) (es : list Effect) : HomeView :=
  renderHome (fold_left homeSet es s).

(** A backend of the panel for the samples: its state is the list of posts;
    the profiles cannot be read. *)
Definition deskBackend : Admin.Backend (list Admin.Post) :=
  {| Admin.selectPosts := fun w => (inr w, w);
     Admin.selectProfiles := fun w => (inl fetchFailed, w);
     Admin.deletePost :=
       fun postId w =>
         (None, filter (fun p => negb (Admin.ap_id p =? postId)%N) w) |}.

Definition deskPosts : list Admin.Post :=
  [{| Admin.ap_id := 2%N; Admin.ap_title := str "Harbour reopens";
      Admin.ap_slug := str "harbour-reopens"; Admin.ap_created_at := 1%N;
      Admin.ap_full_name := Some (str "Alice") |};
   {| Admin.ap_id := 1%N; Admin.ap_title := str "Belfast Storm Warning";
      Admin.ap_slug := str "belfast-storm-warning"; Admin.ap_created_at := 0%N;
      Admin.ap_full_name := None |}].

(* ================================================================== *)
(** * Properties *)
(* ================================================================== *)

(** ** Code units *)

Ltac each_code_unit c :=
  destruct c as [[] [] [] [] [] [] [] []]; vm_compute;
  try reflexivity; try discriminate; try tauto; auto.

Lemma toLower_not_upper (c : ascii) : isUpper (toLower c) = false.
Proof. each_code_unit c. Qed.

Lemma toLower_alnum (c : ascii) : isAlnum (toLower c) = isAlnum c.
Proof. each_code_unit c. Qed.

Lemma toLower_idem (c : ascii) : toLower (toLower c) = toLower c.
Proof. each_code_unit c. Qed.

Lemma isHyphen_eq (c : ascii) : isHyphen c = true -> c = "-"%char.
Proof. each_code_unit c. Qed.

Lemma slug_unit_lower (c : ascii) :
  isLower c || isDigit c || isHyphen c = true -> toLower c = c.
Proof. each_code_unit c. Qed.

Lemma slug_unit_not_space (c : ascii) :
  isLower c || isDigit c || isHyphen c = true -> isSpace c = false.
Proof. each_code_unit c. Qed.

Lemma slug_unit_kept (c : ascii) :
  isLower c || isDigit c || isHyphen c = true -> keepsSlugChar c = true.
Proof. each_code_unit c. Qed.

Lemma slug_unit_word (c : ascii) :
  isLower c || isDigit c || isHyphen c = true ->
  isWord c = true \/ isHyphen c = true.
Proof. each_code_unit c. Qed.

Lemma slug_unit_not_upper (c : ascii) :
  isLower c || isDigit c || isHyphen c = true -> isUpper c = false.
Proof. each_code_unit c. Qed.

Lemma letter_not_separator (c : ascii) :
  isLower c || isDigit c = true -> isSeparator c = false.
Proof. each_code_unit c. Qed.

Lemma letter_not_hyphen (c : ascii) :
  isLower c || isDigit c = true -> isHyphen c = false.
Proof. each_code_unit c. Qed.

Lemma hyphen_separator (c : ascii) : isHyphen c = true -> isSeparator c = true.
Proof. each_code_unit c. Qed.

Lemma kept_letter (c : ascii) :
  keepsSlugChar c = true -> isUpper c = false -> isSeparator c = false ->
  isLower c || isDigit c = true.
Proof. each_code_unit c. Qed.

Lemma kept_other (c : ascii) :
  keepsSlugChar c = true -> isAlnum c = false -> isSeparator c = true.
Proof. each_code_unit c. Qed.

Lemma comma_not_space : isSpace ","%char = false.
Proof. reflexivity. Qed.

(** ** Dropping at either end *)

Section Dropping.

Variable p : ascii -> bool.

Lemma dropWhile_head (s : jsstring) :
  match dropWhile p s with [] => True | c :: _ => p c = false end.
Proof.
  induction s as [|c r IH]; simpl; [exact I|].
  destruct (p c) eqn:E; [exact IH | exact E].
Qed.

Lemma dropWhile_id (c : ascii) (r : jsstring) :
  p c = false -> dropWhile p (c :: r) = c :: r.
Proof. intros E; simpl; now rewrite E. Qed.

Lemma dropWhile_Forall (Q : ascii -> Prop) (s : jsstring) :
  Forall Q s -> Forall Q (dropWhile p s).
Proof.
  induction 1 as [|c r Hc Hr IH]; simpl; [constructor|].
  destruct (p c); [exact IH | now constructor].
Qed.

Lemma dropWhileEnd_Forall (Q : ascii -> Prop) (s : jsstring) :
  Forall Q s -> Forall Q (dropWhileEnd p s).
Proof.
  induction 1 as [|c r Hc Hr IH]; simpl; [constructor|].
  destruct (p c && isEmpty (dropWhileEnd p r)); now constructor.
Qed.

Lemma dropWhileEnd_id (s : jsstring) :
  Forall (fun c => p c = false) s -> dropWhileEnd p s = s.
Proof.
  induction 1 as [|c r Hc Hr IH]; simpl; [reflexivity|].
  now rewrite Hc, IH.
Qed.

Lemma dropWhileEnd_all (s : jsstring) :
  Forall (fun c => p c = true) s -> dropWhileEnd p s = [].
Proof.
  induction 1 as [|c r Hc Hr IH]; simpl; [reflexivity|].
  now rewrite Hc, IH.
Qed.

Lemma dropWhile_all (s : jsstring) :
  Forall (fun c => p c = true) s -> dropWhile p s = [].
Proof.
  induction 1 as [|c r Hc Hr IH]; simpl; [reflexivity|].
  now rewrite Hc.
Qed.

End Dropping.

(** ** The shape of a slug *)

Lemma slugRest_units (b : bool) (s : jsstring) :
  slugRest b s = true ->
  Forall (fun c => isLower c || isDigit c || isHyphen c = true) s.
Proof.
  revert b; induction s as [|c r IH]; intros b H; [constructor|].
  simpl in H. destruct (isHyphen c) eqn:Hh.
  - apply andb_prop in H as [_ H]. constructor; [|eauto].
    rewrite Hh. apply orb_true_r.
  - apply andb_prop in H as [Hc H]. constructor; [|eauto].
    rewrite Hc. reflexivity.
Qed.

Lemma isSlug_units (s : jsstring) :
  isSlug s = true ->
  Forall (fun c => isLower c || isDigit c || isHyphen c = true) s.
Proof.
  destruct s as [|c r]; [constructor|]. simpl. intros H.
  apply andb_prop in H as [Hc H]. constructor.
  - rewrite Hc. reflexivity.
  - eapply slugRest_units; eassumption.
Qed.

Lemma slugRest_no_trailing_hyphen (b : bool) (r : jsstring) :
  slugRest b (r ++ ["-"%char]) = false.
Proof.
  revert b; induction r as [|c r IH]; intros b; simpl.
  - apply andb_false_r.
  - destruct (isHyphen c); rewrite IH; apply andb_false_r.
Qed.

Lemma isSlug_no_trailing_hyphen (r : jsstring) : isSlug (r ++ ["-"%char]) = false.
Proof.
  destruct r as [|c r]; [reflexivity|]. simpl.
  rewrite slugRest_no_trailing_hyphen. apply andb_false_r.
Qed.

Lemma isSlug_no_leading_hyphen (r : jsstring) : isSlug ("-"%char :: r) = false.
Proof. reflexivity. Qed.

(** Each stage of [generateSlug] leaves a slug as it is. *)

Lemma slugRest_collapse (b : bool) (s : jsstring) :
  slugRest b s = true -> collapseFrom b s = s.
Proof.
  revert b; induction s as [|c r IH]; intros b H; [reflexivity|].
  simpl in H |- *. destruct (isHyphen c) eqn:Hh.
  - apply andb_prop in H as [Hb H]. destruct b; [discriminate|].
    rewrite (hyphen_separator c Hh), (IH true H).
    now rewrite (isHyphen_eq c Hh).
  - apply andb_prop in H as [Hc H].
    now rewrite (letter_not_separator c Hc), (IH false H).
Qed.

Lemma slugRest_dropWhileEnd (b : bool) (s : jsstring) :
  slugRest b s = true -> dropWhileEnd isHyphen s = s.
Proof.
  revert b; induction s as [|c r IH]; intros b H; [reflexivity|].
  simpl in H |- *. destruct (isHyphen c) eqn:Hh.
  - apply andb_prop in H as [_ H]. rewrite (IH true H).
    destruct r; [discriminate H | reflexivity].
  - apply andb_prop in H as [_ H]. now rewrite (IH false H).
Qed.

Lemma isSlug_fixed (s : jsstring) : isSlug s = true -> generateSlug s = s.
Proof.
  intros H. pose proof (isSlug_units s H) as U.
  unfold generateSlug.
  assert (L : toLowerCase s = s).
  { unfold toLowerCase. rewrite <- (map_id s) at 2. apply map_ext_in.
    intros c Hc. rewrite Forall_forall in U. now apply slug_unit_lower, U. }
  assert (T : trim s = s).
  { unfold trim. destruct s as [|c r]; [reflexivity|].
    inversion U as [|? ? Hc Hr]; subst.
    rewrite dropWhile_id by now apply slug_unit_not_space.
    apply dropWhileEnd_id. eapply Forall_impl; [|exact U].
    intros a; apply slug_unit_not_space. }
  assert (R : removeOthers s = s).
  { unfold removeOthers. apply forallb_filter_id, forallb_forall.
    rewrite Forall_forall in U. intros c Hc. now apply slug_unit_kept, U. }
  rewrite L, T, R. unfold collapseSeparators, stripHyphens.
  destruct s as [|c r]; [reflexivity|].
  simpl in H. apply andb_prop in H as [Hc H].
  assert (S : slugRest false (c :: r) = true).
  { simpl. now rewrite (letter_not_hyphen c Hc), Hc, H. }
  rewrite (slugRest_collapse false _ S).
  rewrite dropWhile_id by now apply letter_not_hyphen.
  exact (slugRest_dropWhileEnd false _ S).
Qed.

(** [generateSlug] produces a slug. *)

Lemma collapse_hyphenated (b : bool) (s : jsstring) :
  Forall keptLower s -> hyphenated b (collapseFrom b s) = true.
Proof.
  intros H; revert b; induction H as [|c r [Hk Hu] _ IH]; intros b;
    [reflexivity|].
  simpl. destruct (isSeparator c) eqn:Hs.
  - destruct b; [apply IH|]. simpl. apply IH.
  - simpl. pose proof (kept_letter c Hk Hu Hs) as Hc.
    now rewrite (letter_not_hyphen c Hc), Hc, IH.
Qed.

Lemma hyphenated_weaken (b : bool) (s : jsstring) :
  hyphenated b s = true -> hyphenated false s = true.
Proof.
  destruct s as [|c r]; [reflexivity|]. simpl.
  destruct (isHyphen c); [|trivial].
  intros H. apply andb_prop in H as [_ H]. exact H.
Qed.

Lemma hyphenated_dropWhile (b : bool) (s : jsstring) :
  hyphenated b s = true -> hyphenated false (dropWhile isHyphen s) = true.
Proof.
  revert b; induction s as [|c r IH]; intros b H; [reflexivity|].
  simpl in H |- *. destruct (isHyphen c) eqn:Hh.
  - apply andb_prop in H as [_ H]. exact (IH true H).
  - simpl. now rewrite Hh.
Qed.

Lemma hyphenated_dropWhileEnd (b : bool) (s : jsstring) :
  hyphenated b s = true ->
  dropWhileEnd isHyphen s = [] \/ slugRest b (dropWhileEnd isHyphen s) = true.
Proof.
  revert b; induction s as [|c r IH]; intros b H; [now left|].
  simpl in H |- *. destruct (isHyphen c) eqn:Hh; simpl.
  - apply andb_prop in H as [Hb H].
    destruct (IH true H) as [E|E].
    + left. now rewrite E.
    + right. destruct (dropWhileEnd isHyphen r) eqn:D; [discriminate E|].
      simpl isEmpty. cbv iota. simpl slugRest at 1. now rewrite Hh, Hb.
  - right. apply andb_prop in H as [Hc H]. rewrite Hh, Hc. simpl.
    destruct (IH false H) as [E|E]; [now rewrite E | exact E].
Qed.

Lemma stripHyphens_isSlug (b : bool) (s : jsstring) :
  hyphenated b s = true -> isSlug (stripHyphens s) = true.
Proof.
  intros H. apply hyphenated_dropWhile in H. unfold stripHyphens.
  pose proof (dropWhile_head isHyphen s) as Hd.
  destruct (dropWhile isHyphen s) as [|c r]; [reflexivity|].
  simpl in H. rewrite Hd in H. apply andb_prop in H as [Hc H].
  simpl. rewrite Hd. simpl. rewrite Hc. simpl.
  destruct (hyphenated_dropWhileEnd false r H) as [E|E];
    [now rewrite E | exact E].
Qed.

Lemma lowered_kept (text : jsstring) :
  Forall keptLower (removeOthers (trim (toLowerCase text))).
Proof.
  apply Forall_forall. intros c Hc. unfold removeOthers in Hc.
  apply filter_In in Hc as [Hc Hk]. split; [exact Hk|].
  assert (U : Forall (fun c => isUpper c = false) (trim (toLowerCase text))).
  { unfold trim. apply dropWhileEnd_Forall, dropWhile_Forall.
    unfold toLowerCase. apply Forall_forall. intros a Ha.
    apply in_map_iff in Ha as [a0 [<- _]]. apply toLower_not_upper. }
  rewrite Forall_forall in U. now apply U.
Qed.

Lemma generateSlug_isSlug (text : jsstring) : isSlug (generateSlug text) = true.
Proof.
  unfold generateSlug, collapseSeparators.
  eapply stripHyphens_isSlug, collapse_hyphenated, lowered_kept.
Qed.

(** Text without a letter or a digit has the empty slug. *)

Lemma collapse_separators_only (s : jsstring) :
  Forall (fun c => isSeparator c = true) s ->
  collapseFrom true s = []
  /\ (collapseFrom false s = [] \/ collapseFrom false s = ["-"%char]).
Proof.
  induction 1 as [|c r Hc _ [IH1 IH2]]; simpl; [now auto|].
  rewrite Hc, IH1. auto.
Qed.

Lemma no_alnum_separators (text : jsstring) :
  Forall (fun c => isAlnum c = false) text ->
  Forall (fun c => isSeparator c = true) (removeOthers (trim (toLowerCase text))).
Proof.
  intros H. apply Forall_forall. intros c Hc. unfold removeOthers in Hc.
  apply filter_In in Hc as [Hc Hk]. apply kept_other; [exact Hk|].
  assert (U : Forall (fun c => isAlnum c = false) (trim (toLowerCase text))).
  { unfold trim. apply dropWhileEnd_Forall, dropWhile_Forall.
    unfold toLowerCase. apply Forall_forall. intros a Ha.
    apply in_map_iff in Ha as [a0 [<- Ha0]]. rewrite toLower_alnum.
    rewrite Forall_forall in H. now apply H. }
  rewrite Forall_forall in U. now apply U.
Qed.

Lemma generateSlug_degenerate (text : jsstring) :
  Forall (fun c => isAlnum c = false) text -> generateSlug text = [].
Proof.
  intros H. unfold generateSlug, collapseSeparators.
  destruct (collapse_separators_only _ (no_alnum_separators text H)) as [_ [E|E]];
    rewrite E; reflexivity.
Qed.

(** ** The slug generator: claims C4 and C5 *)

(** C4. For every input text, [generateSlug] returns (it is a total
    function) a lower-case string made only of word characters and hyphens,
    which neither starts nor ends with a hyphen; the result is the empty
    string when the input has no letter and no digit, as with pure
    punctuation or white space only. *)
Theorem generateSlug_contract (text : jsstring) :
  Forall (fun c => isWord c = true \/ isHyphen c = true) (generateSlug text)
  /\ toLowerCase (generateSlug text) = generateSlug text
  /\ Forall (fun c => isUpper c = false) (generateSlug text)
  /\ (forall r, generateSlug text <> "-"%char :: r)
  /\ (forall r, generateSlug text <> r ++ ["-"%char])
  /\ (Forall (fun c => isAlnum c = false) text -> generateSlug text = []).
Proof.
  pose proof (generateSlug_isSlug text) as S.
  pose proof (isSlug_units _ S) as U.
  repeat split.
  - eapply Forall_impl; [|exact U]. intros c; apply slug_unit_word.
  - unfold toLowerCase. rewrite <- (map_id (generateSlug text)) at 2.
    apply map_ext_in. intros c Hc. rewrite Forall_forall in U.
    now apply slug_unit_lower, U.
  - eapply Forall_impl; [|exact U]. intros c; apply slug_unit_not_upper.
  - intros r E. rewrite E in S. discriminate S.
  - intros r E. rewrite E, isSlug_no_trailing_hyphen in S. discriminate S.
  - apply generateSlug_degenerate.
Qed.

Lemma generateSlug_contract_punctuation :
  Forall (fun c => isAlnum c = false) (str "?! ... --")
  /\ generateSlug (str "?! ... --") = [].
Proof.
  assert (H : Forall (fun c => isAlnum c = false) (str "?! ... --"))
    by (repeat constructor).
  split; [exact H|].
  apply (generateSlug_contract (str "?! ... --")). exact H.
Defined.

(** C5. Slug generation is deterministic (equal inputs have equal slugs)
    and idempotent: applied to its own output it returns that output
    unchanged.  The slug of [Local News!] is [local-news], the slug of two
    spaces is empty and the slug of the title [Belfast Storm Warning] is
    [belfast-storm-warning]. *)
Theorem generateSlug_idempotent :
  (forall x y, x = y -> generateSlug x = generateSlug y)
  /\ (forall x, generateSlug (generateSlug x) = generateSlug x)
  /\ generateSlug (str "Local News!") = str "local-news"
  /\ generateSlug (str "  ") = str ""
  /\ generateSlug (str "Belfast Storm Warning") = str "belfast-storm-warning".
Proof.
  split; [now intros x y -> |].
  split; [|repeat split].
  intros x. apply isSlug_fixed, generateSlug_isSlug.
Qed.

(** ** Runs of [handleSubmit] over any backend *)

Section Submit.

Context {W : Type} (B : Backend W).

Lemma bind_request {A C : Type} (op : W -> A * W) (record : A -> Call)
    (k : A -> M C) (r : Run W) :
  bind (request op record) k r
  = k (fst (op (world r)))
      {| world := snd (op (world r));
         calls := calls r ++ [record (fst (op (world r)))];
         effects := effects r |}.
Proof. unfold bind, request. now destruct (op (world r)). Qed.

Lemma Ends_cons {A : Type} (c : Call) (cs : list Call) (res : Thrown + A) :
  thrownBy c = None -> Ends cs res -> Ends (c :: cs) res.
Proof.
  intros Hc H. destruct H.
  - constructor. now constructor.
  - rewrite app_comm_cons. constructor; [now constructor | assumption].
Qed.

Lemma Ends_app {A : Type} (cs1 cs2 : list Call) (res : Thrown + A) :
  Forall (fun c => thrownBy c = None) cs1 -> Ends cs2 res ->
  Ends (cs1 ++ cs2) res.
Proof.
  induction 1 as [|c cs1 Hc _ IH]; intros H; [exact H|].
  simpl. apply Ends_cons; auto.
Qed.

Lemma tracks_ret {A : Type} (a : A) : tracks (ret (W := W) a).
Proof.
  intros r. exists []. simpl. rewrite app_nil_r. split; [reflexivity|].
  now constructor.
Qed.

Lemma tracks_effect (e : Effect) : tracks (effect (W := W) e).
Proof.
  intros r. exists []. simpl. rewrite app_nil_r. split; [reflexivity|].
  now constructor.
Qed.

Lemma tracks_bind {A C : Type} (m : M A) (k : A -> M C) :
  tracks m -> (forall a, tracks (k a)) -> tracks (bind (W := W) m k).
Proof.
  intros Hm Hk r. unfold bind.
  destruct (Hm r) as [cs1 [E1 F1]].
  destruct (m r) as [[t|a] r1]; simpl in *.
  - exists cs1. split; [exact E1|]. inversion F1; subst.
    now constructor.
  - destruct (Hk a r1) as [cs2 [E2 F2]].
    exists (cs1 ++ cs2). rewrite E2, E1, app_assoc. split; [reflexivity|].
    inversion F1; subst. now apply Ends_app.
Qed.

(** A request whose answer is not checked. *)
Lemma tracks_unchecked {A : Type} (op : W -> A * W) (record : A -> Call) :
  (forall a, thrownBy (record a) = None) -> tracks (request op record).
Proof.
  intros H r. unfold request. destruct (op (world r)) as [a w'].
  exists [record a]. simpl. split; [reflexivity|].
  constructor. constructor; [apply H | constructor].
Qed.

(** A request whose answer is checked: [if (error) throw error]. *)
Lemma tracks_checked {A C : Type} (op : W -> (Error + A) * W)
    (record : Error + A -> Call) (k : A -> M C) :
  (forall e, thrownBy (record (inl e)) = Some e) ->
  (forall a, thrownBy (record (inr a)) = None) ->
  (forall a, tracks (k a)) ->
  tracks (bind (request op record) (fun answer => bind (orThrow answer) k)).
Proof.
  intros He Ha Hk r. rewrite bind_request.
  destruct (op (world r)) as [[e|a] w']; simpl fst; simpl snd.
  - exists [record (inl e)]. simpl. split; [reflexivity|].
    apply (EndsThrow (A := C) [] (record (inl e)) e); [constructor | apply He].
  - set (r1 := {| world := w'; calls := calls r ++ [record (inr a)];
                  effects := effects r |}).
    change (bind (ret a) k r1) with (k a r1).
    destruct (Hk a r1) as [cs2 [E2 F2]].
    exists (record (inr a) :: cs2). rewrite E2. unfold r1 at 1; simpl.
    rewrite <- app_assoc. split; [reflexivity|].
    apply Ends_cons; [apply Ha | exact F2].
Qed.

Lemma tracks_resolveTag (tagName : jsstring) : tracks (resolveTag B tagName).
Proof.
  unfold resolveTag. intros r. rewrite bind_request.
  destruct (selectTags B (generateSlug tagName) (world r)) as [answer w'].
  simpl fst; simpl snd.
  set (r1 := {| world := w'; calls := _; effects := _ |}).
  destruct (dataOf (maybeSingle answer)) as [existingTag|].
  - exists [SelectTags (generateSlug tagName) answer]. simpl.
    split; [reflexivity|]. constructor. constructor; [reflexivity|constructor].
  - destruct (tracks_checked (insertTag B tagName (generateSlug tagName))
                (InsertTag tagName (generateSlug tagName))
                (fun newTag => ret (t_id newTag))
                (fun e => eq_refl) (fun a => eq_refl)
                (fun a => tracks_ret _) r1) as [cs [E F]].
    exists (SelectTags (generateSlug tagName) answer :: cs).
    rewrite E. unfold r1 at 1; simpl. rewrite <- app_assoc.
    split; [reflexivity|].
    apply Ends_cons; [reflexivity | exact F].
Qed.

Lemma tracks_linkTag (post_id : ID) (tagName : jsstring) :
  tracks (linkTag B post_id tagName).
Proof.
  unfold linkTag. apply tracks_bind; [apply tracks_resolveTag|].
  intros tagId. apply tracks_bind; [|intros; apply tracks_ret].
  apply tracks_unchecked. reflexivity.
Qed.

Lemma tracks_forEach {A : Type} (l : list A) (body : A -> M unit) :
  (forall x, tracks (body x)) -> tracks (forEach (W := W) l body).
Proof.
  intros H. induction l as [|x rest IH]; simpl.
  - apply tracks_ret.
  - apply tracks_bind; [apply H | intros _; exact IH].
Qed.

Lemma tracks_uploadImage (user : User) (now : N) (img : option File) :
  tracks (uploadImage B user now img).
Proof.
  destruct img as [file|]; simpl; [|apply tracks_ret].
  intros r. rewrite bind_request.
  destruct (upload B (fileNameOf user now file) file (world r)) as [[e|] w'];
    simpl fst; simpl snd.
  - exists [Upload (fileNameOf user now file) file (Some e)]. simpl.
    split; [reflexivity|].
    apply (EndsThrow (A := option jsstring) [] _ e); [constructor | reflexivity].
  - exists [Upload (fileNameOf user now file) file None]. simpl.
    split; [reflexivity|].
    constructor. constructor; [reflexivity | constructor].
Qed.

Lemma emits_ret {A : Type} (a : A) : emits (ret (W := W) a) [].
Proof. intros r. simpl. now rewrite app_nil_r. Qed.

Lemma emits_throw {A : Type} (t : Thrown) (es : list Effect) :
  emits (throw (W := W) (A := A) t) es.
Proof. intros r. simpl. now rewrite app_nil_r. Qed.

Lemma emits_orThrow {A : Type} (answer : Error + A) :
  emits (orThrow (W := W) answer) [].
Proof. destruct answer; [apply emits_throw | apply emits_ret]. Qed.

Lemma emits_throwIf (error : option Error) : emits (throwIf (W := W) error) [].
Proof. destruct error; [apply emits_throw | apply emits_ret]. Qed.

Lemma emits_request {A : Type} (op : W -> A * W) (record : A -> Call) :
  emits (request op record) [].
Proof.
  intros r. unfold request. destruct (op (world r)). simpl.
  now rewrite app_nil_r.
Qed.

Lemma emits_effect (e : Effect) : emits (effect (W := W) e) [e].
Proof. intros r. reflexivity. Qed.

(** Effects come last: after a silent computation, the effects of the whole
    are those of what follows. *)
Lemma emits_bind {A C : Type} (m : M A) (k : A -> M C) (es : list Effect) :
  emits m [] -> (forall a, emits (k a) es) -> emits (bind (W := W) m k) es.
Proof.
  intros Hm Hk r. unfold bind. specialize (Hm r).
  destruct (m r) as [[t|a] r1]; simpl in *.
  - exact Hm.
  - rewrite (Hk a r1), Hm, app_nil_r. reflexivity.
Qed.

Lemma emits_two (e1 e2 : Effect) :
  emits (bind (effect (W := W) e1) (fun _ => effect e2)) [e1; e2].
Proof. intros r. simpl. now rewrite <- app_assoc. Qed.

Lemma emits_resolveTag (tagName : jsstring) : emits (resolveTag B tagName) [].
Proof.
  unfold resolveTag. apply emits_bind; [apply emits_request|].
  intros answer. destruct (dataOf (maybeSingle answer)); [apply emits_ret|].
  apply emits_bind; [apply emits_request|]. intros created.
  apply emits_bind; [apply emits_orThrow|]. intros; apply emits_ret.
Qed.

Lemma emits_linkTag (post_id : ID) (tagName : jsstring) :
  emits (linkTag B post_id tagName) [].
Proof.
  unfold linkTag. apply emits_bind; [apply emits_resolveTag|]. intros tagId.
  apply emits_bind; [apply emits_request|]. intros; apply emits_ret.
Qed.

Lemma emits_forEach {A : Type} (l : list A) (body : A -> M unit) :
  (forall x, emits (body x) []) -> emits (forEach (W := W) l body) [].
Proof.
  intros H. induction l as [|x rest IH]; simpl.
  - apply emits_ret.
  - apply emits_bind; [apply H | intros _; exact IH].
Qed.

Lemma emits_uploadImage (user : User) (now : N) (img : option File) :
  emits (uploadImage B user now img) [].
Proof.
  destruct img as [file|]; simpl; [|apply emits_ret].
  apply emits_bind; [apply emits_request|]. intros uploadError.
  apply emits_bind; [apply emits_throwIf|]. intros; apply emits_ret.
Qed.

(** The [try] block from the post insert on: its calls end as [Ends] says,
    and the success toast and the navigation are its only effects. *)
Lemma tracks_insertAndTag (user : User) (v : ValidationData)
    (imageUrl : option jsstring) :
  tracks (insertAndTag B user v imageUrl).
Proof.
  unfold insertAndTag. cbv zeta.
  apply tracks_checked; try reflexivity. intros postData.
  apply tracks_bind.
  - destruct (truthy (v_tags v)); [|apply tracks_ret].
    apply tracks_forEach. intros; apply tracks_linkTag.
  - intros _. apply tracks_bind; [apply tracks_effect|].
    intros; apply tracks_effect.
Qed.

Lemma emits_insertAndTag (user : User) (v : ValidationData)
    (imageUrl : option jsstring) :
  emits (insertAndTag B user v imageUrl)
    [ToastSuccess (str "Post created successfully!");
     Navigate (str "/posts/" ++ generateSlug (v_title v))].
Proof.
  unfold insertAndTag. cbv zeta.
  apply emits_bind; [apply emits_request|]. intros inserted.
  apply emits_bind; [apply emits_orThrow|]. intros postData.
  apply emits_bind.
  - destruct (truthy (v_tags v)); [|apply emits_ret].
    apply emits_forEach. intros; apply emits_linkTag.
  - intros _. apply emits_two.
Qed.

Lemma submitBody_valid (user : User) (now : N) (f : Form) (v : ValidationData) :
  postSchema_parse f = inr v ->
  tracks (submitBody B user now f)
  /\ emits (submitBody B user now f)
       [ToastSuccess (str "Post created successfully!");
        Navigate (str "/posts/" ++ generateSlug (v_title v))].
Proof.
  intros P. unfold submitBody. rewrite P. split.
  - apply tracks_bind; [apply tracks_uploadImage|].
    intros; apply tracks_insertAndTag.
  - apply emits_bind; [apply emits_uploadImage|].
    intros; apply emits_insertAndTag.
Qed.

Lemma submitBody_invalid (user : User) (now : N) (f : Form)
    (m : jsstring) (ms : list jsstring) (r : Run W) :
  issuesOf f = m :: ms ->
  submitBody B user now f r = (inl (ZodError m ms), r).
Proof.
  intros I. unfold submitBody, postSchema_parse. now rewrite I.
Qed.

Lemma parse_valid (f : Form) :
  issuesOf f = [] ->
  postSchema_parse f
  = inr {| v_title := trim (title f); v_content := trim (content f);
           v_excerpt := trim (excerpt f); v_tags := trim (tags f) |}.
Proof. intros I. unfold postSchema_parse. now rewrite I. Qed.

End Submit.

(** ** Validation *)

Lemma minIssue_nil (lo : N) (msg : string) (s : jsstring) :
  minIssue lo msg s = [] <-> (lo <= len s)%N.
Proof.
  unfold minIssue. destruct (N.ltb_spec (len s) lo); split; intros;
    try reflexivity; try discriminate; lia.
Qed.

Lemma maxIssue_nil (hi : N) (msg : string) (s : jsstring) :
  maxIssue hi msg s = [] <-> (len s <= hi)%N.
Proof.
  unfold maxIssue. destruct (N.ltb_spec hi (len s)); split; intros;
    try reflexivity; try discriminate; lia.
Qed.

Lemma app_nil_both {A : Type} (l l' : list A) :
  l ++ l' = [] <-> l = [] /\ l' = [].
Proof.
  split; [apply app_eq_nil | intros [-> ->]; reflexivity].
Qed.

Lemma validForm_issues (f : Form) : validForm f = true <-> issuesOf f = [].
Proof.
  unfold validForm, issuesOf, titleIssues, contentIssues, excerptIssues,
    tagsIssues.
  rewrite !andb_true_iff, !N.leb_le, !app_nil_both,
    !minIssue_nil, !maxIssue_nil.
  tauto.
Qed.

Lemma invalid_issues (f : Form) :
  validForm f = false -> exists m ms, issuesOf f = m :: ms.
Proof.
  intros H. destruct (issuesOf f) as [|m ms] eqn:I; [|eauto].
  apply validForm_issues in I. congruence.
Qed.

(** ** Where a run of [handleSubmit] ends *)

Lemma last_checked_call (cs0 pre post : list Call) (c c' : Call) (e' : Error) :
  Forall (fun c => thrownBy c = None) cs0 ->
  cs0 ++ [c] = pre ++ c' :: post -> thrownBy c' = Some e' ->
  pre = cs0 /\ c' = c /\ post = [].
Proof.
  intros H; revert pre; induction H as [|x cs0 Hx _ IH]; intros pre E T.
  - destruct pre as [|y pre]; simpl in E.
    + injection E as -> <-. auto.
    + injection E as _ E. destruct pre; discriminate E.
  - destruct pre as [|y pre]; simpl in E.
    + injection E as -> _. congruence.
    + injection E as -> E. destruct (IH pre E T) as [-> [-> ->]]. auto.
Qed.

Section Creation.

Context {W : Type} (B : Backend W).

(** A valid form either goes through all its calls and succeeds, or stops
    at the first call whose checked answer is an error. *)
Lemma handleSubmit_valid (w : W) (u : User) (now : N) (f : Form) :
  validForm f = true ->
  let r := handleSubmit B (Some u) now f (start w) in
  (Forall (fun c => thrownBy c = None) (calls r) /\ effects r = successEffects f)
  \/ (exists cs0 c e,
        calls r = cs0 ++ [c]
        /\ Forall (fun c => thrownBy c = None) cs0
        /\ thrownBy c = Some e
        /\ effects r = failureEffects e).
Proof.
  intros V. apply validForm_issues, parse_valid in V.
  destruct (submitBody_valid B u now f _ V) as [T Em].
  unfold handleSubmit, tryCatchFinally. cbv zeta.
  set (r0 := snd (effect (SetLoading true) (start w))).
  destruct (T r0) as [cs [E F]]. specialize (Em r0).
  destruct (submitBody B u now f r0) as [[t|[]] r']; simpl in E, F, Em |- *.
  - right. rewrite <- E in F.
    inversion F as [|cs0 c e N0 Tc Ecs]; subst. exists cs0, c, e.
    simpl. rewrite Em. unfold failureEffects. auto.
  - left. rewrite <- E in F. inversion F; subst. rewrite Em. auto.
Qed.

Lemma handleSubmit_invalid (w : W) (user : option User) (now : N) (f : Form)
    (m : jsstring) (ms : list jsstring) :
  issuesOf f = m :: ms ->
  handleSubmit B user now f (start w)
  = {| world := w; calls := [];
       effects := match user with
                  | Some _ => [SetLoading true; ToastError m; SetLoading false]
                  | None => []
                  end |}.
Proof.
  intros I. destruct user as [u|]; [|reflexivity].
  unfold handleSubmit, tryCatchFinally. cbv zeta.
  rewrite (submitBody_invalid B u now f m ms _ I). reflexivity.
Qed.

End Creation.

(** ** What the calls of [handleSubmit] carry *)

Section Sending.

Context {W : Type} (B : Backend W).

Variable P : Call -> Prop.
Hypothesis others : forall c, isInsertPost c = false -> P c.

Lemma sends_ret {A : Type} (a : A) : sends P (ret (W := W) a).
Proof. intros r. exists []. simpl. now rewrite app_nil_r. Qed.

Lemma sends_throw {A : Type} (t : Thrown) : sends P (throw (W := W) (A := A) t).
Proof. intros r. exists []. simpl. now rewrite app_nil_r. Qed.

Lemma sends_effect (e : Effect) : sends P (effect (W := W) e).
Proof. intros r. exists []. simpl. now rewrite app_nil_r. Qed.

Lemma sends_request {A : Type} (op : W -> A * W) (record : A -> Call) :
  (forall a, P (record a)) -> sends P (request op record).
Proof.
  intros H r. unfold request. destruct (op (world r)) as [a w'].
  exists [record a]. simpl. auto.
Qed.

Lemma sends_bind {A C : Type} (m : M A) (k : A -> M C) :
  sends P m -> (forall a, sends P (k a)) -> sends P (bind (W := W) m k).
Proof.
  intros Hm Hk r. unfold bind. destruct (Hm r) as [cs1 [E1 F1]].
  destruct (m r) as [[t|a] r1]; simpl in *; [now exists cs1|].
  destruct (Hk a r1) as [cs2 [E2 F2]]. exists (cs1 ++ cs2).
  rewrite E2, E1, app_assoc. split; [reflexivity | now apply Forall_app].
Qed.

Lemma sends_forEach {A : Type} (l : list A) (body : A -> M unit) :
  (forall x, sends P (body x)) -> sends P (forEach (W := W) l body).
Proof.
  intros H. induction l as [|x rest IH]; simpl; [apply sends_ret|].
  apply sends_bind; [apply H | intros _; exact IH].
Qed.

Lemma sends_linkTag (post_id : ID) (tagName : jsstring) :
  sends P (linkTag B post_id tagName).
Proof.
  unfold linkTag, resolveTag.
  apply sends_bind; [|intros tagId; apply sends_bind;
                       [apply sends_request; intros; now apply others
                       |intros; apply sends_ret]].
  apply sends_bind; [apply sends_request; intros; now apply others|].
  intros answer. destruct (dataOf (maybeSingle answer)); [apply sends_ret|].
  apply sends_bind; [apply sends_request; intros; now apply others|].
  intros [e|t]; simpl; [apply sends_throw|].
  apply sends_bind; intros; apply sends_ret.
Qed.

Lemma sends_uploadImage (user : User) (now : N) (img : option File) :
  sends P (uploadImage B user now img).
Proof.
  destruct img as [file|]; simpl; [|apply sends_ret].
  apply sends_bind; [apply sends_request; intros; now apply others|].
  intros [e|]; simpl; apply sends_bind;
    try apply sends_throw; try apply sends_ret; intros; apply sends_ret.
Qed.

Lemma sends_afterInsert (v : ValidationData) (postData : Error + PostRow) :
  sends P
    (bind (orThrow postData) (fun postData =>
     bind (if truthy (v_tags v)
           then forEach (tagNamesOf (v_tags v)) (linkTag B (p_id postData))
           else ret tt) (fun _ =>
     bind (effect (ToastSuccess (str "Post created successfully!"))) (fun _ =>
     effect (Navigate (str "/posts/" ++ generateSlug (v_title v))))))).
Proof.
  apply sends_bind; [destruct postData; [apply sends_throw | apply sends_ret]|].
  intros row. apply sends_bind.
  - destruct (truthy (v_tags v)); [|apply sends_ret].
    apply sends_forEach. intros; apply sends_linkTag.
  - intros _. apply sends_bind; intros; apply sends_effect.
Qed.

Lemma sends_insertAndTag (user : User) (v : ValidationData)
    (imageUrl : option jsstring) :
  (forall np answer,
      np_content np = v_content v -> np_excerpt np = postExcerptOf v ->
      P (InsertPost np answer)) ->
  sends P (insertAndTag B user v imageUrl).
Proof.
  intros H. unfold insertAndTag. cbv zeta.
  apply sends_bind; [|intros; apply sends_afterInsert].
  apply sends_request. intros answer. now apply H.
Qed.

End Sending.

(** ** Post creation: claims C1, C2, C7 and C10 *)

Section CreationClaims.

Context {W : Type} (B : Backend W).

Lemma checked_failure_is_last (w : W) (u : User) (now : N) (f : Form)
    (pre post : list Call) (c : Call) (e : Error) :
  calls (handleSubmit B (Some u) now f (start w)) = pre ++ c :: post ->
  thrownBy c = Some e ->
  post = []
  /\ Forall (fun c => thrownBy c = None) pre
  /\ effects (handleSubmit B (Some u) now f (start w)) = failureEffects e.
Proof.
  intros E T. destruct (validForm f) eqn:V.
  - destruct (handleSubmit_valid B w u now f V) as [[N0 _]|[cs0 [c0 [e0 H]]]].
    + rewrite E in N0. apply Forall_app in N0 as [_ N0].
      inversion N0; subst. congruence.
    + destruct H as [E0 [N0 [T0 Ef]]]. rewrite E0 in E.
      destruct (last_checked_call _ _ _ _ _ _ N0 E T) as [-> [-> ->]].
      rewrite Ef. split; [reflexivity|]. split; [exact N0|]. congruence.
  - destruct (invalid_issues f V) as [m [ms I]].
    rewrite (handleSubmit_invalid B w (Some u) now f m ms I) in E.
    destruct pre; discriminate E.
Qed.

(** C1. During post creation a failed insert of a new tag row, as when the
    slug is already taken, ends the whole operation with an error: the
    failed insert is the last call, so no further tag is looked up or
    created and no further link is inserted, the tag is not queried again,
    and the page ends in the failed state: the error on the console, the
    error toast, no success toast and no navigation. *)
Theorem tag_insert_failure_aborts (w : W) (u : User) (now : N) (f : Form)
    (pre post : list Call) (name slug : jsstring) (e : Error) :
  calls (handleSubmit B (Some u) now f (start w))
  = pre ++ InsertTag name slug (inl e) :: post ->
  post = []
  /\ effects (handleSubmit B (Some u) now f (start w))
     = [SetLoading true;
        ConsoleError (str "Error creating post:") (BackendError e);
        ToastError (str "Failed to create post");
        SetLoading false].
Proof.
  intros E.
  destruct (checked_failure_is_last w u now f pre post _ e E eq_refl)
    as [P [_ F]].
  split; [exact P | exact F].
Qed.

(** C2, amended. For the image upload, the post insert and the insert of a
    new tag, an error answered by the backend ends the run at once: no call
    follows the failed one (no later step, no retry, no undoing of the
    steps done), no earlier call had failed, the error object is written to
    the console and the caller is shown the fixed text
    [Failed to create post]. *)
Theorem checked_failure_aborts (w : W) (u : User) (now : N) (f : Form)
    (pre post : list Call) (c : Call) (e : Error) :
  calls (handleSubmit B (Some u) now f (start w)) = pre ++ c :: post ->
  thrownBy c = Some e ->
  post = []
  /\ Forall (fun c => thrownBy c = None) pre
  /\ effects (handleSubmit B (Some u) now f (start w))
     = [SetLoading true;
        ConsoleError (str "Error creating post:") (BackendError e);
        ToastError (str "Failed to create post");
        SetLoading false].
Proof.
  intros E T.
  destruct (checked_failure_is_last w u now f pre post c e E T) as [P [N0 F]].
  split; [exact P|]. split; [exact N0 | exact F].
Qed.

(** C7. A submission whose fields break the constraints of [postSchema]
    sends no request at all (no upload, no post insert, no tag query or
    insert, no link insert) and leaves the backend as it was; for a
    signed-in user the page shows the message of the first broken
    constraint as an error toast. *)
Theorem invalid_form_sends_nothing (w : W) (user : option User) (now : N)
    (f : Form) :
  validForm f = false ->
  exists first others,
    issuesOf f = first :: others
    /\ calls (handleSubmit B user now f (start w)) = []
    /\ world (handleSubmit B user now f (start w)) = w
    /\ effects (handleSubmit B user now f (start w))
       = match user with
         | Some _ => [SetLoading true; ToastError first; SetLoading false]
         | None => []
         end.
Proof.
  intros V. destruct (invalid_issues f V) as [m [ms I]].
  exists m, ms. rewrite (handleSubmit_invalid B w user now f m ms I). auto.
Qed.

Lemma handleSubmit_calls (u : User) (now : N) (f : Form) (r : Run W) :
  calls (handleSubmit B (Some u) now f r)
  = calls (snd (submitBody B u now f (snd (effect (SetLoading true) r)))).
Proof.
  unfold handleSubmit, tryCatchFinally. cbv zeta.
  destruct (submitBody B u now f (snd (effect (SetLoading true) r)))
    as [[[m ms|e]|[]] r']; reflexivity.
Qed.

Lemma insertAndTag_inserts (u : User) (v : ValidationData)
    (imageUrl : option jsstring) (r : Run W) :
  exists np answer cs,
    calls (snd (insertAndTag B u v imageUrl r))
    = calls r ++ InsertPost np answer :: cs.
Proof.
  unfold insertAndTag. cbv zeta. rewrite bind_request.
  match goal with
  | |- context [snd (bind (orThrow ?a) ?k ?r1)] =>
      destruct (sends_afterInsert B (fun _ => True) (fun _ _ => I) v a r1)
        as [cs [E _]]
  end.
  rewrite E. simpl. rewrite <- app_assoc. do 3 eexists. reflexivity.
Qed.

(** C10. When validation succeeds, the post that is inserted carries the
    trimmed content, and its excerpt is the first 200 code units of that
    content when the excerpt field is empty after trimming, and the trimmed
    excerpt itself otherwise.  The insert is sent unless the upload of an
    image failed. *)
Theorem inserted_excerpt (w : W) (u : User) (now : N) (f : Form) :
  validForm f = true ->
  (forall np answer,
      In (InsertPost np answer) (calls (handleSubmit B (Some u) now f (start w))) ->
      np_content np = trim (content f)
      /\ np_excerpt np = match trim (excerpt f) with
                         | [] => substring0 200 (np_content np)
                         | given => given
                         end)
  /\ ((exists path file e,
          In (Upload path file (Some e))
             (calls (handleSubmit B (Some u) now f (start w))))
      \/ (exists np answer,
             In (InsertPost np answer)
                (calls (handleSubmit B (Some u) now f (start w))))).
Proof.
  intros V. apply validForm_issues, parse_valid in V.
  rewrite handleSubmit_calls. unfold submitBody. rewrite V.
  set (v := {| v_title := _; v_content := _; v_excerpt := _; v_tags := _ |}).
  set (r0 := snd (effect (SetLoading true) (start w))).
  split.
  - set (P := insertsPost (v_content v) (postExcerptOf v)).
    assert (O : forall c, isInsertPost c = false -> P c).
    { intros [] H; try exact I. discriminate H. }
    destruct (sends_bind P (uploadImage B u now (image f))
                (fun imageUrl => insertAndTag B u v imageUrl)
                (sends_uploadImage B P O u now (image f))
                (fun img => sends_insertAndTag B P O u v img
                              (fun np a Hc He => conj Hc He)) r0)
      as [cs [E F]].
    rewrite E. simpl. intros np answer Hin.
    rewrite Forall_forall in F. destruct (F _ Hin) as [Hc He].
    split; [exact Hc|]. rewrite He, Hc. unfold postExcerptOf. simpl.
    destruct (trim (excerpt f)); reflexivity.
  - match goal with
    | |- context [calls ?x] => remember (calls x) as cs eqn:Ecs
    end.
    destruct (image f) as [file|]; simpl uploadImage in Ecs.
    + unfold bind at 1 in Ecs. rewrite bind_request in Ecs.
      destruct (upload B (fileNameOf u now file) file (world r0))
        as [[e|] w']; simpl in Ecs.
      * left. exists (fileNameOf u now file), file, e. subst cs. now left.
      * right. match type of Ecs with
               | context [insertAndTag B u v ?img ?r1] =>
                   destruct (insertAndTag_inserts u v img r1)
                     as [np [answer [cs' E]]]
               end.
        exists np, answer. subst cs. rewrite E. apply in_or_app. right. now left.
    + right. unfold bind, ret in Ecs.
      destruct (insertAndTag_inserts u v None r0) as [np [answer [cs' E]]].
      exists np, answer. subst cs. rewrite E. apply in_or_app. right. now left.
Qed.

End CreationClaims.

(** *** The claims at sample submissions *)

Lemma tag_insert_failure_aborts_race :
  calls raceRun
  = firstn 2 (calls raceRun)
    ++ [InsertTag (str "news") (str "news")
          (inl (Mem.uniqueViolation "tags_slug_key"))]
  /\ effects raceRun = failureEffects (Mem.uniqueViolation "tags_slug_key").
Proof.
  assert (H : calls raceRun
              = firstn 2 (calls raceRun)
                ++ [InsertTag (str "news") (str "news")
                      (inl (Mem.uniqueViolation "tags_slug_key"))])
    by (vm_compute; reflexivity).
  split; [exact H|].
  exact (proj2 (tag_insert_failure_aborts Mem.backend raceWorld alice
                  submittedAt (stormPost "news" None)
                  (firstn 2 (calls raceRun)) [] (str "news") (str "news")
                  (Mem.uniqueViolation "tags_slug_key") H)).
Defined.

Lemma checked_failure_aborts_offline :
  calls offlineRun
  = [Upload (fileNameOf alice submittedAt photo) photo (Some fetchFailed)]
  /\ effects offlineRun = failureEffects fetchFailed.
Proof.
  assert (H : calls offlineRun
              = [] ++ [Upload (fileNameOf alice submittedAt photo) photo
                         (Some fetchFailed)])
    by (vm_compute; reflexivity).
  split; [exact H|].
  exact (proj2 (proj2 (checked_failure_aborts Mem.backend offlineWorld alice
                  submittedAt (stormPost "news" (Some photo))
                  [] []
                  (Upload (fileNameOf alice submittedAt photo) photo
                          (Some fetchFailed))
                  fetchFailed H eq_refl))).
Defined.

(** C2 as stated fails: naming a tag twice makes the second link insert
    fail on the unique pair, and yet the run goes on to the next tag and
    ends with the success toast. *)
Lemma link_failure_not_surfaced : ~ surfacesEveryFailure twiceRun.
Proof.
  intros H.
  destruct (H (firstn 5 (calls twiceRun))
              (InsertPostTag 1%N 2%N (Some (Mem.uniqueViolation "post_tags_pkey")))
              (skipn 6 (calls twiceRun))
              (Mem.uniqueViolation "post_tags_pkey"))
    as [Hpost _].
  - vm_compute. reflexivity.
  - reflexivity.
  - vm_compute in Hpost. discriminate Hpost.
Qed.

(** The toast of a failed run is the fixed text, not the message of the
    error. *)
Example failure_toast_is_fixed :
  In (ToastError (str "Failed to create post")) (effects offlineRun)
  /\ ~ In (ToastError (message fetchFailed)) (effects offlineRun).
Proof.
  split; vm_compute; [tauto|].
  intros H. repeat (destruct H as [H|H]; [discriminate H|]). exact H.
Qed.

Lemma invalid_form_sends_nothing_untitled :
  validForm untitled = false
  /\ exists first others,
    issuesOf untitled = first :: others
    /\ calls (handleSubmit Mem.backend (Some alice) submittedAt untitled
                (start (Mem.quiet Mem.empty))) = []
    /\ world (handleSubmit Mem.backend (Some alice) submittedAt untitled
                (start (Mem.quiet Mem.empty))) = Mem.quiet Mem.empty
    /\ effects (handleSubmit Mem.backend (Some alice) submittedAt untitled
                  (start (Mem.quiet Mem.empty)))
       = [SetLoading true; ToastError first; SetLoading false].
Proof.
  split; [reflexivity|].
  apply (invalid_form_sends_nothing Mem.backend (Mem.quiet Mem.empty)
           (Some alice) submittedAt untitled).
  reflexivity.
Defined.

Example untitled_message :
  issuesOf untitled = [str "Title is required"].
Proof. reflexivity. Qed.

Example long_tags_message :
  issuesOf {| title := str "Storm"; content := str "Body"; excerpt := str "";
              tags := repeat "a"%char 201; image := None |}
  = [str "Tags must be less than 200 characters"].
Proof. reflexivity. Qed.

Lemma inserted_excerpt_storm :
  validForm (stormPost "news, news, sport" None) = true
  /\ forall np answer,
    In (InsertPost np answer) (calls twiceRun) ->
    np_content np = str "Gales are expected along the coast tonight."
    /\ np_excerpt np = substring0 200 (np_content np).
Proof.
  split; [reflexivity|].
  apply (inserted_excerpt Mem.backend (Mem.quiet Mem.empty) alice submittedAt
           (stormPost "news, news, sport" None)).
  reflexivity.
Defined.

(** ** The in-memory backend keeps its constraints *)

Lemma eqs_eq (a b : jsstring) : eqs a b = true <-> a = b.
Proof.
  revert b; induction a as [|x a IH]; intros [|y b]; simpl;
    try (split; [discriminate | discriminate]); [tauto|].
  rewrite andb_true_iff, Ascii.eqb_eq, IH. split.
  - intros [-> ->]. reflexivity.
  - intros E. injection E as -> ->. auto.
Qed.

Lemma eqs_refl (a : jsstring) : eqs a a = true.
Proof. now apply eqs_eq. Qed.

Lemma sameLink_eq (a b : Link) : Mem.sameLink a b = true <-> a = b.
Proof.
  destruct a as [p t], b as [p' t']. unfold Mem.sameLink. simpl.
  rewrite andb_true_iff, !N.eqb_eq. split.
  - intros [-> ->]. reflexivity.
  - intros E. injection E as -> ->. auto.
Qed.

Lemma NoDup_snoc {A : Type} (l : list A) (x : A) :
  NoDup l -> ~ In x l -> NoDup (l ++ [x]).
Proof.
  intros Hl Hx. apply NoDup_app; [exact Hl | repeat constructor; auto |].
  intros a Ha [<-|[]]. contradiction.
Qed.

Lemma existsb_false_not_In {A B : Type} (g : A -> B) (eqb : B -> B -> bool)
    (l : list A) (b : B) :
  (forall x y, eqb x y = true <-> x = y) ->
  existsb (fun a => eqb (g a) b) l = false -> ~ In b (map g l).
Proof.
  intros Heq Hex Hin. apply in_map_iff in Hin as [a [<- Ha]].
  assert (T : existsb (fun a0 => eqb (g a0) (g a)) l = true).
  { apply existsb_exists. exists a. split; [exact Ha | now apply Heq]. }
  congruence.
Qed.

Lemma insertTag_constrained (name slug : jsstring) (d : Mem.DB) :
  Mem.constrained d -> Mem.constrained (snd (Mem.db_insertTag name slug d)).
Proof.
  intros [Hs Hl]. unfold Mem.db_insertTag.
  destruct (existsb (fun t => eqs (t_name t) name) (Mem.tags d));
    [split; assumption|].
  destruct (existsb (fun t => eqs (t_slug t) slug) (Mem.tags d)) eqn:E;
    [split; assumption|].
  split; simpl; [|exact Hl].
  rewrite map_app. simpl. apply NoDup_snoc; [exact Hs|].
  eapply existsb_false_not_In; [exact eqs_eq | exact E].
Qed.

Lemma insertPostTag_constrained (p t : ID) (d : Mem.DB) :
  Mem.constrained d -> Mem.constrained (snd (Mem.db_insertPostTag p t d)).
Proof.
  intros [Hs Hl]. unfold Mem.db_insertPostTag.
  destruct (negb (existsb (fun x => (p_id x =? p)%N) (Mem.posts d)));
    [split; assumption|].
  destruct (negb (existsb (fun x => (t_id x =? t)%N) (Mem.tags d)));
    [split; assumption|].
  destruct (existsb (Mem.sameLink {| l_post := p; l_tag := t |})
              (Mem.post_tags d)) eqn:E; [split; assumption|].
  split; simpl; [exact Hs|]. apply NoDup_snoc; [exact Hl|].
  intros Hin.
  assert (T : existsb (Mem.sameLink {| l_post := p; l_tag := t |})
                (Mem.post_tags d) = true).
  { apply existsb_exists. eexists. split; [exact Hin | now apply sameLink_eq]. }
  congruence.
Qed.

Lemma insertPost_constrained (np : NewPost) (d : Mem.DB) :
  Mem.constrained d -> Mem.constrained (snd (Mem.db_insertPost np d)).
Proof.
  intros H. unfold Mem.db_insertPost.
  destruct (existsb _ (Mem.posts d)); exact H.
Qed.

Lemma upload_constrained (path : jsstring) (d : Mem.DB) :
  Mem.constrained d -> Mem.constrained (snd (Mem.db_upload path d)).
Proof.
  intros H. unfold Mem.db_upload. destruct (existsb _ (Mem.objects d)); exact H.
Qed.

Lemma arrive_constrained (w : Mem.World) :
  Mem.constrained (Mem.db w) ->
  Mem.constrained (Mem.db (snd (Mem.arrive w))).
Proof.
  intros H. unfold Mem.arrive. destruct (Mem.pending w) as [|[|e|name] rest];
    simpl; try exact H.
  now apply insertTag_constrained.
Qed.

Lemma serve_constrained {A : Type} (op : Mem.DB -> (Error + A) * Mem.DB)
    (w : Mem.World) :
  (forall d, Mem.constrained d -> Mem.constrained (snd (op d))) ->
  Mem.constrained (Mem.db w) ->
  Mem.constrained (Mem.db (snd (Mem.serve op w))).
Proof.
  intros Hop H. unfold Mem.serve. pose proof (arrive_constrained w H) as Ha.
  destruct (Mem.arrive w) as [[e|] w']; simpl in *; [exact Ha|].
  specialize (Hop _ Ha). destruct (op (Mem.db w')). exact Hop.
Qed.

Lemma serveVoid_constrained (op : Mem.DB -> option Error * Mem.DB)
    (w : Mem.World) :
  (forall d, Mem.constrained d -> Mem.constrained (snd (op d))) ->
  Mem.constrained (Mem.db w) ->
  Mem.constrained (Mem.db (snd (Mem.serveVoid op w))).
Proof.
  intros Hop H. unfold Mem.serveVoid. pose proof (arrive_constrained w H) as Ha.
  destruct (Mem.arrive w) as [[e|] w']; simpl in *; [exact Ha|].
  specialize (Hop _ Ha). destruct (op (Mem.db w')). exact Hop.
Qed.

Section Keeping.

Lemma keeps_ret {A : Type} (a : A) : keeps (ret (W := Mem.World) a).
Proof. intros r H. exact H. Qed.

Lemma keeps_throw {A : Type} (t : Thrown) :
  keeps (throw (W := Mem.World) (A := A) t).
Proof. intros r H. exact H. Qed.

Lemma keeps_effect (e : Effect) : keeps (effect (W := Mem.World) e).
Proof. intros r H. exact H. Qed.

Lemma keeps_bind {A C : Type} (m : @M Mem.World A) (k : A -> @M Mem.World C) :
  keeps m -> (forall a, keeps (k a)) -> keeps (bind m k).
Proof.
  intros Hm Hk r H. unfold bind. specialize (Hm r H).
  destruct (m r) as [[t|a] r1]; simpl in *; [exact Hm|].
  exact (Hk a r1 Hm).
Qed.

Lemma keeps_request {A : Type} (op : Mem.World -> A * Mem.World)
    (record : A -> Call) :
  (forall w, Mem.constrained (Mem.db w) -> Mem.constrained (Mem.db (snd (op w)))) ->
  keeps (request op record).
Proof.
  intros Hop r H. unfold request. specialize (Hop _ H).
  destruct (op (world r)). exact Hop.
Qed.

Lemma keeps_forEach {A : Type} (l : list A) (body : A -> @M Mem.World unit) :
  (forall x, keeps (body x)) -> keeps (forEach l body).
Proof.
  intros H. induction l as [|x rest IH]; simpl; [apply keeps_ret|].
  apply keeps_bind; [apply H | intros _; exact IH].
Qed.

Lemma keeps_linkTag (post_id : ID) (tagName : jsstring) :
  keeps (linkTag Mem.backend post_id tagName).
Proof.
  unfold linkTag, resolveTag. apply keeps_bind.
  - apply keeps_bind.
    + apply keeps_request. intros w. now apply serve_constrained.
    + intros answer. destruct (dataOf (maybeSingle answer)); [apply keeps_ret|].
      apply keeps_bind.
      * apply keeps_request. intros w. apply serve_constrained.
        apply insertTag_constrained.
      * intros [e|t]; simpl; [apply keeps_throw|].
        apply keeps_bind; intros; apply keeps_ret.
  - intros tagId. apply keeps_bind; [|intros; apply keeps_ret].
    apply keeps_request. intros w. apply serveVoid_constrained.
    apply insertPostTag_constrained.
Qed.

Lemma keeps_orThrow {A : Type} (answer : Error + A) :
  keeps (orThrow (W := Mem.World) answer).
Proof. destruct answer; [apply keeps_throw | apply keeps_ret]. Qed.

Lemma keeps_submitBody (u : User) (now : N) (f : Form) :
  keeps (submitBody Mem.backend u now f).
Proof.
  unfold submitBody. destruct (postSchema_parse f) as [z|v]; [apply keeps_throw|].
  apply keeps_bind.
  - destruct (image f) as [file|]; simpl; [|apply keeps_ret].
    apply keeps_bind.
    + apply keeps_request. intros w. apply serveVoid_constrained.
      apply upload_constrained.
    + intros uploadError. apply keeps_bind; [|intros; apply keeps_ret].
      destruct uploadError; [apply keeps_throw | apply keeps_ret].
  - intros imageUrl. unfold insertAndTag. cbv zeta. apply keeps_bind.
    + apply keeps_request. intros w. apply serve_constrained.
      apply insertPost_constrained.
    + intros inserted. apply keeps_bind; [apply keeps_orThrow|].
      intros postData. apply keeps_bind.
      * destruct (truthy (v_tags v)); [|apply keeps_ret].
        apply keeps_forEach. intros; apply keeps_linkTag.
      * intros _. apply keeps_bind; intros; apply keeps_effect.
Qed.

Lemma handleSubmit_world {W : Type} (B : Backend W) (u : User) (now : N)
    (f : Form) (r : Run W) :
  world (handleSubmit B (Some u) now f r)
  = world (snd (submitBody B u now f (snd (effect (SetLoading true) r)))).
Proof.
  unfold handleSubmit, tryCatchFinally. cbv zeta.
  destruct (submitBody B u now f (snd (effect (SetLoading true) r)))
    as [[[m ms|e]|[]] r']; reflexivity.
Qed.

Lemma handleSubmit_constrained (w : Mem.World) (user : option User) (now : N)
    (f : Form) :
  Mem.constrained (Mem.db w) ->
  Mem.constrained
    (Mem.db (world (handleSubmit Mem.backend user now f (start w)))).
Proof.
  intros H. destruct user as [u|]; [|exact H].
  rewrite handleSubmit_world. now apply keeps_submitBody.
Qed.

End Keeping.

(** Under the constraints a post has at most one link to the tag of a
    slug. *)

Lemma NoDup_all_equal {A : Type} (l : list A) :
  NoDup l -> (forall a b, In a l -> In b l -> a = b) -> List.length l <= 1.
Proof.
  intros N E. destruct l as [|a [|b l]]; simpl; try lia.
  exfalso. inversion N as [|? ? Ha _]; subst. apply Ha.
  rewrite (E a b); simpl; auto.
Qed.

Lemma NoDup_map_inj {A C : Type} (g : A -> C) (l : list A) (a b : A) :
  NoDup (map g l) -> In a l -> In b l -> g a = g b -> a = b.
Proof.
  induction l as [|x l IH]; simpl; [tauto|].
  intros N Ha Hb E. inversion N as [|? ? Hx Nl]; subst.
  destruct Ha as [->|Ha], Hb as [->|Hb]; auto.
  - exfalso. apply Hx. rewrite E. now apply in_map.
  - exfalso. apply Hx. rewrite <- E. now apply in_map.
Qed.

Lemma constrained_linksTo (d : Mem.DB) (post_id : ID) (slug : jsstring) :
  Mem.constrained d -> List.length (Mem.linksTo d post_id slug) <= 1.
Proof.
  intros [Hs Hl]. unfold Mem.linksTo.
  apply NoDup_all_equal; [now apply NoDup_filter|].
  intros [p1 t1] [p2 t2] Ha Hb.
  apply filter_In in Ha as [_ Ha]. apply filter_In in Hb as [_ Hb].
  simpl in Ha, Hb.
  apply andb_prop in Ha as [Pa Ta]. apply andb_prop in Hb as [Pb Tb].
  apply N.eqb_eq in Pa, Pb. subst p1 p2.
  apply existsb_exists in Ta as [x [Hx Ex]].
  apply existsb_exists in Tb as [y [Hy Ey]].
  apply andb_prop in Ex as [Ix Sx]. apply andb_prop in Ey as [Iy Sy].
  apply N.eqb_eq in Ix, Iy. apply eqs_eq in Sx, Sy.
  assert (x = y) by (eapply NoDup_map_inj; eauto; congruence).
  congruence.
Qed.

(** ** The tag names of the raw field *)

Section Splitting.

Variable sep : ascii.
Hypothesis sep_not_space : isSpace sep = false.

Lemma split_not_nil (s : jsstring) : split sep s <> [].
Proof.
  destruct s as [|c r]; simpl; [discriminate|].
  destruct (Ascii.eqb c sep); [discriminate|].
  destruct (split sep r); discriminate.
Qed.

Lemma split_empty_inv (s : jsstring) : split sep s = [[]] -> s = [].
Proof.
  destruct s as [|c r]; [reflexivity|]. simpl.
  destruct (Ascii.eqb c sep).
  - intros E. injection E as E. now apply split_not_nil in E.
  - destruct (split sep r); discriminate.
Qed.

(** Dropping white space at the start touches the first entry only. *)
Lemma split_dropWhile (s : jsstring) :
  exists w rest,
    split sep s = w :: rest
    /\ split sep (dropWhile isSpace s) = dropWhile isSpace w :: rest.
Proof.
  induction s as [|c r [w [rest [E1 E2]]]]; simpl.
  - exists [], []. auto.
  - destruct (Ascii.eqb c sep) eqn:C.
    + apply Ascii.eqb_eq in C. subst c. rewrite sep_not_space. simpl.
      rewrite Ascii.eqb_refl. exists [], (split sep r). auto.
    + rewrite E1. exists (c :: w), rest. split; [reflexivity|].
      simpl. destruct (isSpace c); [exact E2|].
      simpl. now rewrite C, E1.
Qed.

Lemma split_other (c : ascii) (r : jsstring) :
  Ascii.eqb c sep = false ->
  split sep (c :: r)
  = match split sep r with
    | [] => [[c]]
    | w :: ws => (c :: w) :: ws
    end.
Proof. intros C. simpl. now rewrite C. Qed.

(** Dropping white space at the end touches the last entry only. *)
Lemma split_dropWhileEnd (s : jsstring) :
  exists init w,
    split sep s = init ++ [w]
    /\ split sep (dropWhileEnd isSpace s) = init ++ [dropWhileEnd isSpace w].
Proof.
  induction s as [|c r [init [w [E1 E2]]]].
  - exists [], []. auto.
  - destruct (Ascii.eqb c sep) eqn:C.
    + apply Ascii.eqb_eq in C. subst c. simpl. rewrite sep_not_space. simpl.
      rewrite Ascii.eqb_refl. exists ([] :: init), w.
      rewrite E1, E2. auto.
    + rewrite (split_other c r C), E1.
      cbn [dropWhileEnd]. cbv zeta.
      destruct init as [|i0 init].
      * exists [], (c :: w). split; [reflexivity|].
        cbn [dropWhileEnd app] in *. cbv zeta.
        destruct (dropWhileEnd isSpace r) as [|x r'] eqn:D.
        -- simpl in E2. injection E2 as E2. rewrite <- E2.
           destruct (isSpace c); simpl; [reflexivity | now rewrite C].
        -- cbn [isEmpty]. rewrite andb_false_r.
           rewrite (split_other c (x :: r') C), E2.
           destruct (dropWhileEnd isSpace w) eqn:Dw.
           ++ apply split_empty_inv in E2. discriminate E2.
           ++ cbn [isEmpty]. rewrite andb_false_r. reflexivity.
      * exists ((c :: i0) :: init), w. split; [reflexivity|].
        destruct (dropWhileEnd isSpace r) as [|x r'] eqn:D.
        -- simpl in E2. injection E2 as _ E2.
           destruct init; discriminate E2.
        -- cbn [isEmpty]. rewrite andb_false_r.
           rewrite (split_other c (x :: r') C), E2. reflexivity.
Qed.

End Splitting.

Lemma dropWhile_idem (p : ascii -> bool) (s : jsstring) :
  dropWhile p (dropWhile p s) = dropWhile p s.
Proof.
  pose proof (dropWhile_head p s) as H.
  destruct (dropWhile p s) as [|c r]; [reflexivity|]. simpl. now rewrite H.
Qed.

Lemma dropWhileEnd_nil_all (p : ascii -> bool) (s : jsstring) :
  dropWhileEnd p s = [] -> Forall (fun c => p c = true) s.
Proof.
  induction s as [|c r IH]; simpl; [constructor|].
  destruct (p c) eqn:P; simpl; [|discriminate].
  destruct (dropWhileEnd p r); simpl; [auto | discriminate].
Qed.

Lemma dropWhile_dropWhileEnd (p : ascii -> bool) (s : jsstring) :
  dropWhile p (dropWhileEnd p s) = dropWhileEnd p (dropWhile p s).
Proof.
  induction s as [|c r IH]; simpl; [reflexivity|].
  destruct (p c) eqn:P; simpl.
  - destruct (dropWhileEnd p r) as [|x r'] eqn:D; simpl.
    + apply dropWhileEnd_nil_all in D.
      rewrite (dropWhile_all p r D). reflexivity.
    + rewrite P. exact IH.
  - now rewrite P.
Qed.

Lemma dropWhileEnd_idem (p : ascii -> bool) (s : jsstring) :
  dropWhileEnd p (dropWhileEnd p s) = dropWhileEnd p s.
Proof.
  induction s as [|c r IH]; simpl; [reflexivity|].
  destruct (p c && isEmpty (dropWhileEnd p r)) eqn:E; [reflexivity|].
  simpl. rewrite IH, E. reflexivity.
Qed.

Lemma trim_dropWhile (s : jsstring) : trim (dropWhile isSpace s) = trim s.
Proof. unfold trim. now rewrite dropWhile_idem. Qed.

Lemma trim_dropWhileEnd (s : jsstring) : trim (dropWhileEnd isSpace s) = trim s.
Proof.
  unfold trim. now rewrite dropWhile_dropWhileEnd, dropWhileEnd_idem.
Qed.

(** Trimming the whole field first does not change the trimmed entries. *)
Lemma tagNamesOf_trim (raw : jsstring) : tagNamesOf (trim raw) = tagNamesOf raw.
Proof.
  unfold tagNamesOf. f_equal. unfold trim at 2.
  destruct (split_dropWhileEnd ","%char comma_not_space (dropWhile isSpace raw))
    as [init [x [E1 E2]]].
  destruct (split_dropWhile ","%char comma_not_space raw)
    as [w [rest [E3 E4]]].
  rewrite E2, map_app. simpl. rewrite trim_dropWhileEnd.
  change (map trim init ++ [trim x]) with (map trim init ++ map trim [x]).
  rewrite <- map_app, <- E1, E4, E3. simpl. now rewrite trim_dropWhile.
Qed.

Lemma tagNamesOf_guard (validTags : jsstring) :
  (if truthy validTags then tagNamesOf validTags else []) = tagNamesOf validTags.
Proof. destruct validTags; reflexivity. Qed.

(** ** The tags a completed run has looked up *)

Lemma lookedUp_app (a b : list Call) : lookedUp (a ++ b) = lookedUp a ++ lookedUp b.
Proof.
  induction a as [|c a IH]; [reflexivity|].
  destruct c; simpl; now rewrite IH.
Qed.

Section Looking.

Context {W : Type} (B : Backend W).

Lemma looksUp_ret {A : Type} (a : A) : looksUp [] (ret (W := W) a).
Proof. intros r. exists []. simpl. now rewrite app_nil_r. Qed.

Lemma looksUp_throw {A : Type} (t : Thrown) (slugs : list jsstring) :
  looksUp slugs (throw (W := W) (A := A) t).
Proof.
  intros r. exists []. simpl. rewrite app_nil_r. split; [reflexivity|].
  discriminate.
Qed.

Lemma looksUp_effect (e : Effect) : looksUp [] (effect (W := W) e).
Proof. intros r. exists []. simpl. now rewrite app_nil_r. Qed.

Lemma looksUp_request {A : Type} (op : W -> A * W) (record : A -> Call) :
  (forall a, lookedUp [record a] = []) -> looksUp [] (request op record).
Proof.
  intros H r. unfold request. destruct (op (world r)) as [a w'].
  exists [record a]. simpl. split; [reflexivity | intros; apply H].
Qed.

Lemma looksUp_bind {A C : Type} (m : M A) (k : A -> M C)
    (s1 s2 : list jsstring) :
  looksUp s1 m -> (forall a, looksUp s2 (k a)) ->
  looksUp (s1 ++ s2) (bind (W := W) m k).
Proof.
  intros Hm Hk r. unfold bind. destruct (Hm r) as [cs1 [E1 L1]].
  destruct (m r) as [[t|a] r1]; simpl in *.
  - exists cs1. split; [exact E1 | discriminate].
  - destruct (Hk a r1) as [cs2 [E2 L2]]. exists (cs1 ++ cs2).
    rewrite E2, E1, app_assoc. split; [reflexivity|].
    intros c Hc. rewrite lookedUp_app, (L1 a eq_refl), (L2 c Hc). reflexivity.
Qed.

Lemma looksUp_linkTag (post_id : ID) (tagName : jsstring) :
  looksUp [generateSlug tagName] (linkTag B post_id tagName).
Proof.
  unfold linkTag, resolveTag.
  change [generateSlug tagName] with ([generateSlug tagName] ++ [] ++ []).
  apply looksUp_bind.
  - change [generateSlug tagName] with ([generateSlug tagName] ++ []).
    apply looksUp_bind.
    + intros r. unfold request.
      destruct (selectTags B (generateSlug tagName) (world r)) as [a w'].
      exists [SelectTags (generateSlug tagName) a]. simpl. auto.
    + intros answer. destruct (dataOf (maybeSingle answer)); [apply looksUp_ret|].
      change (@nil jsstring) with (@nil jsstring ++ [] ++ []).
      apply looksUp_bind; [apply looksUp_request; reflexivity|].
      intros created. apply looksUp_bind; [|intros; apply looksUp_ret].
      destruct created; [apply looksUp_throw | apply looksUp_ret].
  - intros tagId. apply looksUp_bind; [|intros; apply looksUp_ret].
    apply looksUp_request. reflexivity.
Qed.

Lemma looksUp_forEach (post_id : ID) (names : list jsstring) :
  looksUp (map generateSlug names) (forEach names (linkTag B post_id)).
Proof.
  induction names as [|n names IH]; simpl; [apply looksUp_ret|].
  change (generateSlug n :: map generateSlug names)
    with ([generateSlug n] ++ map generateSlug names).
  apply looksUp_bind; [apply looksUp_linkTag | intros _; exact IH].
Qed.

Lemma looksUp_submitBody (u : User) (now : N) (f : Form) :
  looksUp (map generateSlug (tagNamesOf (tags f))) (submitBody B u now f).
Proof.
  unfold submitBody. destruct (postSchema_parse f) as [z|v] eqn:P;
    [apply looksUp_throw|].
  assert (Ev : v_tags v = trim (tags f)).
  { unfold postSchema_parse in P. destruct (issuesOf f); [|discriminate P].
    injection P as <-. reflexivity. }
  change (map generateSlug (tagNamesOf (tags f)))
    with ([] ++ map generateSlug (tagNamesOf (tags f))).
  apply looksUp_bind.
  - destruct (image f) as [file|]; simpl; [|apply looksUp_ret].
    change (@nil jsstring) with (@nil jsstring ++ [] ++ []).
    apply looksUp_bind; [apply looksUp_request; reflexivity|].
    intros uploadError. apply looksUp_bind; [|intros; apply looksUp_ret].
    destruct uploadError; [apply looksUp_throw | apply looksUp_ret].
  - intros imageUrl. unfold insertAndTag. cbv zeta.
    change (map generateSlug (tagNamesOf (tags f)))
      with ([] ++ map generateSlug (tagNamesOf (tags f))).
    apply looksUp_bind; [apply looksUp_request; reflexivity|].
    intros inserted.
    change (map generateSlug (tagNamesOf (tags f)))
      with ([] ++ map generateSlug (tagNamesOf (tags f))).
    apply looksUp_bind;
      [destruct inserted; [apply looksUp_throw | apply looksUp_ret]|].
    intros postData.
    rewrite <- (app_nil_r (map generateSlug (tagNamesOf (tags f)))).
    apply looksUp_bind.
    + rewrite <- tagNamesOf_trim, <- Ev, <- tagNamesOf_guard.
      destruct (truthy (v_tags v)); [apply looksUp_forEach | apply looksUp_ret].
    + intros _. change (@nil jsstring) with (@nil jsstring ++ []).
      apply looksUp_bind; intros; apply looksUp_effect.
Qed.

(** A run that ends with the success effects went through its [try] block
    and looked up every tag name of the form. *)
Lemma completed_lookedUp (w : W) (u : User) (now : N) (f : Form) :
  effects (handleSubmit B (Some u) now f (start w)) = successEffects f ->
  lookedUp (calls (handleSubmit B (Some u) now f (start w)))
  = map generateSlug (tagNamesOf (tags f)).
Proof.
  intros S. rewrite handleSubmit_calls.
  unfold handleSubmit, tryCatchFinally in S. cbv zeta in S.
  set (r0 := snd (effect (SetLoading true) (start w))) in *.
  destruct (looksUp_submitBody u now f r0) as [cs [E L]].
  rewrite E. simpl.
  destruct (validForm f) eqn:V.
  - apply validForm_issues, parse_valid in V.
    destruct (submitBody_valid B u now f _ V) as [_ Em]. specialize (Em r0).
    destruct (submitBody B u now f r0) as [[[m ms|e]|[]] r']; simpl in *.
    + rewrite Em in S. discriminate S.
    + rewrite Em in S. discriminate S.
    + exact (L tt eq_refl).
  - destruct (invalid_issues f V) as [m [ms I]].
    rewrite (submitBody_invalid B u now f m ms r0 I) in S. discriminate S.
Qed.

End Looking.

(** ** Tag names and links: claim C3 *)

(** C3. The tag names the loop goes through are the comma-separated
    entries of the tags field, each trimmed, the empty ones discarded; a
    run that completes has looked up the slug of each of them, in their
    order.  Over a backend that keeps a tag's slug and a post-tag pair
    unique, the tables after the run hold at most one link between a post
    and the tag of a slug, however often a name or a slug occurs in the
    field. *)
Theorem tag_names_and_links (w : Mem.World) (u : User) (now : N) (f : Form) :
  Mem.constrained (Mem.db w) ->
  (if truthy (trim (tags f)) then tagNamesOf (trim (tags f)) else [])
  = filter truthy (map trim (split ","%char (tags f)))
  /\ (effects (handleSubmit Mem.backend (Some u) now f (start w))
      = successEffects f ->
      lookedUp (calls (handleSubmit Mem.backend (Some u) now f (start w)))
      = map generateSlug (filter truthy (map trim (split ","%char (tags f)))))
  /\ (forall post_id slug,
         List.length
           (Mem.linksTo
              (Mem.db (world (handleSubmit Mem.backend (Some u) now f (start w))))
              post_id slug) <= 1).
Proof.
  intros C. split; [|split].
  - rewrite tagNamesOf_guard. apply tagNamesOf_trim.
  - apply completed_lookedUp.
  - intros post_id slug. apply constrained_linksTo.
    now apply handleSubmit_constrained.
Qed.

Lemma tag_names_and_links_twice :
  Mem.constrained Mem.empty
  /\ lookedUp (calls twiceRun) = [str "news"; str "news"; str "sport"]
  /\ List.length (Mem.linksTo (Mem.db (world twiceRun)) 1%N (str "news")) <= 1.
Proof.
  assert (C : Mem.constrained Mem.empty) by (split; constructor).
  destruct (tag_names_and_links (Mem.quiet Mem.empty) alice submittedAt
              (stormPost "news, news, sport" None) C) as [_ [L K]].
  unfold twiceRun. split; [exact C|]. split; [|apply K].
  rewrite L; vm_compute; reflexivity.
Defined.

Example twice_linked_once :
  Mem.linksTo (Mem.db (world twiceRun)) 1%N (str "news")
  = [{| l_post := 1%N; l_tag := 2%N |}].
Proof. reflexivity. Qed.

(** ** Names that differ in case: claim C6 *)

Lemma sameUpToCase_lower (a b : jsstring) :
  sameUpToCase a b -> toLowerCase a = toLowerCase b.
Proof.
  induction 1 as [|c d a b Hc _ IH]; [reflexivity|].
  simpl. now rewrite Hc, IH.
Qed.

Lemma sameUpToCase_slug (a b : jsstring) :
  sameUpToCase a b -> generateSlug a = generateSlug b.
Proof.
  intros H. unfold generateSlug. now rewrite (sameUpToCase_lower a b H).
Qed.

Lemma filter_none {A : Type} (f : A -> bool) (l : list A) :
  (forall y, In y l -> f y = false) -> filter f l = [].
Proof.
  induction l as [|x l IH]; simpl; [reflexivity|]. intros H.
  rewrite (H x) by now left. apply IH. intros y Hy. apply H. now right.
Qed.

Lemma filter_unique_slug (l : list TagRow) (x : TagRow) :
  NoDup (map t_slug l) -> In x l ->
  filter (fun t => eqs (t_slug t) (t_slug x)) l = [x].
Proof.
  induction l as [|x0 l IH]; simpl; [tauto|].
  intros N Hin. inversion N as [|? ? Hx0 Nl]; subst.
  destruct Hin as [->|Hin].
  - rewrite eqs_refl. f_equal. apply filter_none. intros y Hy.
    destruct (eqs (t_slug y) (t_slug x)) eqn:E; [|reflexivity].
    apply eqs_eq in E. exfalso. apply Hx0. rewrite <- E. now apply in_map.
  - destruct (eqs (t_slug x0) (t_slug x)) eqn:E; [|now apply IH].
    apply eqs_eq in E. exfalso. apply Hx0. rewrite E. now apply in_map.
Qed.

(** Looking a slug up on a quiet backend whose tags have unique slugs. *)
Lemma resolve_existing (w : Mem.World) (name : jsstring) (existing : TagRow) :
  Mem.pending w = [] ->
  NoDup (map t_slug (Mem.tags (Mem.db w))) ->
  In existing (Mem.tags (Mem.db w)) ->
  t_slug existing = generateSlug name ->
  resolveTag Mem.backend name (start w)
  = (inr (t_id existing),
     {| world := w;
        calls := [SelectTags (generateSlug name) (inr [existing])];
        effects := [] |}).
Proof.
  destruct w as [d pending]. simpl. intros -> N Hin S.
  unfold resolveTag. rewrite bind_request.
  cbn [selectTags Mem.backend start world calls effects].
  unfold Mem.serve, Mem.arrive, Mem.db_selectTags. cbn.
  rewrite <- S, (filter_unique_slug _ _ N Hin). reflexivity.
Qed.

(** C6. Two tag names that differ only in the case of their letters have
    the same slug.  On a backend that answers and keeps slugs unique, once
    the first name is resolved the second finds the stored tag: its only
    call is the lookup, it returns the identifier the first one got, the
    tables are left as they were, so no second tag row exists, and the
    stored name is the first name or an older one, never the second. *)
Theorem same_slug_reuses_tag (d : Mem.DB) (first second : jsstring)
    (tagId : ID) (r1 : Run Mem.World) :
  sameUpToCase first second ->
  Mem.constrained d ->
  resolveTag Mem.backend first (start (Mem.quiet d)) = (inr tagId, r1) ->
  generateSlug second = generateSlug first
  /\ exists existing,
       In existing (Mem.tags (Mem.db (world r1)))
       /\ t_id existing = tagId
       /\ t_slug existing = generateSlug first
       /\ (In existing (Mem.tags d) \/ t_name existing = first)
       /\ resolveTag Mem.backend second (start (world r1))
          = (inr tagId,
             {| world := world r1;
                calls := [SelectTags (generateSlug second) (inr [existing])];
                effects := [] |}).
Proof.
  intros Hcase [Ns Nl] R1.
  pose proof (sameUpToCase_slug first second Hcase) as Es. split; [now symmetry|].
  unfold resolveTag in R1. rewrite bind_request in R1.
  cbn [selectTags Mem.backend start world calls effects] in R1.
  unfold Mem.serve, Mem.arrive, Mem.db_selectTags in R1. cbn in R1.
  set (s := generateSlug first) in *.
  destruct (filter (fun t => eqs (t_slug t) s) (Mem.tags d))
    as [|x [|y rows]] eqn:F; cbn in R1.
  - (* no tag of that slug: the first name creates it *)
    unfold bind, request in R1.
    cbn [insertTag Mem.backend world calls effects] in R1.
    unfold Mem.serve, Mem.arrive, Mem.db_insertTag in R1. cbn in R1.
    destruct (existsb (fun t => eqs (t_name t) first) (Mem.tags d));
      [discriminate R1|].
    destruct (existsb (fun t => eqs (t_slug t) s) (Mem.tags d)) eqn:X;
      [discriminate R1|].
    cbn in R1. injection R1 as <- <-.
    set (new := {| t_id := Mem.next_id d; t_name := first; t_slug := s |}).
    exists new. repeat split; auto.
    + cbn. apply in_or_app. right. now left.
    + apply (resolve_existing _ second new); cbn; auto.
      * rewrite map_app. cbn. apply NoDup_snoc; [exact Ns|].
        eapply existsb_false_not_In; [exact eqs_eq | exact X].
      * apply in_or_app. right. now left.
  - (* one tag of that slug: the first name found it *)
    injection R1 as <- <-.
    assert (Hx : In x (Mem.tags d) /\ eqs (t_slug x) s = true).
    { apply (filter_In (fun t => eqs (t_slug t) s)). rewrite F. now left. }
    destruct Hx as [Hx Sx]. apply eqs_eq in Sx.
    exists x. repeat split; auto.
    apply (resolve_existing _ second x); cbn; auto.
    now rewrite Sx.
  - (* several tags of one slug: excluded by the constraint *)
    exfalso.
    assert (Hx : In x (Mem.tags d) /\ eqs (t_slug x) s = true).
    { apply (filter_In (fun t => eqs (t_slug t) s)). rewrite F. now left. }
    destruct Hx as [Hx Sx]. apply eqs_eq in Sx.
    rewrite <- Sx, (filter_unique_slug _ _ Ns Hx) in F. discriminate F.
Qed.

Lemma same_slug_reuses_tag_politics :
  sameUpToCase (str "Politics") (str "politics")
  /\ generateSlug (str "politics") = generateSlug (str "Politics")
  /\ exists existing,
       In existing
          (Mem.tags (Mem.db (world
             (snd (resolveTag Mem.backend (str "Politics")
                     (start (Mem.quiet Mem.empty)))))))
       /\ t_id existing = 1%N
       /\ t_name existing = str "Politics".
Proof.
  assert (S : sameUpToCase (str "Politics") (str "politics"))
    by (repeat constructor).
  split; [exact S|].
  destruct (same_slug_reuses_tag Mem.empty (str "Politics") (str "politics")
              1%N
              (snd (resolveTag Mem.backend (str "Politics")
                      (start (Mem.quiet Mem.empty))))
              S (conj (NoDup_nil _) (NoDup_nil _)) eq_refl)
    as [E [existing [Hin [Hid [_ [[[]|Hname] _]]]]]].
  split; [exact E|]. exists existing. auto.
Defined.

Example politics_stored_once :
  map t_name
    (Mem.tags (Mem.db (world
       (handleSubmit Mem.backend (Some alice) submittedAt
          (stormPost "Politics, politics, POLITICS" None)
          (start (Mem.quiet Mem.empty))))))
  = [str "Politics"].
Proof. reflexivity. Qed.

(** ** The listing: claim C8 *)

Section Sorting.

Variable le : PostRow -> PostRow -> bool.
Hypothesis le_total : forall a b, le a b = false -> le b a = true.
Hypothesis le_trans : forall a b c, le a b = true -> le b c = true -> le a c = true.

Lemma insertBy_perm (x : PostRow) (l : list PostRow) :
  Permutation (Mem.insertBy le x l) (x :: l).
Proof.
  induction l as [|y l IH]; simpl; [reflexivity|].
  destruct (le x y); [reflexivity|].
  rewrite IH. apply perm_swap.
Qed.

Lemma sortBy_perm (l : list PostRow) : Permutation (Mem.sortBy le l) l.
Proof.
  induction l as [|x l IH]; simpl; [reflexivity|].
  rewrite insertBy_perm. now constructor.
Qed.

Lemma insertBy_sorted (x : PostRow) (l : list PostRow) :
  StronglySorted (fun a b => le a b = true) l ->
  StronglySorted (fun a b => le a b = true) (Mem.insertBy le x l).
Proof.
  induction 1 as [|y l Sl IH Hy]; simpl; [repeat constructor|].
  destruct (le x y) eqn:E.
  - constructor; [now constructor|]. constructor; [exact E|].
    eapply Forall_impl; [|exact Hy]. intros z Hz. eapply le_trans; eauto.
  - constructor; [exact IH|].
    eapply Permutation_Forall; [symmetry; apply insertBy_perm|].
    constructor; [now apply le_total | exact Hy].
Qed.

Lemma sortBy_sorted (l : list PostRow) :
  StronglySorted (fun a b => le a b = true) (Mem.sortBy le l).
Proof.
  induction l as [|x l IH]; simpl; [constructor|].
  now apply insertBy_sorted.
Qed.

End Sorting.

Lemma StronglySorted_weaken {A : Type} (R R' : A -> A -> Prop) (l : list A) :
  (forall a b, R a b -> R' a b) -> StronglySorted R l -> StronglySorted R' l.
Proof.
  intros H. induction 1 as [|x l _ IH Hx]; constructor; [exact IH|].
  eapply Forall_impl; [|exact Hx]. intros b. apply H.
Qed.

Lemma newest_first_sorted (l : list PostRow) :
  StronglySorted newerFirst (Mem.sortBy (Mem.before (CreatedAt false)) l).
Proof.
  eapply StronglySorted_weaken;
    [|apply (sortBy_sorted (Mem.before (CreatedAt false)))].
  - intros a b H. simpl in H. apply N.leb_le in H. exact H.
  - intros a b H. simpl in *. apply N.leb_gt in H. apply N.leb_le. lia.
  - intros a b c H1 H2. simpl in *. apply N.leb_le in H1, H2.
    apply N.leb_le. lia.
Qed.

(** Any backend: the listing sends one request, a select of the published
    posts ordered by creation time, newest first, and writes nothing. *)
Lemma fetchPosts_reads_only {W : Type} (B : Backend W) (w : W) :
  exists answer,
    calls (fetchPosts B (start w))
    = [SelectPosts [EqPublished true] (Some (CreatedAt false)) answer]
    /\ forallb isWrite (calls (fetchPosts B (start w))) = false.
Proof.
  unfold fetchPosts, tryCatchFinally. cbv zeta. rewrite bind_request.
  destruct (selectPosts B [EqPublished true] (Some (CreatedAt false))
              (world (start w))) as [[e|data] w'];
    eexists; split; reflexivity.
Qed.

Lemma selectedRows_published (d : Mem.DB) :
  Mem.selectedRows [EqPublished true] (Some (CreatedAt false)) d
  = Mem.sortBy (Mem.before (CreatedAt false)) (filter p_published (Mem.posts d)).
Proof.
  unfold Mem.selectedRows. f_equal. apply filter_ext.
  intros r. simpl. now destruct (p_published r).
Qed.

(** C8. The listing asks for the posts whose [published] flag is set,
    ordered by creation time descending.  On a backend that answers, what
    the page receives is exactly the published posts, each once, the most
    recent first; its one request is a select and the tables are left as
    they were. *)
Theorem listing_published_newest_first (d : Mem.DB) :
  exists rows,
    effects (fetchPosts Mem.backend (start (Mem.quiet d)))
    = [SetPosts (map (Mem.embed d) rows); SetLoading false]
    /\ Permutation rows (filter p_published (Mem.posts d))
    /\ StronglySorted newerFirst rows
    /\ calls (fetchPosts Mem.backend (start (Mem.quiet d)))
       = [SelectPosts [EqPublished true] (Some (CreatedAt false))
            (inr (map (Mem.embed d) rows))]
    /\ world (fetchPosts Mem.backend (start (Mem.quiet d))) = Mem.quiet d.
Proof.
  exists (Mem.sortBy (Mem.before (CreatedAt false))
            (filter p_published (Mem.posts d))).
  rewrite <- selectedRows_published.
  assert (R : fetchPosts Mem.backend (start (Mem.quiet d))
              = {| world := Mem.quiet d;
                   calls := [SelectPosts [EqPublished true]
                               (Some (CreatedAt false))
                               (inr (map (Mem.embed d)
                                       (Mem.selectedRows [EqPublished true]
                                          (Some (CreatedAt false)) d)))];
                   effects := [SetPosts
                                 (map (Mem.embed d)
                                    (Mem.selectedRows [EqPublished true]
                                       (Some (CreatedAt false)) d));
                               SetLoading false] |}).
  { unfold fetchPosts, tryCatchFinally. cbv zeta. rewrite bind_request.
    reflexivity. }
  rewrite R. cbn [world calls effects].
  split; [reflexivity|]. split; [|split; [|split]].
  - rewrite selectedRows_published. apply sortBy_perm.
  - rewrite selectedRows_published. apply newest_first_sorted.
  - reflexivity.
  - reflexivity.
Qed.

Example listing_sample :
  let d := {| Mem.posts :=
                [ {| p_id := 1; p_title := str "Old"; p_slug := str "old";
                     p_content := str "x"; p_excerpt := str "x";
                     p_featured_image := None; p_author_id := str "7f3c";
                     p_published := true; p_created_at := 10 |};
                  {| p_id := 2; p_title := str "Draft"; p_slug := str "draft";
                     p_content := str "x"; p_excerpt := str "x";
                     p_featured_image := None; p_author_id := str "7f3c";
                     p_published := false; p_created_at := 20 |};
                  {| p_id := 3; p_title := str "New"; p_slug := str "new";
                     p_content := str "x"; p_excerpt := str "x";
                     p_featured_image := None; p_author_id := str "7f3c";
                     p_published := true; p_created_at := 30 |} ];
              Mem.tags := []; Mem.post_tags := []; Mem.profiles := [];
              Mem.objects := []; Mem.next_id := 4; Mem.clock := 31 |}%N in
  match effects (fetchPosts Mem.backend (start (Mem.quiet d))) with
  | SetPosts data :: _ => map (fun p => p_id (row p)) data = [3; 1]%N
  | _ => False
  end.
Proof. reflexivity. Qed.

(** ** Unknown slugs on the read pages: claim C9 *)

Section Reading.

Context {W : Type} (B : Backend W).

Lemma fetchPost_effects (slug : jsstring) (w : W) :
  effects (fetchPost B slug (start w))
  = match maybeSingle (fst (selectPosts B [EqSlug slug; EqPublished true] None w)) with
    | inl e => [ConsoleError (str "Error fetching post:") (BackendError e);
                SetLoading false]
    | inr data => [SetPost data; SetLoading false]
    end.
Proof.
  unfold fetchPost, tryCatchFinally. cbv zeta. rewrite bind_request.
  cbn [world start].
  destruct (maybeSingle
              (fst (selectPosts B [EqSlug slug; EqPublished true] None w)));
    reflexivity.
Qed.

Lemma fetchPostsByTag_effects (tagSlug : jsstring) (w : W) :
  effects (fetchPostsByTag B tagSlug (start w))
  = match maybeSingle (fst (selectTags B tagSlug w)) with
    | inl e => [ConsoleError (str "Error fetching posts by tag:") (BackendError e);
                SetLoading false]
    | inr None => [SetLoading false; SetLoading false]
    | inr (Some tagData) =>
        match fst (selectPostsOfTag B (t_id tagData)
                     (snd (selectTags B tagSlug w))) with
        | inl e => [SetTagName (t_name tagData);
                    ConsoleError (str "Error fetching posts by tag:")
                                 (BackendError e);
                    SetLoading false]
        | inr postTagsData =>
            [SetTagName (t_name tagData); SetPosts (nonNull postTagsData);
             SetLoading false]
        end
    end.
Proof.
  unfold fetchPostsByTag, tryCatchFinally. cbv zeta. rewrite bind_request.
  cbn [world start].
  destruct (maybeSingle (fst (selectTags B tagSlug w))) as [e|[tagData|]];
    try reflexivity.
  cbn [bind orThrow ret effect fst snd world calls effects].
  rewrite bind_request. cbn [world].
  destruct (fst (selectPostsOfTag B (t_id tagData) (snd (selectTags B tagSlug w))));
    reflexivity.
Qed.

(** C9, amended. On the read pages an unknown slug is an empty result and
    not an error: without a published post of that slug the post page
    stores [null], without a tag of that slug the tag page stores nothing,
    for a tag without posts it stores the tag's name and an empty list, and
    in none of these cases is anything written to the console.  A failed
    request is written to the console and stores nothing else, so that a
    freshly mounted page shows after a failure what it shows for an unknown
    slug: [Post Not Found], or the heading [Tag not found], or the tag's
    heading over no posts. *)
Theorem unknown_slug_is_empty_result (w : W) (slug : jsstring) :
  (fst (selectPosts B [EqSlug slug; EqPublished true] None w) = inr [] ->
   effects (fetchPost B slug (start w)) = [SetPost None; SetLoading false]
   /\ postDetailShows postDetailMounted (effects (fetchPost B slug (start w)))
      = PostNotFound)
  /\ (forall e,
         fst (selectPosts B [EqSlug slug; EqPublished true] None w) = inl e ->
         effects (fetchPost B slug (start w))
         = [ConsoleError (str "Error fetching post:") (BackendError e);
            SetLoading false]
         /\ postDetailShows postDetailMounted (effects (fetchPost B slug (start w)))
            = PostNotFound)
  /\ (fst (selectTags B slug w) = inr [] ->
      effects (fetchPostsByTag B slug (start w))
      = [SetLoading false; SetLoading false]
      /\ tagPostsShows tagPostsMounted (effects (fetchPostsByTag B slug (start w)))
         = TagPage (str "Tag not found") [])
  /\ (forall e,
         fst (selectTags B slug w) = inl e ->
         effects (fetchPostsByTag B slug (start w))
         = [ConsoleError (str "Error fetching posts by tag:") (BackendError e);
            SetLoading false]
         /\ tagPostsShows tagPostsMounted
              (effects (fetchPostsByTag B slug (start w)))
            = TagPage (str "Tag not found") [])
  /\ (forall tagData,
         fst (selectTags B slug w) = inr [tagData] ->
         (fst (selectPostsOfTag B (t_id tagData) (snd (selectTags B slug w)))
          = inr [] ->
          effects (fetchPostsByTag B slug (start w))
          = [SetTagName (t_name tagData); SetPosts []; SetLoading false])
         /\ (forall e,
                fst (selectPostsOfTag B (t_id tagData)
                       (snd (selectTags B slug w))) = inl e ->
                effects (fetchPostsByTag B slug (start w))
                = [SetTagName (t_name tagData);
                   ConsoleError (str "Error fetching posts by tag:")
                                (BackendError e);
                   SetLoading false])
         /\ (forall answer,
                fst (selectPostsOfTag B (t_id tagData)
                       (snd (selectTags B slug w))) = answer ->
                answer = inr [] \/ (exists e, answer = inl e) ->
                tagPostsShows tagPostsMounted
                  (effects (fetchPostsByTag B slug (start w)))
                = tagPostsShows tagPostsMounted
                    [SetTagName (t_name tagData); SetLoading false])).
Proof.
  rewrite fetchPost_effects, fetchPostsByTag_effects.
  split; [|split; [|split; [|split]]].
  - intros ->. split; reflexivity.
  - intros e ->. split; reflexivity.
  - intros ->. split; reflexivity.
  - intros e ->. split; reflexivity.
  - intros tagData ->. cbn [maybeSingle]. split; [|split].
    + intros ->. reflexivity.
    + intros e ->. reflexivity.
    + intros answer -> [->|[e ->]]; reflexivity.
Qed.

End Reading.

Lemma unknown_slug_is_empty_result_sample :
  fst (selectPosts Mem.backend [EqSlug (str "no-such-post"); EqPublished true]
         None (Mem.quiet Mem.empty)) = inr []
  /\ effects (fetchPost Mem.backend (str "no-such-post")
                (start (Mem.quiet Mem.empty)))
     = [SetPost None; SetLoading false]
  /\ fst (selectPosts Mem.backend [EqSlug (str "no-such-post"); EqPublished true]
            None offlineWorld) = inl fetchFailed
  /\ effects (fetchPost Mem.backend (str "no-such-post") (start offlineWorld))
     = [ConsoleError (str "Error fetching post:") (BackendError fetchFailed);
        SetLoading false].
Proof.
  split; [reflexivity|]. split.
  - apply (unknown_slug_is_empty_result Mem.backend (Mem.quiet Mem.empty)
             (str "no-such-post")).
    reflexivity.
  - split; [reflexivity|].
    apply (unknown_slug_is_empty_result Mem.backend offlineWorld
             (str "no-such-post")).
    reflexivity.
Defined.

(** C9 as stated fails: the post page shows [Post Not Found] both when the
    backend has no such post and when the request fails. *)
Lemma failure_renders_as_not_found :
  ~ tellsNotFoundFromFailure Mem.backend (Mem.quiet Mem.empty) offlineWorld
      (str "no-such-post").
Proof. intros H. apply H. reflexivity. Qed.

Example tag_page_after_failure :
  tagPostsShows tagPostsMounted
    (effects (fetchPostsByTag Mem.backend (str "no-such-tag")
                (start (Mem.quiet Mem.empty))))
  = tagPostsShows tagPostsMounted
      (effects (fetchPostsByTag Mem.backend (str "no-such-tag")
                  (start offlineWorld))).
Proof. reflexivity. Qed.

(* ================================================================== *)
(** * Further properties *)
(* ================================================================== *)

(** ** Splitting *)

Section SplitJoin.

Variable sep : ascii.

Lemma split_cons_sep (r : jsstring) : split sep (sep :: r) = [] :: split sep r.
Proof. simpl. now rewrite Ascii.eqb_refl. Qed.

Lemma split_pieces (s : jsstring) : exists w ws, split sep s = w :: ws.
Proof.
  destruct (split sep s) as [|w ws] eqn:E; [|eauto].
  destruct s as [|c r]; simpl in E; [discriminate|].
  destruct (Ascii.eqb c sep); [discriminate|].
  destruct (split sep r); discriminate.
Qed.

Lemma join_cons (w : jsstring) (l : list jsstring) :
  l <> [] -> join sep (w :: l) = w ++ sep :: join sep l.
Proof. destruct l; [contradiction | reflexivity]. Qed.

Lemma join_split (s : jsstring) : join sep (split sep s) = s.
Proof.
  induction s as [|c r IH]; [reflexivity|].
  destruct (Ascii.eqb c sep) eqn:C.
  - apply Ascii.eqb_eq in C. subst c. rewrite split_cons_sep.
    destruct (split_pieces r) as [w [ws E]]. rewrite E in *.
    rewrite join_cons by discriminate. cbn [app]. now rewrite IH.
  - simpl. rewrite C. destruct (split_pieces r) as [w [ws E]].
    rewrite E in *. destruct ws; simpl in *; now rewrite <- IH.
Qed.

Lemma split_no_sep (s : jsstring) : Forall (fun w => ~ In sep w) (split sep s).
Proof.
  induction s as [|c r IH]; [repeat constructor; auto|].
  simpl. destruct (Ascii.eqb c sep) eqn:C.
  - constructor; [auto | exact IH].
  - destruct (split sep r) as [|w ws]; [repeat constructor|].
    + intros [->|[]]. now rewrite Ascii.eqb_refl in C.
    + inversion IH; subst. constructor; [|assumption].
      intros [->|H]; [now rewrite Ascii.eqb_refl in C | contradiction].
Qed.

Lemma split_count (s : jsstring) :
  List.length (split sep s) = S (count_occ ascii_dec s sep).
Proof.
  induction s as [|c r IH]; [reflexivity|].
  simpl. destruct (Ascii.eqb c sep) eqn:C.
  - apply Ascii.eqb_eq in C. subst c.
    destruct (ascii_dec sep sep); [|contradiction]. simpl. now rewrite IH.
  - destruct (ascii_dec c sep) as [->|_];
      [now rewrite Ascii.eqb_refl in C|].
    rewrite <- IH. now destruct (split sep r).
Qed.

(** The code units of the pieces and the separators between them make up
    the text. *)
Lemma split_lengths (s : jsstring) :
  List.length (List.concat (split sep s)) + List.length (split sep s)
  = S (List.length s).
Proof.
  induction s as [|c r IH]; [reflexivity|].
  simpl. destruct (Ascii.eqb c sep).
  - simpl. lia.
  - destruct (split sep r) as [|w ws]; simpl in *; lia.
Qed.

Lemma split_whole (s : jsstring) : ~ In sep s -> split sep s = [s].
Proof.
  induction s as [|c r IH]; [reflexivity|]. intros H. simpl.
  destruct (Ascii.eqb c sep) eqn:C.
  - apply Ascii.eqb_eq in C. subst c. exfalso. apply H. now left.
  - rewrite IH; [reflexivity|]. intros Hin. apply H. now right.
Qed.

Lemma pop_cons (w : jsstring) (l : list jsstring) :
  l <> [] -> pop (w :: l) = pop l.
Proof. destruct l; [contradiction | reflexivity]. Qed.

(** The last piece is the text after the last separator, or the whole text
    when there is none. *)
Lemma pop_split (s : jsstring) :
  (~ In sep s /\ pop (split sep s) = s)
  \/ (exists base, s = base ++ sep :: pop (split sep s)).
Proof.
  induction s as [|c r IH]; [left; auto|].
  destruct (split_pieces r) as [w [ws E]].
  destruct (Ascii.eqb c sep) eqn:C.
  - apply Ascii.eqb_eq in C. subst c. rewrite split_cons_sep. right.
    rewrite pop_cons by (rewrite E; discriminate).
    destruct IH as [[_ ->]|[base Hb]].
    + now exists [].
    + exists (sep :: base). simpl. now rewrite <- Hb.
  - simpl split. rewrite C. destruct IH as [[Hn Hp]|[base Hb]].
    + left. rewrite (split_whole r Hn). split; [|reflexivity].
      intros [->|Hin]; [now rewrite Ascii.eqb_refl in C | contradiction].
    + right. rewrite E in *. destruct ws as [|w' ws].
      * exfalso. pose proof (split_count r) as K. rewrite E in K. simpl in K.
        assert (Z : count_occ ascii_dec r sep = 0) by lia.
        apply (count_occ_not_In ascii_dec) in Z. apply Z.
        rewrite Hb. apply in_or_app. right. now left.
      * exists (c :: base). rewrite pop_cons by discriminate.
        rewrite pop_cons in Hb by discriminate. simpl. now rewrite <- Hb.
Qed.

End SplitJoin.

(** X1. The paragraphs of the post page lose nothing of the content:
    joined by line feeds they are the content again, no paragraph holds a
    line feed, and there is one paragraph more than there are line feeds
    (so an empty content is one empty paragraph). *)
Theorem paragraphs_round_trip (post : Post) :
  join newline (paragraphsOf post) = p_content (row post)
  /\ Forall (fun paragraph => ~ In newline paragraph) (paragraphsOf post)
  /\ List.length (paragraphsOf post)
     = S (count_occ ascii_dec (p_content (row post)) newline).
Proof.
  unfold paragraphsOf. split; [apply join_split|].
  split; [apply split_no_sep | apply split_count].
Qed.

(** X2. The storage path of an uploaded image lies under the author's
    identifier and ends in the part of the file name after its last dot:
    that extension holds no dot, and it is the whole file name when the
    name has no dot. *)
Theorem fileNameOf_shape (user : User) (now : N) (img : File) :
  exists stamp ext,
    fileNameOf user now img
    = user_id user ++ str "/" ++ stamp ++ str "." ++ ext
    /\ ~ In "."%char ext
    /\ ((~ In "."%char (file_name img) /\ ext = file_name img)
        \/ exists base, file_name img = base ++ "."%char :: ext).
Proof.
  exists (str (NilZero.string_of_uint (N.to_uint now))),
         (pop (split "."%char (file_name img))).
  split; [reflexivity|]. split.
  - pose proof (split_no_sep "."%char (file_name img)) as F.
    destruct (split_pieces "."%char (file_name img)) as [w [ws E]].
    rewrite E in *. rewrite Forall_forall in F. apply F.
    unfold pop.
    assert (N0 : w :: ws <> []) by discriminate.
    destruct (exists_last N0) as [init [x Ex]]. rewrite Ex.
    rewrite last_last. apply in_or_app. right. now left.
  - destruct (pop_split "."%char (file_name img)) as [[Hn Hp]|[base Hb]].
    + left. auto.
    + right. eauto.
Qed.

(** ** The tag names *)

Lemma dropWhileEnd_last (p : ascii -> bool) (s r : jsstring) (c : ascii) :
  dropWhileEnd p s = r ++ [c] -> p c = false.
Proof.
  revert r; induction s as [|x s IH]; intros r E; simpl in E.
  - destruct r; discriminate E.
  - destruct (dropWhileEnd p s) as [|y t] eqn:D.
    + simpl in E. rewrite andb_true_r in E. destruct (p x) eqn:P.
      * destruct r; discriminate E.
      * destruct r as [|z r]; [now injection E as <- | ].
        injection E as _ E. destruct r; discriminate E.
    + simpl in E. rewrite andb_false_r in E.
      destruct r as [|z r]; [discriminate E|].
      injection E as _ E. eapply IH. exact E.
Qed.

Lemma trim_idem (s : jsstring) : trim (trim s) = trim s.
Proof.
  unfold trim at 2. now rewrite trim_dropWhileEnd, trim_dropWhile.
Qed.

Lemma trim_ends (s : jsstring) :
  (forall c r, trim s = c :: r -> isSpace c = false)
  /\ (forall r c, trim s = r ++ [c] -> isSpace c = false).
Proof.
  split.
  - intros c r E. unfold trim in E.
    pose proof (dropWhile_head isSpace s) as H.
    destruct (dropWhile isSpace s) as [|x t]; [discriminate E|].
    simpl in E. rewrite H in E. simpl in E. now injection E as <- _.
  - intros r c E. eapply dropWhileEnd_last. exact E.
Qed.

Lemma trim_Forall (Q : ascii -> Prop) (s : jsstring) :
  Forall Q s -> Forall Q (trim s).
Proof. intros H. now apply dropWhileEnd_Forall, dropWhile_Forall. Qed.

Lemma names_count (l : list jsstring) :
  List.length (filter truthy (map trim l)) <= List.length l
  /\ List.length (filter truthy (map trim l)) <= List.length (List.concat l).
Proof.
  induction l as [|w l [IH1 IH2]]; [auto|]. simpl.
  destruct (truthy (trim w)) eqn:T; simpl; rewrite ?length_app.
  - split; [lia|]. destruct w as [|c w]; [discriminate T|]. simpl. lia.
  - split; lia.
Qed.

Lemma tagNamesOf_count (validTags : jsstring) :
  2 * List.length (tagNamesOf validTags) <= S (List.length validTags).
Proof.
  unfold tagNamesOf.
  pose proof (names_count (split ","%char validTags)) as [K1 K2].
  pose proof (split_lengths ","%char validTags). lia.
Qed.

(** X3. Every tag name the loop of [handleSubmit] goes through is
    non-empty, holds no comma and has no white space at either end; and a
    field of [n] code units yields at most [(n + 1) / 2] names. *)
Theorem tagNamesOf_clean (validTags : jsstring) :
  Forall (fun name =>
            name <> [] /\ ~ In ","%char name /\ trim name = name
            /\ (forall c r, name = c :: r -> isSpace c = false)
            /\ (forall r c, name = r ++ [c] -> isSpace c = false))
         (tagNamesOf validTags)
  /\ 2 * List.length (tagNamesOf validTags) <= S (List.length validTags).
Proof.
  unfold tagNamesOf. split.
  - apply Forall_forall. intros name H.
    apply filter_In in H as [H T]. apply in_map_iff in H as [w [<- Hw]].
    split; [now destruct (trim w)|]. split; [|split].
    + pose proof (split_no_sep ","%char validTags) as F.
      rewrite Forall_forall in F. specialize (F w Hw).
      assert (Fw : Forall (fun c => c <> ","%char) w).
      { apply Forall_forall. intros c Hc ->. contradiction. }
      apply (trim_Forall _ w) in Fw. rewrite Forall_forall in Fw.
      intros Hin. now apply (Fw _ Hin).
    + apply trim_idem.
    + apply trim_ends.
  - apply tagNamesOf_count.
Qed.

(** X4. A form that passes validation names at most 100 tags. *)
Theorem valid_form_tag_count (f : Form) :
  validForm f = true ->
  List.length (tagNamesOf (trim (tags f))) <= 100.
Proof.
  intros V. unfold validForm in V.
  apply andb_prop in V as [_ V]. apply N.leb_le in V. unfold len in V.
  pose proof (tagNamesOf_count (trim (tags f))) as K. lia.
Qed.

Lemma valid_form_tag_count_storm :
  validForm (stormPost "news, news, sport" None) = true
  /\ List.length
       (tagNamesOf (trim (tags (stormPost "news, news, sport" None)))) <= 100.
Proof.
  split; [reflexivity|].
  apply (valid_form_tag_count (stormPost "news, news, sport" None)).
  reflexivity.
Defined.

(** ** The slug as hyphenated words *)

Lemma separator_not_hyphen_free (c : ascii) :
  isSeparator c = false -> isHyphen c = false.
Proof. each_code_unit c. Qed.

Lemma toLower_separator (c : ascii) : isSeparator (toLower c) = isSeparator c.
Proof. each_code_unit c. Qed.

Lemma separator_kept (c : ascii) : isSeparator c = true -> keepsSlugChar c = true.
Proof. each_code_unit c. Qed.

Lemma space_separator (c : ascii) : isSpace c = true -> isSeparator c = true.
Proof. each_code_unit c. Qed.

Lemma alnum_kept_letter (c : ascii) :
  isAlnum c = true ->
  keepsSlugChar (toLower c) = true /\ isSeparator (toLower c) = false.
Proof. each_code_unit c. Qed.

Lemma dropWhileEnd_app_clean (p : ascii -> bool) (cur t : jsstring) :
  Forall (fun c => p c = false) cur ->
  dropWhileEnd p (cur ++ t) = cur ++ dropWhileEnd p t.
Proof.
  induction 1 as [|c cur Hc _ IH]; [reflexivity|].
  simpl. now rewrite Hc, IH.
Qed.

Lemma dropWhileEnd_cons (p : ascii -> bool) (c : ascii) (t : jsstring) :
  dropWhileEnd p (c :: t)
  = if p c && isEmpty (dropWhileEnd p t) then [] else c :: dropWhileEnd p t.
Proof. reflexivity. Qed.

Lemma wordsFrom_not_nil (cur s : jsstring) : cur <> [] -> wordsFrom cur s <> [].
Proof.
  revert cur; induction s as [|c r IH]; intros cur H; simpl.
  - destruct cur; [contradiction | discriminate].
  - destruct (isSeparator c).
    + destruct cur; [contradiction | discriminate].
    + apply IH. destruct cur; discriminate.
Qed.

Lemma join_first (w : jsstring) (ws : list jsstring) :
  join "-"%char (w :: ws)
  = w ++ match ws with [] => [] | _ => "-"%char :: join "-"%char ws end.
Proof. destruct ws; simpl; [now rewrite app_nil_r | reflexivity]. Qed.

(** What [collapseFrom] leaves after the hyphens at its end are dropped,
    read after a word ([current]) and after a run of separators. *)
Lemma collapse_words (s : jsstring) :
  (forall current,
      current <> [] -> Forall (fun c => isHyphen c = false) current ->
      dropWhileEnd isHyphen (current ++ collapseFrom false s)
      = join "-"%char (wordsFrom current s))
  /\ dropWhileEnd isHyphen ("-"%char :: collapseFrom true s)
     = match wordsFrom [] s with
       | [] => []
       | ws => "-"%char :: join "-"%char ws
       end.
Proof.
  induction s as [|c r [IHa IHb]].
  - split; [|reflexivity]. intros cur N F. rewrite app_nil_r. simpl.
    rewrite (dropWhileEnd_id _ _ F). now destruct cur.
  - split.
    + intros cur N F. simpl. destruct (isSeparator c) eqn:S.
      * rewrite (dropWhileEnd_app_clean _ _ _ F), IHb.
        destruct cur as [|x cur]; [contradiction|]. cbn [isEmpty].
        rewrite join_first. now destruct (wordsFrom [] r).
      * change (cur ++ c :: collapseFrom false r)
          with (cur ++ [c] ++ collapseFrom false r).
        rewrite app_assoc. apply IHa; [now destruct cur|].
        apply Forall_app. split; [exact F|].
        constructor; [now apply separator_not_hyphen_free | constructor].
    + cbn [collapseFrom wordsFrom isEmpty app].
      destruct (isSeparator c) eqn:S; [exact IHb|].
      pose proof (separator_not_hyphen_free c S) as Hc.
      assert (E : dropWhileEnd isHyphen (c :: collapseFrom false r)
                  = join "-"%char (wordsFrom [c] r)).
      { apply (IHa [c]); [discriminate | now repeat constructor]. }
      rewrite dropWhileEnd_cons, E.
      assert (Nj : join "-"%char (wordsFrom [c] r) <> []).
      { rewrite <- E, dropWhileEnd_cons, Hc. discriminate. }
      pose proof (wordsFrom_not_nil [c] r) as Nw.
      destruct (wordsFrom [c] r) as [|w ws]; [now exfalso; apply Nw|].
      destruct (join "-"%char (w :: ws)); [contradiction | reflexivity].
Qed.

Lemma strip_collapse_words (b : bool) (s : jsstring) :
  stripHyphens (collapseFrom b s) = join "-"%char (wordsOf s).
Proof.
  unfold stripHyphens, wordsOf. revert b.
  induction s as [|c r IH]; intros b; [reflexivity|].
  simpl. destruct (isSeparator c) eqn:S.
  - destruct b; [apply IH|]. simpl. apply IH.
  - simpl. rewrite (separator_not_hyphen_free c S).
    apply (proj1 (collapse_words r) [c]); [discriminate|].
    constructor; [now apply separator_not_hyphen_free | constructor].
Qed.

(** Separators at either end make no word. *)
Lemma wordsFrom_trailing (current s post : jsstring) :
  Forall (fun c => isSeparator c = true) post ->
  wordsFrom current (s ++ post) = wordsFrom current s.
Proof.
  intros F. revert current; induction s as [|c r IH]; intros cur; simpl.
  - revert cur. induction F as [|c post Hc _ IHp]; intros cur; [reflexivity|].
    simpl. rewrite Hc. rewrite (IHp []). simpl.
    now destruct cur.
  - now rewrite !IH.
Qed.

Lemma wordsOf_leading (pre s : jsstring) :
  Forall (fun c => isSeparator c = true) pre -> wordsOf (pre ++ s) = wordsOf s.
Proof.
  unfold wordsOf. induction 1 as [|c pre Hc _ IH]; [reflexivity|].
  simpl. now rewrite Hc.
Qed.

Lemma wordsFrom_app_separator (current s t : jsstring) (c : ascii) :
  isSeparator c = true ->
  wordsFrom current (s ++ c :: t) = wordsFrom current s ++ wordsOf t.
Proof.
  intros Hc. unfold wordsOf.
  revert current; induction s as [|x r IH]; intros cur; simpl.
  - rewrite Hc. now destruct cur.
  - destruct (isSeparator x); [|apply IH].
    destruct cur; simpl; now rewrite IH.
Qed.

Lemma wordsFrom_nil (current s : jsstring) :
  wordsFrom current s = [] ->
  current = [] /\ Forall (fun c => isSeparator c = true) s.
Proof.
  revert current; induction s as [|c r IH]; intros cur E; simpl in E.
  - destruct cur; [auto | discriminate E].
  - destruct (isSeparator c) eqn:S.
    + destruct cur; [|discriminate E]. destruct (IH [] E) as [_ F]. auto.
    + destruct (IH _ E) as [N _]. destruct cur; discriminate N.
Qed.

Lemma wordsFrom_letters (Q : ascii -> Prop) (current s : jsstring) :
  Forall Q current ->
  Forall (fun c => isSeparator c = true \/ Q c) s ->
  Forall (fun w => w <> [] /\ Forall Q w) (wordsFrom current s).
Proof.
  intros Fc Fs. revert current Fc.
  induction Fs as [|c r Hc _ IH]; intros cur Fc; simpl.
  - destruct cur; [constructor|]. constructor; [|constructor].
    split; [discriminate | exact Fc].
  - destruct (isSeparator c) eqn:S.
    + destruct cur; [now apply IH|].
      constructor; [split; [discriminate | exact Fc] | now apply IH].
    + apply IH. apply Forall_app. split; [exact Fc|].
      destruct Hc as [Hc|Hc]; [congruence|]. now repeat constructor.
Qed.

Lemma dropWhile_split (p : ascii -> bool) (s : jsstring) :
  exists pre, s = pre ++ dropWhile p s /\ Forall (fun c => p c = true) pre.
Proof.
  induction s as [|c r [pre [E F]]]; [now exists []|].
  simpl. destruct (p c) eqn:P.
  - exists (c :: pre). split; [simpl; now rewrite <- E | now constructor].
  - now exists [].
Qed.

Lemma dropWhileEnd_split (p : ascii -> bool) (s : jsstring) :
  exists post, s = dropWhileEnd p s ++ post /\ Forall (fun c => p c = true) post.
Proof.
  induction s as [|c r [post [E F]]]; [now exists []|].
  simpl. destruct (p c && isEmpty (dropWhileEnd p r)) eqn:P.
  - apply andb_prop in P as [P Z]. exists (c :: r). split; [reflexivity|].
    constructor; [exact P|]. apply dropWhileEnd_nil_all.
    now destruct (dropWhileEnd p r).
  - exists post. split; [simpl; now rewrite <- E | exact F].
Qed.

Lemma trim_split (s : jsstring) :
  exists pre post,
    s = pre ++ trim s ++ post
    /\ Forall (fun c => isSpace c = true) pre
    /\ Forall (fun c => isSpace c = true) post.
Proof.
  destruct (dropWhile_split isSpace s) as [pre [E1 F1]].
  destruct (dropWhileEnd_split isSpace (dropWhile isSpace s)) as [post [E2 F2]].
  exists pre, post. unfold trim. rewrite <- E2. auto.
Qed.

Lemma removeOthers_separators (s : jsstring) :
  Forall (fun c => isAlnum c = false) s ->
  Forall (fun c => isSeparator c = true) (removeOthers (toLowerCase s)).
Proof.
  intros H. apply Forall_forall. intros c Hc. unfold removeOthers in Hc.
  apply filter_In in Hc as [Hc Hk]. apply kept_other; [exact Hk|].
  apply in_map_iff in Hc as [a [<- Ha]]. rewrite toLower_alnum.
  rewrite Forall_forall in H. now apply H.
Qed.

Lemma spaces_no_alnum (s : jsstring) :
  Forall (fun c => isSpace c = true) s -> Forall (fun c => isAlnum c = false) s.
Proof.
  apply Forall_impl. intros c. each_code_unit c.
Qed.

Lemma removeOthers_spaces (s : jsstring) :
  Forall (fun c => isSpace c = true) s ->
  Forall (fun c => isSeparator c = true) (removeOthers s).
Proof.
  intros H. apply Forall_forall. intros c Hc. unfold removeOthers in Hc.
  apply filter_In in Hc as [Hc _]. rewrite Forall_forall in H.
  now apply space_separator, H.
Qed.

(** The slug without its [trim] stage. *)
Lemma generateSlug_as_words (text : jsstring) :
  generateSlug text = join "-"%char (wordsOf (removeOthers (toLowerCase text))).
Proof.
  unfold generateSlug, collapseSeparators. rewrite strip_collapse_words.
  destruct (trim_split (toLowerCase text)) as [pre [post [E [F1 F2]]]].
  rewrite E at 2. unfold removeOthers. rewrite !filter_app.
  rewrite wordsOf_leading by now apply removeOthers_spaces.
  unfold wordsOf. rewrite wordsFrom_trailing by now apply removeOthers_spaces.
  reflexivity.
Qed.

Lemma lowered_letters (text : jsstring) :
  Forall (fun c => isSeparator c = true \/ isLower c || isDigit c = true)
         (removeOthers (toLowerCase text)).
Proof.
  apply Forall_forall. intros c Hc. unfold removeOthers in Hc.
  apply filter_In in Hc as [Hc Hk].
  apply in_map_iff in Hc as [a [<- _]].
  destruct (isSeparator (toLower a)) eqn:S; [now left|]. right.
  apply kept_letter; [exact Hk | apply toLower_not_upper | exact S].
Qed.

Lemma words_not_empty (text : jsstring) :
  Forall (fun w => w <> []) (wordsOf (removeOthers (toLowerCase text))).
Proof.
  eapply Forall_impl;
    [|apply (wordsFrom_letters (fun c => isLower c || isDigit c = true))].
  - intros w [N _]. exact N.
  - constructor.
  - apply lowered_letters.
Qed.

(** X5. The slug is the words of the text joined by single hyphens, where
    the words are the runs of letters and digits that are left, in lower
    case, once every code unit other than a letter, a digit, an underscore,
    a hyphen or white space is deleted; every word is non-empty. *)
Theorem generateSlug_words (text : jsstring) :
  generateSlug text = join "-"%char (wordsOf (removeOthers (toLowerCase text)))
  /\ Forall (fun w => w <> [] /\ Forall (fun c => isLower c || isDigit c = true) w)
            (wordsOf (removeOthers (toLowerCase text))).
Proof.
  split; [apply generateSlug_as_words|].
  apply wordsFrom_letters; [constructor | apply lowered_letters].
Qed.

Lemma dropWhile_length (p : ascii -> bool) (s : jsstring) :
  List.length (dropWhile p s) <= List.length s.
Proof.
  induction s as [|c r IH]; simpl; [lia|]. destruct (p c); simpl; lia.
Qed.

Lemma dropWhileEnd_length (p : ascii -> bool) (s : jsstring) :
  List.length (dropWhileEnd p s) <= List.length s.
Proof.
  induction s as [|c r IH]; simpl; [lia|].
  destruct (p c && isEmpty (dropWhileEnd p r)); simpl; lia.
Qed.

Lemma collapseFrom_length (b : bool) (s : jsstring) :
  List.length (collapseFrom b s) <= List.length s.
Proof.
  revert b; induction s as [|c r IH]; intros b; simpl; [lia|].
  destruct (isSeparator c); [destruct b|]; simpl;
    try (specialize (IH true); lia); specialize (IH false); lia.
Qed.

(** X6. A slug is never longer than its text: a title that passes
    validation, at most 200 code units after trimming, has a slug of at
    most 200 code units. *)
Theorem generateSlug_length (f : Form) :
  validForm f = true ->
  List.length (generateSlug (trim (title f))) <= List.length (trim (title f))
  /\ List.length (generateSlug (trim (title f))) <= 200.
Proof.
  intros V.
  assert (G : List.length (generateSlug (trim (title f)))
              <= List.length (trim (title f))).
  { unfold generateSlug, stripHyphens, collapseSeparators, removeOthers,
      toLowerCase. unfold trim at 1.
    etransitivity; [apply dropWhileEnd_length|].
    etransitivity; [apply dropWhile_length|].
    etransitivity; [apply collapseFrom_length|].
    etransitivity; [apply filter_length_le|].
    etransitivity; [apply dropWhileEnd_length|].
    etransitivity; [apply dropWhile_length|].
    now rewrite length_map. }
  split; [exact G|]. unfold validForm in V.
  do 4 (apply andb_prop in V as [V _]).
  apply andb_prop in V as [_ V]. apply N.leb_le in V. unfold len in V. lia.
Qed.

Lemma generateSlug_length_storm :
  validForm (stormPost "news" None) = true
  /\ List.length (generateSlug (trim (title (stormPost "news" None)))) <= 200.
Proof.
  split; [reflexivity|].
  apply (generateSlug_length (stormPost "news" None)). reflexivity.
Defined.

Lemma join_nil (ws : list jsstring) :
  Forall (fun w => w <> []) ws -> join "-"%char ws = [] -> ws = [].
Proof.
  intros F E. destruct ws as [|w ws]; [reflexivity|].
  inversion F as [|? ? Hw _]; subst. rewrite join_first in E.
  destruct w; [contradiction | discriminate E].
Qed.

(** X7. The slug is empty exactly when the text holds no letter and no
    digit: a title with one letter or digit has a non-empty slug. *)
Theorem generateSlug_empty_iff (text : jsstring) :
  generateSlug text = [] <-> Forall (fun c => isAlnum c = false) text.
Proof.
  split; [|apply generateSlug_degenerate].
  rewrite generateSlug_as_words. intros E.
  apply join_nil in E; [|apply words_not_empty].
  apply wordsFrom_nil in E as [_ F]. rewrite Forall_forall in F.
  apply Forall_forall. intros c Hc.
  destruct (isAlnum c) eqn:A; [|reflexivity].
  destruct (alnum_kept_letter c A) as [K S].
  rewrite (F (toLower c)) in S; [discriminate S|].
  apply filter_In. split; [|exact K]. now apply in_map.
Qed.

(** X8. Code units other than letters and digits at the start or at the
    end of a text do not change its slug: white space, punctuation,
    hyphens and underscores around a title are ignored. *)
Theorem generateSlug_ignores_ends (pre text post : jsstring) :
  Forall (fun c => isAlnum c = false) pre ->
  Forall (fun c => isAlnum c = false) post ->
  generateSlug (pre ++ text ++ post) = generateSlug text.
Proof.
  intros Fpre Fpost. rewrite !generateSlug_as_words.
  unfold toLowerCase, removeOthers. rewrite !map_app, !filter_app.
  rewrite wordsOf_leading by now apply removeOthers_separators.
  unfold wordsOf. rewrite wordsFrom_trailing by now apply removeOthers_separators.
  reflexivity.
Qed.

Lemma generateSlug_ignores_ends_sample :
  Forall (fun c => isAlnum c = false) (str "  -- ")
  /\ Forall (fun c => isAlnum c = false) (str "!?")
  /\ generateSlug (str "  -- " ++ str "Storm Warning" ++ str "!?")
     = generateSlug (str "Storm Warning").
Proof.
  assert (F1 : Forall (fun c => isAlnum c = false) (str "  -- "))
    by (repeat constructor).
  assert (F2 : Forall (fun c => isAlnum c = false) (str "!?"))
    by (repeat constructor).
  split; [exact F1|]. split; [exact F2|].
  exact (generateSlug_ignores_ends (str "  -- ") (str "Storm Warning")
           (str "!?") F1 F2).
Defined.

Lemma join_app (a b : list jsstring) :
  join "-"%char (a ++ b)
  = match a, b with
    | [], _ => join "-"%char b
    | _, [] => join "-"%char a
    | _, _ => join "-"%char a ++ "-"%char :: join "-"%char b
    end.
Proof.
  induction a as [|w a IH]; [reflexivity|].
  destruct b as [|v b]; [now rewrite app_nil_r|].
  cbn [app]. rewrite join_cons by (destruct a; discriminate).
  rewrite IH. destruct a as [|w' a]; [reflexivity|].
  rewrite (join_cons "-"%char w (w' :: a)) by discriminate.
  rewrite <- app_assoc. reflexivity.
Qed.

(** X9. Slugs compose over a separator: the slug of two texts put
    together with white space, an underscore or a hyphen between them is
    the two slugs joined by one hyphen, and the other slug alone when one
    of them is empty. *)
Theorem generateSlug_join (x y : jsstring) (c : ascii) :
  isSeparator c = true ->
  generateSlug (x ++ c :: y)
  = match generateSlug x, generateSlug y with
    | [], slug => slug
    | slug, [] => slug
    | sx, sy => sx ++ "-"%char :: sy
    end.
Proof.
  intros Hc. rewrite !generateSlug_as_words.
  unfold toLowerCase, removeOthers. rewrite map_app, filter_app. cbn [map filter].
  assert (S : isSeparator (toLower c) = true)
    by now rewrite toLower_separator.
  rewrite (separator_kept _ S). unfold wordsOf at 1.
  rewrite (wordsFrom_app_separator [] _ _ _ S), join_app.
  fold (wordsOf (filter keepsSlugChar (map toLower x))).
  pose proof (words_not_empty x) as Wx.
  pose proof (words_not_empty y) as Wy.
  unfold toLowerCase, removeOthers in Wx, Wy.
  destruct (wordsOf (filter keepsSlugChar (map toLower x))) as [|wx wsx] eqn:Ex;
    [reflexivity|].
  destruct (wordsOf (filter keepsSlugChar (map toLower y))) as [|wy wsy] eqn:Ey.
  - destruct (join "-"%char (wx :: wsx)); reflexivity.
  - assert (Nx : join "-"%char (wx :: wsx) <> []).
    { intros J. apply join_nil in J; [discriminate J | exact Wx]. }
    assert (Ny : join "-"%char (wy :: wsy) <> []).
    { intros J. apply join_nil in J; [discriminate J | exact Wy]. }
    destruct (join "-"%char (wx :: wsx)); [contradiction|].
    destruct (join "-"%char (wy :: wsy)); [contradiction | reflexivity].
Qed.

Lemma generateSlug_join_sample :
  isSeparator " "%char = true
  /\ generateSlug (str "Belfast Storm" ++ " "%char :: str "Warning!")
     = str "belfast-storm-warning".
Proof.
  split; [reflexivity|].
  exact (generateSlug_join (str "Belfast Storm") (str "Warning!") " "%char
           eq_refl).
Defined.

(** ** Validation, further *)

Lemma trim_all_space (s : jsstring) :
  Forall (fun c => isSpace c = true) s -> trim s = [].
Proof. intros H. unfold trim. now rewrite (dropWhile_all isSpace s H). Qed.

(** X10. What [postSchema.parse] returns passes [postSchema.parse] again
    and comes back unchanged; its fields are free of white space at their
    ends and within the bounds of the schema. *)
Theorem parse_revalidates (f : Form) (v : ValidationData) :
  postSchema_parse f = inr v ->
  postSchema_parse (formOf v (image f)) = inr v
  /\ trim (v_title v) = v_title v /\ trim (v_content v) = v_content v
  /\ trim (v_excerpt v) = v_excerpt v /\ trim (v_tags v) = v_tags v
  /\ (1 <= len (v_title v) <= 200)%N
  /\ (1 <= len (v_content v) <= 50000)%N
  /\ (len (v_excerpt v) <= 500)%N
  /\ (len (v_tags v) <= 200)%N.
Proof.
  intros P. unfold postSchema_parse in P.
  destruct (issuesOf f) eqn:I; [|discriminate P]. injection P as <-.
  cbn [v_title v_content v_excerpt v_tags]. rewrite !trim_idem.
  split.
  - unfold postSchema_parse, issuesOf, formOf.
    cbn [title content excerpt tags v_title v_content v_excerpt v_tags].
    rewrite !trim_idem. unfold issuesOf in I. now rewrite I.
  - apply validForm_issues in I. unfold validForm in I.
    rewrite !andb_true_iff, !N.leb_le in I. tauto.
Qed.

Lemma parse_revalidates_storm :
  postSchema_parse (stormPost "news" None)
  = inr {| v_title := str "Belfast Storm Warning";
           v_content := str "Gales are expected along the coast tonight.";
           v_excerpt := str ""; v_tags := str "news" |}
  /\ (1 <= len (str "Belfast Storm Warning") <= 200)%N.
Proof.
  split; [reflexivity|].
  apply (parse_revalidates (stormPost "news" None)
           {| v_title := str "Belfast Storm Warning";
              v_content := str "Gales are expected along the coast tonight.";
              v_excerpt := str ""; v_tags := str "news" |}).
  reflexivity.
Defined.

(** X11. A title of white space only is rejected whatever the other fields
    hold: for a signed-in user the page shows [Title is required] and no
    request is sent. *)
Theorem blank_title_rejected {W : Type} (B : Backend W) (w : W) (u : User)
    (now : N) (f : Form) :
  Forall (fun c => isSpace c = true) (title f) ->
  calls (handleSubmit B (Some u) now f (start w)) = []
  /\ effects (handleSubmit B (Some u) now f (start w))
     = [SetLoading true; ToastError (str "Title is required"); SetLoading false].
Proof.
  intros H.
  assert (I : exists ms, issuesOf f = str "Title is required" :: ms).
  { unfold issuesOf, titleIssues. rewrite (trim_all_space _ H). simpl. eauto. }
  destruct I as [ms I].
  rewrite (handleSubmit_invalid B w (Some u) now f _ ms I). auto.
Qed.

Lemma blank_title_rejected_untitled :
  Forall (fun c => isSpace c = true) (title untitled)
  /\ effects (handleSubmit Mem.backend (Some alice) submittedAt untitled
                (start (Mem.quiet Mem.empty)))
     = [SetLoading true; ToastError (str "Title is required"); SetLoading false].
Proof.
  assert (H : Forall (fun c => isSpace c = true) (title untitled))
    by (repeat constructor).
  split; [exact H|].
  exact (proj2 (blank_title_rejected Mem.backend (Mem.quiet Mem.empty) alice
                  submittedAt untitled H)).
Defined.

(** ** The effects of a submission *)

(** X12. Whatever the backend does, [handleSubmit] for a signed-in user
    sets [loading], shows exactly one toast and resets [loading] last; it
    navigates only together with the success toast, and then to the page of
    the slug of the trimmed title. *)
Theorem handleSubmit_one_toast {W : Type} (B : Backend W) (w : W) (u : User)
    (now : N) (f : Form) :
  (effects (handleSubmit B (Some u) now f (start w)) = successEffects f
   \/ (exists e,
          effects (handleSubmit B (Some u) now f (start w)) = failureEffects e)
   \/ (exists first others,
          issuesOf f = first :: others
          /\ effects (handleSubmit B (Some u) now f (start w))
             = [SetLoading true; ToastError first; SetLoading false]))
  /\ List.length (filter isToast (effects (handleSubmit B (Some u) now f (start w))))
     = 1
  /\ hd_error (effects (handleSubmit B (Some u) now f (start w)))
     = Some (SetLoading true)
  /\ last (effects (handleSubmit B (Some u) now f (start w))) (SetLoading true)
     = SetLoading false
  /\ (forall path,
         In (Navigate path) (effects (handleSubmit B (Some u) now f (start w))) ->
         path = str "/posts/" ++ generateSlug (trim (title f))
         /\ In (ToastSuccess (str "Post created successfully!"))
               (effects (handleSubmit B (Some u) now f (start w)))).
Proof.
  assert (C : effects (handleSubmit B (Some u) now f (start w)) = successEffects f
              \/ (exists e,
                     effects (handleSubmit B (Some u) now f (start w))
                     = failureEffects e)
              \/ (exists first others,
                     issuesOf f = first :: others
                     /\ effects (handleSubmit B (Some u) now f (start w))
                        = [SetLoading true; ToastError first; SetLoading false])).
  { destruct (validForm f) eqn:V.
    - destruct (handleSubmit_valid B w u now f V) as [[_ E]|[cs0 [c [e [_ [_ [_ E]]]]]]].
      + now left.
      + right. left. now exists e.
    - destruct (invalid_issues f V) as [m [ms I]]. right. right.
      exists m, ms. split; [exact I|].
      now rewrite (handleSubmit_invalid B w (Some u) now f m ms I). }
  split; [exact C|].
  destruct C as [E|[[e E]|[m [ms [_ E]]]]]; rewrite E;
    (split; [reflexivity|]); (split; [reflexivity|]);
    (split; [reflexivity|]); intros path H; simpl in H.
  - destruct H as [H|[H|[H|[H|[]]]]]; try discriminate H.
    injection H as <-. split; [reflexivity|]. right. now left.
  - destruct H as [H|[H|[H|[H|[]]]]]; discriminate H.
  - destruct H as [H|[H|[H|[]]]]; discriminate H.
Qed.

(** ** The requests of a submission *)

Section Carrying.

Context {W : Type} (B : Backend W).

Variable P : Call -> Prop.

Lemma carries_linkTag (post_id : ID) (name : jsstring) :
  (forall a, P (SelectTags (generateSlug name) a)) ->
  (forall a, P (InsertTag name (generateSlug name) a)) ->
  (forall t a, P (InsertPostTag post_id t a)) ->
  sends P (linkTag B post_id name).
Proof.
  intros Hs Hi Hl. unfold linkTag, resolveTag.
  apply sends_bind; [|intros tagId; apply sends_bind;
                       [apply sends_request; intros; apply Hl
                       |intros; apply sends_ret]].
  apply sends_bind; [apply sends_request; exact Hs|].
  intros answer. destruct (dataOf (maybeSingle answer)); [apply sends_ret|].
  apply sends_bind; [apply sends_request; exact Hi|].
  intros [e|t]; simpl; [apply sends_throw|].
  apply sends_bind; intros; apply sends_ret.
Qed.

Lemma carries_forEach {A : Type} (l : list A) (body : A -> M unit) :
  (forall x, In x l -> sends P (body x)) -> sends P (forEach (W := W) l body).
Proof.
  induction l as [|x rest IH]; intros H; simpl; [apply sends_ret|].
  apply sends_bind; [apply H; now left|].
  intros _. apply IH. intros y Hy. apply H. now right.
Qed.

End Carrying.

Section Tracing.

Context {W : Type} (B : Backend W).

Lemma validated_newPost (u : User) (f : Form) (imageUrl : option jsstring) :
  {| np_title := trim (title f);
     np_slug := generateSlug (trim (title f));
     np_content := trim (content f);
     np_excerpt := postExcerptOf
                     {| v_title := trim (title f); v_content := trim (content f);
                        v_excerpt := trim (excerpt f); v_tags := trim (tags f) |};
     np_featured_image := imageUrl;
     np_author_id := user_id u |}
  = newPostOf u f imageUrl.
Proof.
  unfold newPostOf, postExcerptOf. simpl. now destruct (trim (excerpt f)).
Qed.

(** From the post insert on: the insert, then only requests of the loop,
    and none when the insert failed. *)
Lemma insertAndTag_trace (u : User) (f : Form) (imageUrl : option jsstring)
    (r : Run W) :
  exists answer cs,
    calls (snd (insertAndTag B u
                  {| v_title := trim (title f); v_content := trim (content f);
                     v_excerpt := trim (excerpt f); v_tags := trim (tags f) |}
                  imageUrl r))
    = calls r ++ InsertPost (newPostOf u f imageUrl) answer :: cs
    /\ tagCalls (tagNamesOf (tags f)) answer cs.
Proof.
  unfold insertAndTag. cbv zeta. cbn [v_title v_content v_tags].
  rewrite validated_newPost, bind_request.
  set (answer := fst (insertPost B (newPostOf u f imageUrl) (world r))).
  set (r1 := {| world := _; calls := _; effects := _ |}).
  exists answer. destruct answer as [e|postData] eqn:A.
  - exists []. split; [reflexivity | reflexivity].
  - change (bind (orThrow (inr postData)) ?k r1) with (k postData r1).
    cbv beta.
    match goal with
    | |- context [snd (?m r1)] =>
        assert (S : sends (tagCall (tagNamesOf (tags f)) (p_id postData)) m)
    end.
    { apply sends_bind; [|intros _; apply sends_bind; intros; apply sends_effect].
      destruct (truthy (trim (tags f))); [|apply sends_ret].
      apply carries_forEach. intros name Hn. rewrite tagNamesOf_trim in Hn.
      apply carries_linkTag; simpl; eauto. }
    destruct (S r1) as [cs [E F]]. exists cs. rewrite E.
    unfold r1. cbn [calls]. rewrite <- app_assoc. split; [reflexivity | exact F].
Qed.

(** All the requests of a valid submission. *)
Lemma submit_trace (w : W) (u : User) (now : N) (f : Form) :
  validForm f = true ->
  match image f with
  | None =>
      exists answer cs,
        calls (handleSubmit B (Some u) now f (start w))
        = InsertPost (newPostOf u f None) answer :: cs
        /\ tagCalls (tagNamesOf (tags f)) answer cs
  | Some file =>
      calls (handleSubmit B (Some u) now f (start w))
      = [Upload (fileNameOf u now file) file
           (fst (upload B (fileNameOf u now file) file w))]
        /\ fst (upload B (fileNameOf u now file) file w) <> None
      \/ exists answer cs,
           calls (handleSubmit B (Some u) now f (start w))
           = Upload (fileNameOf u now file) file None
             :: InsertPost
                  (newPostOf u f (Some (publicUrl B (fileNameOf u now file))))
                  answer
             :: cs
           /\ tagCalls (tagNamesOf (tags f)) answer cs
  end.
Proof.
  intros V. apply validForm_issues, parse_valid in V.
  rewrite handleSubmit_calls. unfold submitBody. rewrite V.
  set (r0 := snd (effect (SetLoading true) (start w))).
  destruct (image f) as [file|]; simpl uploadImage.
  - match goal with
    | |- context [calls ?x] => remember (calls x) as cs0 eqn:Ecs
    end.
    unfold bind at 1 in Ecs. rewrite bind_request in Ecs.
    cbn [world r0 start effect snd] in Ecs.
    destruct (fst (upload B (fileNameOf u now file) file w)) as [e|] eqn:U.
    + left. subst cs0. split; [reflexivity | discriminate].
    + right. cbn [throwIf bind ret] in Ecs.
      match type of Ecs with
      | context [insertAndTag B u ?v ?img ?r1] =>
          destruct (insertAndTag_trace u f img r1) as [answer [cs [E T]]]
      end.
      exists answer, cs. subst cs0. rewrite E. split; [reflexivity | exact T].
  - unfold bind, ret.
    destruct (insertAndTag_trace u f None r0) as [answer [cs [E T]]].
    exists answer, cs. rewrite E. split; [reflexivity | exact T].
Qed.

End Tracing.

Lemma tagCalls_kinds (names : list jsstring) (answer : Error + PostRow)
    (cs : list Call) :
  tagCalls names answer cs ->
  Forall (fun c => isInsertPost c = false /\ isUpload c = false) cs.
Proof.
  destruct answer as [e|postData]; simpl; [intros ->; constructor|].
  apply Forall_impl. intros [] H; simpl in H; auto; contradiction.
Qed.

Section SubmissionRequests.

Context {W : Type} (B : Backend W).

(** X13. A submission inserts at most one post, and the row it sends is
    read off the form: the trimmed title, the slug of that title, the
    trimmed content, the excerpt, the signed-in user as author, and as
    image the public URL of the uploaded file, or none without a file. *)
Theorem post_insert_fields (w : W) (u : User) (now : N) (f : Form) :
  (forall np answer,
      In (InsertPost np answer) (calls (handleSubmit B (Some u) now f (start w))) ->
      np = newPostOf u f
             (option_map (fun file => publicUrl B (fileNameOf u now file))
                         (image f)))
  /\ List.length
       (filter isInsertPost (calls (handleSubmit B (Some u) now f (start w))))
     <= 1.
Proof.
  destruct (validForm f) eqn:V.
  - pose proof (submit_trace B w u now f V) as T.
    assert (K : forall cs, Forall (fun c => isInsertPost c = false
                                         /\ isUpload c = false) cs ->
                (forall np answer, In (InsertPost np answer) cs -> False)
                /\ filter isInsertPost cs = []).
    { intros cs F. rewrite Forall_forall in F. split.
      - intros np answer H. destruct (F _ H) as [X _]. discriminate X.
      - apply filter_none. intros y Hy. now destruct (F _ Hy). }
    destruct (image f) as [file|]; simpl option_map.
    + destruct T as [[E _]|[answer [cs [E T]]]]; rewrite E.
      * split; [|simpl; lia]. intros np a [H|[]]. discriminate H.
      * apply tagCalls_kinds in T. destruct (K cs T) as [K1 K2].
        split.
        -- intros np a [H|[H|H]]; [discriminate H | now injection H as <- |].
           exfalso. eapply K1. exact H.
        -- simpl. rewrite K2. simpl. lia.
    + destruct T as [answer [cs [E T]]]. rewrite E.
      apply tagCalls_kinds in T. destruct (K cs T) as [K1 K2].
      split.
      * intros np a [H|H]; [now injection H as <- |].
        exfalso. eapply K1. exact H.
      * simpl. rewrite K2. simpl. lia.
  - destruct (invalid_issues f V) as [m [ms I]].
    rewrite (handleSubmit_invalid B w (Some u) now f m ms I). simpl.
    split; [intros np a [] | lia].
Qed.

(** X14. Without a chosen file no upload is sent.  With a file the upload
    is the first request, to the path under the user's identifier, it is
    the only upload, and when it fails it is the only request. *)
Theorem upload_discipline (w : W) (u : User) (now : N) (f : Form) :
  match image f with
  | None =>
      Forall (fun c => isUpload c = false)
             (calls (handleSubmit B (Some u) now f (start w)))
  | Some file =>
      calls (handleSubmit B (Some u) now f (start w)) = []
      \/ exists answer rest,
           calls (handleSubmit B (Some u) now f (start w))
           = Upload (fileNameOf u now file) file answer :: rest
           /\ Forall (fun c => isUpload c = false) rest
           /\ (answer <> None -> rest = [])
  end.
Proof.
  destruct (validForm f) eqn:V.
  - pose proof (submit_trace B w u now f V) as T.
    destruct (image f) as [file|].
    + right. destruct T as [[E N]|[answer [cs [E T]]]]; rewrite E.
      * eexists _, []. split; [reflexivity|]. split; [constructor | auto].
      * exists None, (InsertPost
                        (newPostOf u f (Some (publicUrl B (fileNameOf u now file))))
                        answer :: cs).
        split; [reflexivity|]. split; [|congruence].
        constructor; [reflexivity|]. apply tagCalls_kinds in T.
        eapply Forall_impl; [|exact T]. now intros c [_ H].
    + destruct T as [answer [cs [E T]]]. rewrite E.
      constructor; [reflexivity|]. apply tagCalls_kinds in T.
      eapply Forall_impl; [|exact T]. now intros c [_ H].
  - destruct (invalid_issues f V) as [m [ms I]].
    rewrite (handleSubmit_invalid B w (Some u) now f m ms I). simpl.
    destruct (image f); [now left | constructor].
Qed.

(** X15. The tag requests of a submission are about the names of the form
    and about the new post only: every lookup asks for the slug of one of
    the names, every tag insert carries one of the names together with its
    slug, and every link is a link of the post whose insert the backend
    answered with a row. *)
Theorem tag_requests_discipline (w : W) (u : User) (now : N) (f : Form)
    (c : Call) :
  In c (calls (handleSubmit B (Some u) now f (start w))) ->
  match c with
  | SelectTags slug _ =>
      exists name, In name (tagNamesOf (tags f)) /\ slug = generateSlug name
  | InsertTag name slug _ =>
      In name (tagNamesOf (tags f)) /\ slug = generateSlug name
  | InsertPostTag post_id _ _ =>
      exists np postData,
        In (InsertPost np (inr postData))
           (calls (handleSubmit B (Some u) now f (start w)))
        /\ post_id = p_id postData
  | _ => True
  end.
Proof.
  destruct (validForm f) eqn:V.
  - pose proof (submit_trace B w u now f V) as T.
    assert (K : forall pre np answer cs,
               calls (handleSubmit B (Some u) now f (start w))
               = pre ++ InsertPost np answer :: cs ->
               Forall (fun c => isUpload c = true) pre ->
               tagCalls (tagNamesOf (tags f)) answer cs ->
               In c (pre ++ InsertPost np answer :: cs) ->
               match c with
               | SelectTags slug _ =>
                   exists name, In name (tagNamesOf (tags f))
                                /\ slug = generateSlug name
               | InsertTag name slug _ =>
                   In name (tagNamesOf (tags f)) /\ slug = generateSlug name
               | InsertPostTag post_id _ _ =>
                   exists np postData,
                     In (InsertPost np (inr postData))
                        (calls (handleSubmit B (Some u) now f (start w)))
                     /\ post_id = p_id postData
               | _ => True
               end).
    { intros pre np answer cs E Fp Tc Hin.
      apply in_app_or in Hin as [Hin|[<-|Hin]].
      - rewrite Forall_forall in Fp. specialize (Fp _ Hin).
        destruct c; try discriminate Fp. exact I.
      - exact I.
      - destruct answer as [e|postData]; simpl in Tc; [subst cs; contradiction|].
        rewrite Forall_forall in Tc. specialize (Tc _ Hin).
        destruct c; simpl in Tc; try contradiction; try exact Tc.
        exists np, postData. split; [|exact Tc].
        rewrite E. apply in_or_app. right. now left. }
    intros Hin. destruct (image f) as [file|].
    + destruct T as [[E _]|[answer [cs [E T]]]].
      * rewrite E in Hin. destruct Hin as [<-|[]]. exact I.
      * rewrite E in Hin.
        apply (K [Upload (fileNameOf u now file) file None] _ answer cs E);
          [repeat constructor | exact T | exact Hin].
    + destruct T as [answer [cs [E T]]]. rewrite E in Hin.
      apply (K [] _ answer cs E); [constructor | exact T | exact Hin].
  - destruct (invalid_issues f V) as [m [ms I]].
    rewrite (handleSubmit_invalid B w (Some u) now f m ms I). intros [].
Qed.

End SubmissionRequests.

Lemma tag_requests_discipline_twice :
  In (InsertPostTag 1%N 3%N None) (calls twiceRun)
  /\ exists np postData,
       In (InsertPost np (inr postData)) (calls twiceRun)
       /\ 1%N = p_id postData.
Proof.
  assert (H : In (InsertPostTag 1%N 3%N None) (calls twiceRun)).
  { vm_compute. do 8 right. now left. }
  split; [exact H|].
  exact (tag_requests_discipline Mem.backend (Mem.quiet Mem.empty) alice
           submittedAt (stormPost "news, news, sport" None)
           (InsertPostTag 1%N 3%N None) H).
Defined.

Lemma post_insert_fields_twice :
  List.length (filter isInsertPost (calls twiceRun)) <= 1.
Proof.
  apply (post_insert_fields Mem.backend (Mem.quiet Mem.empty) alice submittedAt
           (stormPost "news, news, sport" None)).
Defined.

(** ** The requests of a completed submission *)

Section Completed.

Context {W : Type} (B : Backend W).

Lemma linkTag_group (post_id : ID) (name : jsstring) (r : Run W) :
  fst (linkTag B post_id name r) = inr tt ->
  exists group,
    calls (snd (linkTag B post_id name r)) = calls r ++ group
    /\ TagGroup post_id name group.
Proof.
  remember (linkTag B post_id name r) as res eqn:R.
  unfold linkTag, resolveTag in R. unfold bind at 1 in R.
  rewrite bind_request in R.
  set (answer := fst (selectTags B (generateSlug name) (world r))) in R.
  set (r1 := {| world := _; calls := _; effects := _ |}) in R.
  destruct (dataOf (maybeSingle answer)) as [existingTag|] eqn:D.
  - cbn [ret] in R. rewrite bind_request in R. cbn [ret] in R.
    subst res. cbn [fst snd calls]. intros _.
    eexists. unfold r1. cbn [calls]. rewrite <- app_assoc.
    split; [reflexivity|]. now apply Reused.
  - rewrite bind_request in R.
    set (created := fst (insertTag B name (generateSlug name) (world r1))) in R.
    set (r2 := {| world := _; calls := _; effects := _ |}) in R.
    destruct created as [e|newTag] eqn:C.
    + cbn in R. subst res. discriminate.
    + cbn [orThrow bind ret] in R. rewrite bind_request in R. cbn [ret] in R.
      subst res. cbn [fst snd calls]. intros _.
      eexists. unfold r2, r1. cbn [calls]. rewrite <- !app_assoc.
      split; [reflexivity|]. now apply Created.
Qed.

Lemma forEach_groups (post_id : ID) (names : list jsstring) (r : Run W) :
  fst (forEach names (linkTag B post_id) r) = inr tt ->
  exists groups,
    calls (snd (forEach names (linkTag B post_id) r))
    = calls r ++ List.concat groups
    /\ Forall2 (TagGroup post_id) names groups.
Proof.
  revert r; induction names as [|name names IH]; intros r; simpl.
  - intros _. exists []. simpl. rewrite app_nil_r. auto.
  - unfold bind.
    pose proof (linkTag_group post_id name r) as G.
    destruct (linkTag B post_id name r) as [[t|[]] r1]; simpl in G |- *;
      [discriminate|].
    destruct (G eq_refl) as [group [E1 T1]]. intros H.
    destruct (IH r1 H) as [groups [E2 T2]]. exists (group :: groups).
    rewrite E2, E1. simpl. rewrite <- app_assoc. split; [reflexivity|].
    now constructor.
Qed.

Lemma insertAndTag_groups (u : User) (f : Form) (imageUrl : option jsstring)
    (r : Run W) :
  fst (insertAndTag B u
         {| v_title := trim (title f); v_content := trim (content f);
            v_excerpt := trim (excerpt f); v_tags := trim (tags f) |}
         imageUrl r) = inr tt ->
  exists postData groups,
    calls (snd (insertAndTag B u
                  {| v_title := trim (title f); v_content := trim (content f);
                     v_excerpt := trim (excerpt f); v_tags := trim (tags f) |}
                  imageUrl r))
    = calls r ++ InsertPost (newPostOf u f imageUrl) (inr postData)
                 :: List.concat groups
    /\ Forall2 (TagGroup (p_id postData)) (tagNamesOf (tags f)) groups.
Proof.
  match goal with
  | |- fst ?x = _ -> _ => remember x as res eqn:R
  end.
  unfold insertAndTag in R. cbv zeta in R. cbn [v_title v_content v_tags] in R.
  rewrite validated_newPost, bind_request in R.
  set (answer := fst (insertPost B (newPostOf u f imageUrl) (world r))) in R.
  set (r1 := {| world := _; calls := _; effects := _ |}) in R.
  destruct answer as [e|postData] eqn:A; [cbn in R; subst res; discriminate|].
  cbn [orThrow] in R.
  change (bind (ret postData) ?k r1) with (k postData r1) in R.
  cbv beta in R. unfold bind at 1 in R.
  rewrite <- (tagNamesOf_trim (tags f)), <- (tagNamesOf_guard (trim (tags f))).
  destruct (truthy (trim (tags f))).
  - pose proof (forEach_groups (p_id postData) (tagNamesOf (trim (tags f))) r1)
      as G.
    destruct (forEach (tagNamesOf (trim (tags f))) (linkTag B (p_id postData)) r1)
      as [[t|[]] r2]; simpl in G, R; subst res; [discriminate|].
    intros _. destruct (G eq_refl) as [groups [E T]].
    exists postData, groups. cbn [bind effect snd calls]. rewrite E.
    rewrite <- app_assoc. auto.
  - cbn [ret bind effect] in R. subst res. intros _. exists postData, [].
    cbn [snd calls r1 List.concat]. split; [reflexivity | constructor].
Qed.

(** X16. A submission that ends with the success toast has sent, in this
    order: the upload when a file was chosen, the post insert, and for each
    tag name of the form one group of requests, which is the lookup and the
    link when the tag was found and the lookup, the tag insert and the link
    when it was not; the tag linked is the one found or created.  For [n]
    names that is at most [3 n + 2] requests. *)
Theorem completed_requests (w : W) (u : User) (now : N) (f : Form) :
  effects (handleSubmit B (Some u) now f (start w)) = successEffects f ->
  exists uploads postData groups,
    calls (handleSubmit B (Some u) now f (start w))
    = uploads
      ++ InsertPost
           (newPostOf u f
              (option_map (fun file => publicUrl B (fileNameOf u now file))
                          (image f)))
           (inr postData)
      :: List.concat groups
    /\ uploads = match image f with
                 | None => []
                 | Some file => [Upload (fileNameOf u now file) file None]
                 end
    /\ Forall2 (TagGroup (p_id postData)) (tagNamesOf (tags f)) groups
    /\ List.length (calls (handleSubmit B (Some u) now f (start w)))
       <= 3 * List.length (tagNamesOf (tags f)) + 2.
Proof.
  intros S.
  assert (V : validForm f = true).
  { destruct (validForm f) eqn:V; [reflexivity|].
    destruct (invalid_issues f V) as [m [ms I]].
    rewrite (handleSubmit_invalid B w (Some u) now f m ms I) in S.
    discriminate S. }
  assert (Ret : fst (submitBody B u now f (snd (effect (SetLoading true) (start w))))
                = inr tt).
  { pose proof V as V'. apply validForm_issues, parse_valid in V'.
    destruct (submitBody_valid B u now f _ V') as [_ Em].
    specialize (Em (snd (effect (SetLoading true) (start w)))).
    unfold handleSubmit, tryCatchFinally in S. cbv zeta in S.
    destruct (submitBody B u now f (snd (effect (SetLoading true) (start w))))
      as [[[m ms|e]|[]] r']; simpl in *; [| |reflexivity];
      rewrite Em in S; discriminate S. }
  assert (L : forall groups names post_id,
             Forall2 (TagGroup post_id) names groups ->
             List.length (List.concat groups) <= 3 * List.length names).
  { intros groups names post_id F2.
    induction F2 as [|name group names groups T _ IH]; [simpl; lia|].
    simpl. rewrite length_app. destruct T; simpl; lia. }
  rewrite handleSubmit_calls.
  apply validForm_issues, parse_valid in V.
  set (r0 := snd (effect (SetLoading true) (start w))) in *.
  remember (submitBody B u now f r0) as res eqn:R.
  unfold submitBody in R. rewrite V in R.
  destruct (image f) as [file|]; simpl uploadImage in R; simpl option_map.
  - unfold bind at 1 in R. rewrite bind_request in R.
    cbn [world r0 start effect snd] in R.
    destruct (fst (upload B (fileNameOf u now file) file w)) as [e|];
      [cbn in R; subst res; discriminate|].
    cbn [throwIf bind ret] in R. subst res.
    destruct (insertAndTag_groups u f _ _ Ret) as [postData [groups [E T]]].
    exists [Upload (fileNameOf u now file) file None], postData, groups.
    rewrite E. cbn [calls start app]. repeat split; auto.
    simpl. specialize (L _ _ _ T). lia.
  - unfold bind, ret in R. subst res.
    destruct (insertAndTag_groups u f _ _ Ret) as [postData [groups [E T]]].
    exists [], postData, groups. rewrite E. cbn [calls r0 start effect snd app].
    repeat split; auto. simpl. specialize (L _ _ _ T). lia.
Qed.

End Completed.

Lemma completed_requests_twice :
  effects twiceRun = successEffects (stormPost "news, news, sport" None)
  /\ List.length (calls twiceRun) <= 3 * 3 + 2.
Proof.
  assert (S : effects twiceRun = successEffects (stormPost "news, news, sport" None))
    by (vm_compute; reflexivity).
  split; [exact S|].
  destruct (completed_requests Mem.backend (Mem.quiet Mem.empty) alice
              submittedAt (stormPost "news, news, sport" None) S)
    as [uploads [postData [groups [_ [_ [_ K]]]]]].
  exact K.
Defined.

(** ** From the form to the post page *)

Section Advancing.

Variable R : Mem.DB -> Mem.DB -> Prop.
Hypothesis R_refl : forall d, R d d.
Hypothesis R_trans : forall a b c, R a b -> R b c -> R a c.
Hypothesis R_insertTag :
  forall name slug d, R d (snd (Mem.db_insertTag name slug d)).
Hypothesis R_insertPostTag :
  forall p t d, R d (snd (Mem.db_insertPostTag p t d)).

Lemma advances_ret {A : Type} (a : A) : advances R (ret (W := Mem.World) a).
Proof. intros r. apply R_refl. Qed.

Lemma advances_throw {A : Type} (t : Thrown) :
  advances R (throw (W := Mem.World) (A := A) t).
Proof. intros r. apply R_refl. Qed.

Lemma advances_effect (e : Effect) : advances R (effect (W := Mem.World) e).
Proof. intros r. apply R_refl. Qed.

Lemma advances_bind {A C : Type} (m : @M Mem.World A) (k : A -> @M Mem.World C) :
  advances R m -> (forall a, advances R (k a)) -> advances R (bind m k).
Proof.
  intros Hm Hk r. unfold bind. specialize (Hm r).
  destruct (m r) as [[t|a] r1]; simpl in *; [exact Hm|].
  eapply R_trans; [exact Hm | apply Hk].
Qed.

Lemma advances_request {A : Type} (op : Mem.World -> A * Mem.World)
    (record : A -> Call) :
  (forall w, R (Mem.db w) (Mem.db (snd (op w)))) ->
  advances R (request op record).
Proof.
  intros Hop r. unfold request. specialize (Hop (world r)).
  destruct (op (world r)). exact Hop.
Qed.

Lemma advances_forEach {A : Type} (l : list A) (body : A -> @M Mem.World unit) :
  (forall x, advances R (body x)) -> advances R (forEach l body).
Proof.
  intros H. induction l as [|x rest IH]; simpl; [apply advances_ret|].
  apply advances_bind; [apply H | intros _; exact IH].
Qed.

Lemma arrive_advances (w : Mem.World) : R (Mem.db w) (Mem.db (snd (Mem.arrive w))).
Proof.
  unfold Mem.arrive. destruct (Mem.pending w) as [|[|e|name] rest]; simpl;
    try apply R_refl.
  apply R_insertTag.
Qed.

Lemma serve_advances {A : Type} (op : Mem.DB -> (Error + A) * Mem.DB)
    (w : Mem.World) :
  (forall d, R d (snd (op d))) -> R (Mem.db w) (Mem.db (snd (Mem.serve op w))).
Proof.
  intros Hop. unfold Mem.serve. pose proof (arrive_advances w) as Ha.
  destruct (Mem.arrive w) as [[e|] w']; simpl in *; [exact Ha|].
  specialize (Hop (Mem.db w')). destruct (op (Mem.db w')).
  eapply R_trans; [exact Ha | exact Hop].
Qed.

Lemma serveVoid_advances (op : Mem.DB -> option Error * Mem.DB) (w : Mem.World) :
  (forall d, R d (snd (op d))) ->
  R (Mem.db w) (Mem.db (snd (Mem.serveVoid op w))).
Proof.
  intros Hop. unfold Mem.serveVoid. pose proof (arrive_advances w) as Ha.
  destruct (Mem.arrive w) as [[e|] w']; simpl in *; [exact Ha|].
  specialize (Hop (Mem.db w')). destruct (op (Mem.db w')).
  eapply R_trans; [exact Ha | exact Hop].
Qed.

Lemma advances_linkTag (post_id : ID) (tagName : jsstring) :
  advances R (linkTag Mem.backend post_id tagName).
Proof.
  unfold linkTag, resolveTag. apply advances_bind.
  - apply advances_bind.
    + apply advances_request. intros w. apply serve_advances.
      intros d. apply R_refl.
    + intros answer. destruct (dataOf (maybeSingle answer)); [apply advances_ret|].
      apply advances_bind.
      * apply advances_request. intros w. apply serve_advances.
        apply R_insertTag.
      * intros [e|t]; simpl; [apply advances_throw|].
        apply advances_bind; intros; apply advances_ret.
  - intros tagId. apply advances_bind; [|intros; apply advances_ret].
    apply advances_request. intros w. apply serveVoid_advances.
    apply R_insertPostTag.
Qed.

Lemma advances_tagLoop (post_id : ID) (v : ValidationData) :
  advances R
    (bind (if truthy (v_tags v)
           then forEach (tagNamesOf (v_tags v)) (linkTag Mem.backend post_id)
           else ret tt)
          (fun _ =>
             bind (effect (ToastSuccess (str "Post created successfully!")))
                  (fun _ =>
                     effect (Navigate (str "/posts/" ++ generateSlug (v_title v)))))).
Proof.
  apply advances_bind.
  - destruct (truthy (v_tags v)); [|apply advances_ret].
    apply advances_forEach. intros; apply advances_linkTag.
  - intros _. apply advances_bind; intros; apply advances_effect.
Qed.

End Advancing.

Section Splitting2.

Context {W : Type} (B : Backend W).

(** A run that ends with the success effects is a run of a valid form whose
    [try] block ran to its end. *)
Lemma success_returns (w : W) (u : User) (now : N) (f : Form) :
  effects (handleSubmit B (Some u) now f (start w)) = successEffects f ->
  validForm f = true
  /\ fst (submitBody B u now f (snd (effect (SetLoading true) (start w))))
     = inr tt.
Proof.
  intros S.
  assert (V : validForm f = true).
  { destruct (validForm f) eqn:V; [reflexivity|].
    destruct (invalid_issues f V) as [m [ms I]].
    rewrite (handleSubmit_invalid B w (Some u) now f m ms I) in S.
    discriminate S. }
  split; [exact V|].
  apply validForm_issues, parse_valid in V.
  destruct (submitBody_valid B u now f _ V) as [_ Em].
  specialize (Em (snd (effect (SetLoading true) (start w)))).
  unfold handleSubmit, tryCatchFinally in S. cbv zeta in S.
  destruct (submitBody B u now f (snd (effect (SetLoading true) (start w))))
    as [[[m ms|e]|[]] r']; simpl in *; [| |reflexivity];
    rewrite Em in S; discriminate S.
Qed.

Lemma bind_returns {A C : Type} (m : M A) (k : A -> M C) (r : Run W) (c : C) :
  fst (bind m k r) = inr c ->
  exists a r1, m r = (inr a, r1) /\ bind m k r = k a r1.
Proof.
  unfold bind. destruct (m r) as [[t|a] r1]; [discriminate|].
  intros _. now exists a, r1.
Qed.

(** The [try] block of a valid form that ran to its end: the upload, if
    any, then the post insert, then the loop over the tag names. *)
Lemma submitBody_returns (u : User) (now : N) (f : Form) (r : Run W) :
  validForm f = true ->
  fst (submitBody B u now f r) = inr tt ->
  exists imageUrl r1 postData r2,
    uploadImage B u now (image f) r = (inr imageUrl, r1)
    /\ fst (insertPost B (newPostOf u f imageUrl) (world r1)) = inr postData
    /\ forEach (tagNamesOf (tags f)) (linkTag B (p_id postData))
         {| world := snd (insertPost B (newPostOf u f imageUrl) (world r1));
            calls := calls r1
                     ++ [InsertPost (newPostOf u f imageUrl) (inr postData)];
            effects := effects r1 |}
       = (inr tt, r2)
    /\ world (snd (submitBody B u now f r)) = world r2.
Proof.
  intros V Ret. apply validForm_issues, parse_valid in V.
  unfold submitBody in *. rewrite V in *.
  destruct (bind_returns _ _ _ _ Ret) as [imageUrl [r1 [U E]]].
  rewrite E in *. clear E. exists imageUrl, r1.
  remember (insertAndTag B u _ imageUrl r1) as res eqn:R.
  unfold insertAndTag in R. cbv zeta in R. cbn [v_title v_content v_tags] in R.
  rewrite validated_newPost, bind_request in R.
  set (answer := fst (insertPost B (newPostOf u f imageUrl) (world r1))) in *.
  destruct answer as [e|postData] eqn:A; [cbn in R; subst res; discriminate|].
  exists postData.
  cbn [orThrow] in R.
  change (bind (ret postData) ?k ?r) with (k postData r) in R.
  cbv beta in R. unfold bind at 1 in R.
  rewrite <- (tagNamesOf_trim (tags f)), <- (tagNamesOf_guard (trim (tags f))).
  destruct (truthy (trim (tags f))).
  - destruct (forEach (tagNamesOf (trim (tags f))) (linkTag B (p_id postData)) _)
      as [[t|[]] r2]; [subst res; discriminate|].
    exists r2. subst res. auto.
  - cbn [ret bind effect] in R. subst res.
    eexists. split; [exact U|]. split; [reflexivity|].
    split; reflexivity.
Qed.

End Splitting2.

Lemma samePosts_refl (d : Mem.DB) : samePosts d d.
Proof. split; reflexivity. Qed.

Lemma samePosts_trans (a b c : Mem.DB) :
  samePosts a b -> samePosts b c -> samePosts a c.
Proof. intros [P1 C1] [P2 C2]. split; congruence. Qed.

Lemma samePosts_insertTag (name slug : jsstring) (d : Mem.DB) :
  samePosts d (snd (Mem.db_insertTag name slug d)).
Proof.
  unfold Mem.db_insertTag.
  destruct (existsb _ (Mem.tags d)); [apply samePosts_refl|].
  destruct (existsb _ (Mem.tags d)); [apply samePosts_refl|].
  split; reflexivity.
Qed.

Lemma samePosts_insertPostTag (p t : ID) (d : Mem.DB) :
  samePosts d (snd (Mem.db_insertPostTag p t d)).
Proof.
  unfold Mem.db_insertPostTag.
  destruct (negb _); [apply samePosts_refl|].
  destruct (negb _); [apply samePosts_refl|].
  destruct (existsb _ _); [apply samePosts_refl|].
  split; reflexivity.
Qed.

Lemma samePosts_upload (path : jsstring) (d : Mem.DB) :
  samePosts d (snd (Mem.db_upload path d)).
Proof.
  unfold Mem.db_upload. destruct (existsb _ _); split; reflexivity.
Qed.

Ltac same_posts :=
  try exact samePosts_refl; try exact samePosts_trans;
  try exact samePosts_insertTag; try exact samePosts_insertPostTag.

Lemma uploadImage_samePosts (u : User) (now : N) (img : option File) :
  advances samePosts (uploadImage Mem.backend u now img).
Proof.
  destruct img as [file|]; simpl; [|apply advances_ret; same_posts].
  apply advances_bind; same_posts.
  - apply advances_request. intros w. apply serveVoid_advances; same_posts.
    apply samePosts_upload.
  - intros uploadError. apply advances_bind; same_posts.
    + destruct uploadError; [apply advances_throw | apply advances_ret];
        same_posts.
    + intros _. apply advances_ret; same_posts.
Qed.

Lemma tagLoop_samePosts (post_id : ID) (names : list jsstring) :
  advances samePosts (forEach names (linkTag Mem.backend post_id)).
Proof.
  apply advances_forEach; same_posts.
  intros name. apply advances_linkTag; same_posts.
Qed.

(** The row the backend stores for an accepted post, and the tables after
    it: no stored post had its slug. *)
Lemma insertPost_served (np : NewPost) (w : Mem.World) (postData : PostRow) :
  fst (Mem.serve (Mem.db_insertPost np) w) = inr postData ->
  existsb (fun p => eqs (p_slug p) (np_slug np))
          (Mem.posts (Mem.db (snd (Mem.arrive w)))) = false
  /\ postData
     = {| p_id := Mem.next_id (Mem.db (snd (Mem.arrive w)));
          p_title := np_title np; p_slug := np_slug np;
          p_content := np_content np; p_excerpt := np_excerpt np;
          p_featured_image := np_featured_image np;
          p_author_id := np_author_id np;
          p_published := true;
          p_created_at := Mem.clock (Mem.db (snd (Mem.arrive w))) |}
  /\ Mem.db (snd (Mem.serve (Mem.db_insertPost np) w))
     = {| Mem.posts := Mem.posts (Mem.db (snd (Mem.arrive w))) ++ [postData];
          Mem.tags := Mem.tags (Mem.db (snd (Mem.arrive w)));
          Mem.post_tags := Mem.post_tags (Mem.db (snd (Mem.arrive w)));
          Mem.profiles := Mem.profiles (Mem.db (snd (Mem.arrive w)));
          Mem.objects := Mem.objects (Mem.db (snd (Mem.arrive w)));
          Mem.next_id := N.succ (Mem.next_id (Mem.db (snd (Mem.arrive w))));
          Mem.clock := N.succ (Mem.clock (Mem.db (snd (Mem.arrive w)))) |}.
Proof.
  unfold Mem.serve. destruct (Mem.arrive w) as [[e|] w']; [discriminate|].
  cbn [snd]. unfold Mem.db_insertPost.
  destruct (existsb _ (Mem.posts (Mem.db w'))); [discriminate|].
  cbn. intros H. injection H as <-. auto.
Qed.

(** The posts after a completed submission: those before it and the new
    one, whose slug none of them had. *)
Lemma completed_posts (w : Mem.World) (u : User) (now : N) (f : Form) :
  effects (handleSubmit Mem.backend (Some u) now f (start w)) = successEffects f ->
  exists imageUrl id,
    Mem.posts (Mem.db (world (handleSubmit Mem.backend (Some u) now f (start w))))
    = Mem.posts (Mem.db w)
      ++ [{| p_id := id;
             p_title := trim (title f);
             p_slug := generateSlug (trim (title f));
             p_content := trim (content f);
             p_excerpt := np_excerpt (newPostOf u f imageUrl);
             p_featured_image := imageUrl;
             p_author_id := user_id u;
             p_published := true;
             p_created_at := Mem.clock (Mem.db w) |}]
    /\ imageUrl = option_map (fun file => publicUrl Mem.backend (fileNameOf u now file))
                             (image f)
    /\ existsb (fun p => eqs (p_slug p) (generateSlug (trim (title f))))
               (Mem.posts (Mem.db w)) = false
    /\ Mem.clock (Mem.db (world (handleSubmit Mem.backend (Some u) now f (start w))))
       = N.succ (Mem.clock (Mem.db w)).
Proof.
  intros S. destruct (success_returns Mem.backend w u now f S) as [V Ret].
  rewrite handleSubmit_world.
  destruct (submitBody_returns Mem.backend u now f _ V Ret)
    as [imageUrl [r1 [postData [r2 [U [I [L ->]]]]]]].
  pose proof (uploadImage_samePosts u now (image f)
                (snd (effect (SetLoading true) (start w)))) as [P1 C1].
  rewrite U in P1, C1. cbn [snd effect start world] in P1, C1.
  pose proof (arrive_advances samePosts samePosts_refl samePosts_insertTag
                (world r1)) as [P2 C2].
  cbn [insertPost Mem.backend] in I, L.
  destruct (insertPost_served _ _ _ I) as [X [Row D]].
  match type of L with
  | forEach ?names ?body ?r = _ =>
      pose proof (tagLoop_samePosts (p_id postData) names r) as [P3 C3]
  end.
  rewrite L in P3, C3. cbn [snd world] in P3, C3. rewrite D in P3, C3.
  cbn [Mem.posts Mem.clock] in P3, C3.
  exists imageUrl, (p_id postData).
  rewrite P3, C3, P2, C2, P1, C1. rewrite P2, P1 in X.
  split; [|split; [|split; [exact X | reflexivity]]].
  - rewrite Row, C2, C1. reflexivity.
  - destruct (image f) as [file|]; cbn in U.
    + unfold bind, request in U. cbn in U.
      destruct (Mem.serveVoid _ _) as [[e|] w1]; cbn in U; [discriminate U|].
      now injection U as <- _.
    + now injection U as <- _.
Qed.





(** ** A slug that is taken *)

Lemma existsb_In {A : Type} (g : A -> bool) (l : list A) (x : A) :
  In x l -> g x = true -> existsb g l = true.
Proof. intros H G. apply existsb_exists. now exists x. Qed.

Lemma serve_quiet {A : Type} (op : Mem.DB -> (Error + A) * Mem.DB)
    (w : Mem.World) :
  Mem.pending w = [] ->
  Mem.serve op w
  = (fst (op (Mem.db w)), {| Mem.db := snd (op (Mem.db w)); Mem.pending := [] |}).
Proof.
  intros Q. unfold Mem.serve, Mem.arrive. rewrite Q.
  destruct (op (Mem.db w)). now rewrite Q.
Qed.

Lemma serveVoid_quiet (op : Mem.DB -> option Error * Mem.DB) (w : Mem.World) :
  Mem.pending w = [] ->
  Mem.serveVoid op w
  = (fst (op (Mem.db w)), {| Mem.db := snd (op (Mem.db w)); Mem.pending := [] |}).
Proof.
  intros Q. unfold Mem.serveVoid, Mem.arrive. rewrite Q.
  destruct (op (Mem.db w)). now rewrite Q.
Qed.

(** The post insert of a slug that is taken, on a backend without
    interference: it is refused and the [try] block ends there. *)
Lemma insertAndTag_taken (u : User) (f : Form) (imageUrl : option jsstring)
    (r : Run Mem.World) :
  Mem.pending (world r) = [] ->
  existsb (fun p => eqs (p_slug p) (generateSlug (trim (title f))))
          (Mem.posts (Mem.db (world r))) = true ->
  insertAndTag Mem.backend u
    {| v_title := trim (title f); v_content := trim (content f);
       v_excerpt := trim (excerpt f); v_tags := trim (tags f) |}
    imageUrl r
  = (inl (BackendError (Mem.uniqueViolation "posts_slug_key")),
     {| world := world r;
        calls := calls r
                 ++ [InsertPost (newPostOf u f imageUrl)
                       (inl (Mem.uniqueViolation "posts_slug_key"))];
        effects := effects r |}).
Proof.
  intros Q X. unfold insertAndTag. cbv zeta. cbn [v_title v_content v_tags].
  rewrite validated_newPost, bind_request.
  cbn [insertPost Mem.backend]. rewrite (serve_quiet _ _ Q).
  unfold Mem.db_insertPost. cbn [np_slug newPostOf]. rewrite X.
  cbn [fst snd orThrow bind throw]. destruct r as [[d p] cs es].
  cbn in Q. subst p. reflexivity.
Qed.

(** The upload to a path that is taken, on a backend without interference. *)
Lemma uploadImage_refused (u : User) (now : N) (file : File) (r : Run Mem.World) :
  Mem.pending (world r) = [] ->
  existsb (eqs (fileNameOf u now file)) (Mem.objects (Mem.db (world r))) = true ->
  uploadImage Mem.backend u now (Some file) r
  = (inl (BackendError Mem.alreadyExists),
     {| world := world r;
        calls := calls r
                 ++ [Upload (fileNameOf u now file) file (Some Mem.alreadyExists)];
        effects := effects r |}).
Proof.
  intros Q O. unfold uploadImage. cbv zeta. rewrite bind_request.
  cbn [upload Mem.backend]. rewrite (serveVoid_quiet _ _ Q).
  unfold Mem.db_upload. rewrite O. cbn [fst snd throwIf bind throw].
  destruct r as [[d p] cs es]. cbn in Q. subst p. reflexivity.
Qed.

(** The upload to a free path, on a backend without interference. *)
Lemma uploadImage_free (u : User) (now : N) (file : File) (r : Run Mem.World) :
  Mem.pending (world r) = [] ->
  existsb (eqs (fileNameOf u now file)) (Mem.objects (Mem.db (world r))) = false ->
  uploadImage Mem.backend u now (Some file) r
  = (inr (Some (publicUrl Mem.backend (fileNameOf u now file))),
     {| world :=
          {| Mem.db :=
               {| Mem.posts := Mem.posts (Mem.db (world r));
                  Mem.tags := Mem.tags (Mem.db (world r));
                  Mem.post_tags := Mem.post_tags (Mem.db (world r));
                  Mem.profiles := Mem.profiles (Mem.db (world r));
                  Mem.objects := Mem.objects (Mem.db (world r))
                                 ++ [fileNameOf u now file];
                  Mem.next_id := Mem.next_id (Mem.db (world r));
                  Mem.clock := Mem.clock (Mem.db (world r)) |};
             Mem.pending := [] |};
        calls := calls r ++ [Upload (fileNameOf u now file) file None];
        effects := effects r |}).
Proof.
  intros Q O. unfold uploadImage. cbv zeta. rewrite bind_request.
  cbn [upload Mem.backend]. rewrite (serveVoid_quiet _ _ Q).
  unfold Mem.db_upload. rewrite O. reflexivity.
Qed.

(** X18. Over the in-memory tables, a valid form whose title has the slug
    of a stored post is rejected: the post insert is answered with the
    violation of [posts_slug_key], the fixed failure toast is shown, and the
    posts, the tags and the links are as they were.  Without an image the
    insert is the only request.  With an image whose path is free the upload
    has been made before and is not undone: the file stays in the bucket
    without a post. *)
Theorem taken_slug_rejected (d : Mem.DB) (u : User) (now : N) (f : Form)
    (taken : PostRow) :
  validForm f = true ->
  In taken (Mem.posts d) ->
  p_slug taken = generateSlug (trim (title f)) ->
  Mem.posts (Mem.db (world (handleSubmit Mem.backend (Some u) now f
                              (start (Mem.quiet d)))))
  = Mem.posts d
  /\ Mem.tags (Mem.db (world (handleSubmit Mem.backend (Some u) now f
                                (start (Mem.quiet d)))))
     = Mem.tags d
  /\ Mem.post_tags (Mem.db (world (handleSubmit Mem.backend (Some u) now f
                                     (start (Mem.quiet d)))))
     = Mem.post_tags d
  /\ match image f with
     | None =>
         handleSubmit Mem.backend (Some u) now f (start (Mem.quiet d))
         = {| world := Mem.quiet d;
              calls := [InsertPost (newPostOf u f None)
                          (inl (Mem.uniqueViolation "posts_slug_key"))];
              effects := failureEffects (Mem.uniqueViolation "posts_slug_key") |}
     | Some file =>
         ~ In (fileNameOf u now file) (Mem.objects d) ->
         calls (handleSubmit Mem.backend (Some u) now f (start (Mem.quiet d)))
         = [Upload (fileNameOf u now file) file None;
            InsertPost
              (newPostOf u f (Some (publicUrl Mem.backend (fileNameOf u now file))))
              (inl (Mem.uniqueViolation "posts_slug_key"))]
         /\ effects (handleSubmit Mem.backend (Some u) now f (start (Mem.quiet d)))
            = failureEffects (Mem.uniqueViolation "posts_slug_key")
         /\ Mem.objects (Mem.db (world (handleSubmit Mem.backend (Some u) now f
                                          (start (Mem.quiet d)))))
            = Mem.objects d ++ [fileNameOf u now file]
     end.
Proof.
  intros V Hin Hs.
  assert (X : existsb (fun p => eqs (p_slug p) (generateSlug (trim (title f))))
                     (Mem.posts d) = true).
  { apply (existsb_In _ _ taken Hin). now apply eqs_eq. }
  apply validForm_issues, parse_valid in V.
  destruct (image f) as [file|] eqn:I.
  - assert (K : Mem.posts (Mem.db (world (handleSubmit Mem.backend (Some u) now f
                                            (start (Mem.quiet d)))))
                = Mem.posts d
                /\ Mem.tags (Mem.db (world (handleSubmit Mem.backend (Some u) now f
                                              (start (Mem.quiet d)))))
                   = Mem.tags d
                /\ Mem.post_tags (Mem.db (world (handleSubmit Mem.backend (Some u)
                                                   now f (start (Mem.quiet d)))))
                   = Mem.post_tags d
                /\ (existsb (eqs (fileNameOf u now file)) (Mem.objects d) = false ->
                    handleSubmit Mem.backend (Some u) now f (start (Mem.quiet d))
                    = {| world :=
                           {| Mem.db :=
                                {| Mem.posts := Mem.posts d;
                                   Mem.tags := Mem.tags d;
                                   Mem.post_tags := Mem.post_tags d;
                                   Mem.profiles := Mem.profiles d;
                                   Mem.objects := Mem.objects d
                                                  ++ [fileNameOf u now file];
                                   Mem.next_id := Mem.next_id d;
                                   Mem.clock := Mem.clock d |};
                              Mem.pending := [] |};
                         calls :=
                           [Upload (fileNameOf u now file) file None;
                            InsertPost
                              (newPostOf u f
                                 (Some (publicUrl Mem.backend
                                          (fileNameOf u now file))))
                              (inl (Mem.uniqueViolation "posts_slug_key"))];
                         effects :=
                           failureEffects (Mem.uniqueViolation "posts_slug_key")
                      |})).
    { remember (handleSubmit Mem.backend (Some u) now f (start (Mem.quiet d)))
        as run eqn:R.
      unfold handleSubmit, tryCatchFinally, submitBody in R. cbv zeta in R.
      rewrite V, I in R. unfold bind at 1 in R.
      destruct (existsb (eqs (fileNameOf u now file)) (Mem.objects d)) eqn:O.
      - rewrite uploadImage_refused in R by (try reflexivity; exact O).
        subst run. cbn. repeat split; try reflexivity. discriminate.
      - rewrite uploadImage_free in R by (try reflexivity; exact O).
        rewrite insertAndTag_taken in R by (try reflexivity; exact X).
        subst run. cbn. repeat split; reflexivity. }
    destruct K as [K1 [K2 [K3 K4]]].
    split; [exact K1|]. split; [exact K2|]. split; [exact K3|].
    intros N.
    rewrite K4; [repeat split; reflexivity|].
    destruct (existsb (eqs (fileNameOf u now file)) (Mem.objects d)) eqn:O;
      [|reflexivity].
    exfalso. apply N. apply existsb_exists in O as [x [Hx E]].
    apply eqs_eq in E. now subst x.
  - assert (K : handleSubmit Mem.backend (Some u) now f (start (Mem.quiet d))
                = {| world := Mem.quiet d;
                     calls := [InsertPost (newPostOf u f None)
                                 (inl (Mem.uniqueViolation "posts_slug_key"))];
                     effects :=
                       failureEffects (Mem.uniqueViolation "posts_slug_key") |}).
    { unfold handleSubmit, tryCatchFinally, submitBody. cbv zeta.
      rewrite V, I. unfold uploadImage. unfold bind at 1. unfold ret at 1.
      rewrite insertAndTag_taken by (try reflexivity; exact X).
      reflexivity. }
    rewrite K. repeat split; reflexivity.
Qed.

Lemma taken_slug_rejected_storm :
  validForm stormAgain = true
  /\ In stormRow (Mem.posts (Mem.db (world twiceRun)))
  /\ p_slug stormRow = generateSlug (trim (title stormAgain))
  /\ handleSubmit Mem.backend (Some alice) submittedAt stormAgain
       (start (Mem.quiet (Mem.db (world twiceRun))))
     = {| world := Mem.quiet (Mem.db (world twiceRun));
          calls := [InsertPost (newPostOf alice stormAgain None)
                      (inl (Mem.uniqueViolation "posts_slug_key"))];
          effects := failureEffects (Mem.uniqueViolation "posts_slug_key") |}.
Proof.
  assert (V : validForm stormAgain = true) by reflexivity.
  assert (I : In stormRow (Mem.posts (Mem.db (world twiceRun))))
    by (vm_compute; left; reflexivity).
  assert (S : p_slug stormRow = generateSlug (trim (title stormAgain)))
    by (vm_compute; reflexivity).
  split; [exact V|]. split; [exact I|]. split; [exact S|].
  apply (taken_slug_rejected (Mem.db (world twiceRun)) alice submittedAt
           stormAgain stormRow V I S).
Defined.

(** ** From the form to the home page *)

Lemma sortBy_newest (le : PostRow -> PostRow -> bool) (l : list PostRow)
    (x : PostRow) :
  (forall y, In y l -> le y x = false) ->
  Mem.sortBy le (l ++ [x]) = x :: Mem.sortBy le l.
Proof.
  unfold Mem.sortBy. induction l as [|y l IH]; intros H; [reflexivity|].
  simpl. rewrite IH by (intros z Hz; apply H; now right).
  simpl. now rewrite (H y) by now left.
Qed.

Lemma fetchPosts_quiet (d : Mem.DB) :
  effects (fetchPosts Mem.backend (start (Mem.quiet d)))
  = [SetPosts (map (Mem.embed d)
                 (Mem.sortBy (Mem.before (CreatedAt false))
                    (filter p_published (Mem.posts d))));
     SetLoading false].
Proof.
  rewrite <- selectedRows_published.
  unfold fetchPosts, tryCatchFinally. cbv zeta. rewrite bind_request.
  reflexivity.
Qed.

(** X19. When every stored post was created before the present time of the
    tables, a post whose submission ended with the success toast is the
    first card of the home page: the listing, served from the tables the
    submission left, is the new post followed by the published posts that
    were there before, most recent first. *)
Theorem created_post_heads_listing (w : Mem.World) (u : User) (now : N)
    (f : Form) :
  (forall p, In p (Mem.posts (Mem.db w)) ->
             (p_created_at p < Mem.clock (Mem.db w))%N) ->
  effects (handleSubmit Mem.backend (Some u) now f (start w)) = successEffects f ->
  exists postData older,
    Mem.posts (Mem.db (world (handleSubmit Mem.backend (Some u) now f (start w))))
    = Mem.posts (Mem.db w) ++ [postData]
    /\ p_slug postData = generateSlug (trim (title f))
    /\ effects
         (fetchPosts Mem.backend
            (start (Mem.quiet
                      (Mem.db (world (handleSubmit Mem.backend (Some u) now f
                                        (start w)))))))
       = [SetPosts
            (map (Mem.embed
                    (Mem.db (world (handleSubmit Mem.backend (Some u) now f
                                      (start w)))))
                 (postData :: older));
          SetLoading false]
    /\ Permutation older (filter p_published (Mem.posts (Mem.db w)))
    /\ StronglySorted newerFirst older.
Proof.
  intros Old S.
  destruct (completed_posts w u now f S) as [imageUrl [id [P _]]].
  set (d' := Mem.db (world (handleSubmit Mem.backend (Some u) now f (start w))))
    in *.
  eexists.
  exists (Mem.sortBy (Mem.before (CreatedAt false))
            (filter p_published (Mem.posts (Mem.db w)))).
  split; [exact P|]. split; [reflexivity|].
  split; [|split; [apply sortBy_perm | apply newest_first_sorted]].
  rewrite fetchPosts_quiet, P, filter_app. cbn [filter p_published].
  rewrite sortBy_newest; [reflexivity|].
  intros y Hy. apply filter_In in Hy as [Hy _]. specialize (Old y Hy).
  cbn. apply N.leb_gt. exact Old.
Qed.

Lemma created_post_heads_listing_harbour :
  (forall p, In p (Mem.posts afterStorm) ->
             (p_created_at p < Mem.clock afterStorm)%N)
  /\ effects harbourRun = successEffects harbourPost
  /\ exists postData older,
       p_slug postData = generateSlug (trim (title harbourPost))
       /\ effects (fetchPosts Mem.backend
                     (start (Mem.quiet (Mem.db (world harbourRun)))))
          = [SetPosts (map (Mem.embed (Mem.db (world harbourRun)))
                           (postData :: older));
             SetLoading false]
       /\ Permutation older (filter p_published (Mem.posts afterStorm)).
Proof.
  assert (Old : forall p, In p (Mem.posts afterStorm) ->
                          (p_created_at p < Mem.clock afterStorm)%N).
  { intros p H. vm_compute in H. destruct H as [<-|[]]. reflexivity. }
  assert (S : effects harbourRun = successEffects harbourPost)
    by (vm_compute; reflexivity).
  split; [exact Old|]. split; [exact S|].
  destruct (created_post_heads_listing (Mem.quiet afterStorm) alice submittedAt
              harbourPost Old S)
    as [postData [older [_ [Hs [He [Hp _]]]]]].
  exists postData, older. split; [exact Hs|]. split; [exact He | exact Hp].
Defined.

(** ** From the form to the tag pages *)
















Example harbour_tag_page :
  tagPostsShows tagPostsMounted
    (effects (fetchPostsByTag Mem.backend (str "news")
                (start (Mem.quiet (Mem.db (world harbourRun))))))
  = TagPage (str "Posts tagged " ++ quote ++ str "news" ++ quote)
      (map (Mem.embed (Mem.db (world harbourRun)))
           (Mem.posts (Mem.db (world harbourRun)))).
Proof. vm_compute. reflexivity. Qed.

(** ** The read pages when the slug changes *)

Section Refetching.

Context {W : Type} (B : Backend W).

(** X21. A fetch never sets [loading] and changes only what it found, so a
    page that stays mounted while its slug changes keeps what it showed.
    On the tag page, when no tag is found or the lookup fails, the heading
    and the cards stay those of the tag shown before; when the tag is found
    and the request for its posts fails, the new tag's name stands over the
    cards of the tag shown before.  On the post page a failed request
    leaves the article shown before, while an answer without a row replaces
    it by [Post Not Found]. *)
Theorem failed_fetch_keeps_view (w : W) (slug : jsstring) :
  (forall s : TagPostsState,
      dataOf (maybeSingle (fst (selectTags B slug w))) = None ->
      fold_left tagPostsSet (effects (fetchPostsByTag B slug (start w))) s
      = {| tp_posts := tp_posts s; tp_tagName := tp_tagName s;
           tp_loading := false |})
  /\ (forall (s : TagPostsState) tagData e,
         maybeSingle (fst (selectTags B slug w)) = inr (Some tagData) ->
         fst (selectPostsOfTag B (t_id tagData) (snd (selectTags B slug w)))
         = inl e ->
         fold_left tagPostsSet (effects (fetchPostsByTag B slug (start w))) s
         = {| tp_posts := tp_posts s; tp_tagName := t_name tagData;
              tp_loading := false |})
  /\ (forall (s : PostDetailState) e,
         maybeSingle (fst (selectPosts B [EqSlug slug; EqPublished true] None w))
         = inl e ->
         fold_left postDetailSet (effects (fetchPost B slug (start w))) s
         = {| pd_post := pd_post s; pd_loading := false |})
  /\ (forall s : PostDetailState,
         fst (selectPosts B [EqSlug slug; EqPublished true] None w) = inr [] ->
         postDetailShows s (effects (fetchPost B slug (start w))) = PostNotFound)
  /\ ~ In (SetLoading true) (effects (fetchPostsByTag B slug (start w)))
  /\ ~ In (SetLoading true) (effects (fetchPost B slug (start w))).
Proof.
  rewrite fetchPostsByTag_effects, fetchPost_effects.
  split; [|split; [|split; [|split; [|split]]]].
  - intros s D.
    destruct (maybeSingle (fst (selectTags B slug w))) as [e|[t|]];
      [reflexivity | discriminate D | reflexivity].
  - intros s tagData e -> ->. reflexivity.
  - intros s e ->. reflexivity.
  - intros s ->. reflexivity.
  - destruct (maybeSingle (fst (selectTags B slug w))) as [e|[t|]].
    + intros [H|[H|[]]]; discriminate H.
    + destruct (fst (selectPostsOfTag B (t_id t) (snd (selectTags B slug w))));
        intros [H|[H|[H|[]]]]; discriminate H.
    + intros [H|[H|[]]]; discriminate H.
  - destruct (maybeSingle
                (fst (selectPosts B [EqSlug slug; EqPublished true] None w)));
      intros [H|[H|[]]]; discriminate H.
Qed.

(** X22. The tag page reads and never writes: its first request is the
    lookup of the tag by the slug, and it sends a second request only when
    that lookup gave exactly one tag, asking for the posts linked to the
    identifier of that tag. *)
Theorem tag_page_requests (w : W) (slug : jsstring) :
  existsb isWrite (calls (fetchPostsByTag B slug (start w))) = false
  /\ match maybeSingle (fst (selectTags B slug w)) with
     | inr (Some tagData) =>
         calls (fetchPostsByTag B slug (start w))
         = [SelectTags slug (fst (selectTags B slug w));
            SelectPostsOfTag (t_id tagData)
              (fst (selectPostsOfTag B (t_id tagData)
                      (snd (selectTags B slug w))))]
     | _ =>
         calls (fetchPostsByTag B slug (start w))
         = [SelectTags slug (fst (selectTags B slug w))]
     end.
Proof.
  remember (fetchPostsByTag B slug (start w)) as run eqn:R.
  unfold fetchPostsByTag, tryCatchFinally in R. cbv zeta in R.
  rewrite bind_request in R. cbn [world start] in R.
  destruct (maybeSingle (fst (selectTags B slug w))) as [e|[tagData|]].
  - subst run. split; reflexivity.
  - cbn [bind orThrow ret effect fst snd world calls effects] in R.
    rewrite bind_request in R. cbn [world] in R.
    destruct (fst (selectPostsOfTag B (t_id tagData) (snd (selectTags B slug w))));
      subst run; split; reflexivity.
  - subst run. split; reflexivity.
Qed.

End Refetching.

Lemma failed_fetch_keeps_view_news :
  dataOf (maybeSingle (fst (selectTags Mem.backend (str "no-such-tag")
                              (Mem.quiet afterStorm)))) = None
  /\ tagPostsShows newsPage
       (effects (fetchPostsByTag Mem.backend (str "no-such-tag")
                   (start (Mem.quiet afterStorm))))
     = TagPage (str "Posts tagged " ++ quote ++ str "news" ++ quote)
               (tp_posts newsPage).
Proof.
  assert (D : dataOf (maybeSingle (fst (selectTags Mem.backend (str "no-such-tag")
                                          (Mem.quiet afterStorm)))) = None)
    by reflexivity.
  split; [exact D|].
  destruct (failed_fetch_keeps_view Mem.backend (Mem.quiet afterStorm)
              (str "no-such-tag")) as [K _].
  unfold tagPostsShows. rewrite (K newsPage D). reflexivity.
Defined.

(** ** The admin panel *)

Section AdminPanel.

Context {W : Type} (B : Admin.Backend W).

Lemma admin_bind_request {A C : Type} (op : W -> A * W) (record : A -> Admin.Call)
    (k : A -> Admin.M C) (r : Admin.Run W) :
  Admin.bind (Admin.request op record) k r
  = k (fst (op (Admin.world r)))
      {| Admin.world := snd (op (Admin.world r));
         Admin.calls := Admin.calls r ++ [record (fst (op (Admin.world r)))];
         Admin.effects := Admin.effects r |}.
Proof.
  unfold Admin.bind, Admin.request. now destruct (op (Admin.world r)).
Qed.

(** The whole run of [fetchData]. *)
Lemma fetchData_run (r : Admin.Run W) :
  Admin.fetchData B r
  = {| Admin.world :=
         snd (Admin.selectProfiles B (snd (Admin.selectPosts B (Admin.world r))));
       Admin.calls :=
         Admin.calls r
         ++ [Admin.SelectPosts (fst (Admin.selectPosts B (Admin.world r)));
             Admin.SelectProfiles
               (fst (Admin.selectProfiles B
                       (snd (Admin.selectPosts B (Admin.world r)))))];
       Admin.effects :=
         Admin.effects r
         ++ match fst (Admin.selectPosts B (Admin.world r)),
                  fst (Admin.selectProfiles B
                         (snd (Admin.selectPosts B (Admin.world r)))) with
            | inr posts, inr users =>
                [Admin.SetPosts posts; Admin.SetUsers users;
                 Admin.SetLoading false]
            | inl e, _ | inr _, inl e =>
                [Admin.ConsoleError (str "Error fetching data:") e;
                 Admin.ToastError (str "Failed to load admin data");
                 Admin.SetLoading false]
            end |}.
Proof.
  unfold Admin.fetchData, Admin.tryCatchFinally. cbv zeta.
  rewrite admin_bind_request, admin_bind_request. cbn [Admin.world].
  destruct (fst (Admin.selectPosts B (Admin.world r))) as [e|posts];
    destruct (fst (Admin.selectProfiles B
                     (snd (Admin.selectPosts B (Admin.world r))))) as [e'|users];
    cbn; rewrite <- !app_assoc; reflexivity.
Qed.

(** X23. The admin panel loads its two lists together or not at all.
    Both selects are always sent, the posts first, also when the first is
    answered with an error.  When both are answered with rows the panel
    stores both lists; when either fails it stores neither, so the lists
    stay what they were, writes the error to the console, the one of the
    posts when both failed, and shows the fixed toast.  In every case
    [loading] is reset last. *)
Theorem admin_loads_both_or_neither (w : W) (s : Admin.State) :
  Admin.calls (Admin.fetchData B (Admin.start w))
  = [Admin.SelectPosts (fst (Admin.selectPosts B w));
     Admin.SelectProfiles
       (fst (Admin.selectProfiles B (snd (Admin.selectPosts B w))))]
  /\ fold_left Admin.update (Admin.effects (Admin.fetchData B (Admin.start w))) s
     = match fst (Admin.selectPosts B w),
             fst (Admin.selectProfiles B (snd (Admin.selectPosts B w))) with
       | inr posts, inr users =>
           {| Admin.posts := posts; Admin.users := users;
              Admin.loading := false |}
       | _, _ =>
           {| Admin.posts := Admin.posts s; Admin.users := Admin.users s;
              Admin.loading := false |}
       end
  /\ (forall e,
         In (Admin.ConsoleError (str "Error fetching data:") e)
            (Admin.effects (Admin.fetchData B (Admin.start w)))
         <-> fst (Admin.selectPosts B w) = inl e
             \/ (exists posts, fst (Admin.selectPosts B w) = inr posts)
                /\ fst (Admin.selectProfiles B (snd (Admin.selectPosts B w)))
                   = inl e)
  /\ (In (Admin.ToastError (str "Failed to load admin data"))
         (Admin.effects (Admin.fetchData B (Admin.start w)))
      <-> ~ (exists posts users,
                fst (Admin.selectPosts B w) = inr posts
                /\ fst (Admin.selectProfiles B (snd (Admin.selectPosts B w)))
                   = inr users))
  /\ last (Admin.effects (Admin.fetchData B (Admin.start w))) (Admin.SetLoading true)
     = Admin.SetLoading false.
Proof.
  rewrite fetchData_run. cbn [Admin.calls Admin.effects Admin.start Admin.world app].
  split; [reflexivity|].
  destruct (fst (Admin.selectPosts B w)) as [e1|posts];
    destruct (fst (Admin.selectProfiles B (snd (Admin.selectPosts B w))))
      as [e2|users];
    (split; [reflexivity|]); (split; [|split; [|reflexivity]]).
  - intros e. split.
    + intros [H|[H|[H|[]]]]; try discriminate H. injection H as <-. now left.
    + intros [H|[[posts H] _]]; [|discriminate H]. injection H as <-. now left.
  - split; [intros _ [posts [users [H _]]]; discriminate H|].
    intros _. right. now left.
  - intros e. split.
    + intros [H|[H|[H|[]]]]; try discriminate H. injection H as <-. now left.
    + intros [H|[[posts H] _]]; [|discriminate H]. injection H as <-. now left.
  - split; [intros _ [posts [users' [H _]]]; discriminate H|].
    intros _. right. now left.
  - intros e. split.
    + intros [H|[H|[H|[]]]]; try discriminate H. injection H as <-.
      right. split; [now exists posts | reflexivity].
    + intros [H|[_ H]]; [discriminate H|]. injection H as <-. now left.
  - split; [intros _ [posts' [users [_ H]]]; discriminate H|].
    intros _. right. now left.
  - intros e. split.
    + intros [H|[H|[H|[]]]]; discriminate H.
    + intros [H|[_ H]]; discriminate H.
  - split.
    + intros [H|[H|[H|[]]]]; discriminate H.
    + intros H. exfalso. apply H. now exists posts, users.
Qed.

End AdminPanel.

Lemma filter_out_one (l : list Admin.Post) (postId : ID) :
  NoDup (map Admin.ap_id l) -> In postId (map Admin.ap_id l) ->
  S (List.length (filter (fun p => negb (Admin.ap_id p =? postId)%N) l))
  = List.length l.
Proof.
  induction l as [|x l IH]; simpl; [tauto|].
  intros N H. inversion N as [|? ? Hx Nl]; subst.
  destruct (N.eqb_spec (Admin.ap_id x) postId) as [E|E]; simpl.
  - f_equal. rewrite forallb_filter_id; [reflexivity|].
    apply forallb_forall. intros y Hy.
    destruct (N.eqb_spec (Admin.ap_id y) postId) as [E'|]; [|reflexivity].
    exfalso. apply Hx. rewrite E, <- E'. now apply in_map.
  - f_equal. apply IH; [exact Nl|]. destruct H as [H|H]; [contradiction | exact H].
Qed.

Section AdminActions.

Context {W : Type} (B : Admin.Backend W).

(** The whole run of a confirmed [handleDeletePost]. *)
Lemma handleDeletePost_run (posts : list Admin.Post) (postId : ID)
    (r : Admin.Run W) :
  Admin.handleDeletePost B true posts postId r
  = {| Admin.world := snd (Admin.deletePost B postId (Admin.world r));
       Admin.calls :=
         Admin.calls r
         ++ [Admin.DeletePost postId
               (fst (Admin.deletePost B postId (Admin.world r)))];
       Admin.effects :=
         Admin.effects r
         ++ match fst (Admin.deletePost B postId (Admin.world r)) with
            | None =>
                [Admin.SetPosts
                   (filter (fun p => negb (Admin.ap_id p =? postId)%N) posts);
                 Admin.ToastSuccess (str "Post deleted successfully")]
            | Some e =>
                [Admin.ConsoleError (str "Error deleting post:") e;
                 Admin.ToastError (str "Failed to delete post")]
            end |}.
Proof.
  unfold Admin.handleDeletePost, Admin.tryCatchFinally. cbv zeta.
  cbn [negb]. rewrite admin_bind_request.
  destruct (fst (Admin.deletePost B postId (Admin.world r))) as [e|];
    cbn; rewrite <- !app_assoc; reflexivity.
Qed.

(** X24. Deleting a post from the panel.  When the dialog is declined
    nothing happens: no request, no effect.  When it is confirmed exactly
    one request is sent, the delete of that identifier, and one toast is
    shown.  If the backend answers with an error the list of the panel stays
    as it was; if not, the panel drops from the list it holds the rows of
    that identifier and keeps every other row, without asking the backend
    again; with distinct identifiers and the post in the list, the list is
    shorter by one.  The users and [loading] are never touched. *)
Theorem admin_delete (w : W) (s : Admin.State) (postId : ID) :
  (forall r, Admin.handleDeletePost B false (Admin.posts s) postId r = r)
  /\ Admin.calls (Admin.handleDeletePost B true (Admin.posts s) postId
                    (Admin.start w))
     = [Admin.DeletePost postId (fst (Admin.deletePost B postId w))]
  /\ List.length
       (filter Admin.isToast
          (Admin.effects (Admin.handleDeletePost B true (Admin.posts s) postId
                            (Admin.start w))))
     = 1
  /\ Admin.users
       (fold_left Admin.update
          (Admin.effects (Admin.handleDeletePost B true (Admin.posts s) postId
                            (Admin.start w))) s)
     = Admin.users s
  /\ Admin.loading
       (fold_left Admin.update
          (Admin.effects (Admin.handleDeletePost B true (Admin.posts s) postId
                            (Admin.start w))) s)
     = Admin.loading s
  /\ match fst (Admin.deletePost B postId w) with
     | Some e =>
         Admin.posts
           (fold_left Admin.update
              (Admin.effects (Admin.handleDeletePost B true (Admin.posts s) postId
                                (Admin.start w))) s)
         = Admin.posts s
     | None =>
         (forall p,
             In p (Admin.posts
                     (fold_left Admin.update
                        (Admin.effects
                           (Admin.handleDeletePost B true (Admin.posts s) postId
                              (Admin.start w))) s))
             <-> In p (Admin.posts s) /\ Admin.ap_id p <> postId)
         /\ (NoDup (map Admin.ap_id (Admin.posts s)) ->
             In postId (map Admin.ap_id (Admin.posts s)) ->
             S (List.length
                  (Admin.posts
                     (fold_left Admin.update
                        (Admin.effects
                           (Admin.handleDeletePost B true (Admin.posts s) postId
                              (Admin.start w))) s)))
             = List.length (Admin.posts s))
     end.
Proof.
  split; [reflexivity|]. rewrite handleDeletePost_run.
  cbn [Admin.calls Admin.effects Admin.start Admin.world app].
  split; [reflexivity|].
  destruct (fst (Admin.deletePost B postId w)) as [e|];
    (split; [reflexivity|]); (split; [reflexivity|]); (split; [reflexivity|]).
  - reflexivity.
  - cbn [fold_left Admin.update Admin.posts]. split.
    + intros p. rewrite filter_In, negb_true_iff, N.eqb_neq. reflexivity.
    + apply filter_out_one.
Qed.

(** X25. The panel asks the backend for nothing unless the visitor is an
    administrator, whatever the state of the sign-in; it sends a visitor
    away only once the sign-in state is known, only to the home page, and
    then without any request; for an administrator who is signed in it
    loads the two lists and does not navigate. *)
Theorem admin_guard (w : W) (authLoading : bool) (user : option User)
    (isAdmin : bool) :
  (isAdmin = false ->
   Admin.calls (Admin.onAuth B authLoading user isAdmin (Admin.start w)) = [])
  /\ (forall path,
         In (Admin.Navigate path)
            (Admin.effects (Admin.onAuth B authLoading user isAdmin (Admin.start w))) ->
         path = str "/" /\ authLoading = false
         /\ (user = None \/ isAdmin = false)
         /\ Admin.onAuth B authLoading user isAdmin (Admin.start w)
            = {| Admin.world := w; Admin.calls := [];
                 Admin.effects := [Admin.Navigate (str "/")] |})
  /\ (isAdmin = true -> user <> None ->
      Admin.onAuth B authLoading user isAdmin (Admin.start w)
      = Admin.fetchData B (Admin.start w)).
Proof.
  assert (F : forall path,
             ~ In (Admin.Navigate path)
                  (Admin.effects (Admin.fetchData B (Admin.start w)))).
  { intros path. rewrite fetchData_run.
    cbn [Admin.effects Admin.start Admin.world app].
    destruct (fst (Admin.selectPosts B w));
      destruct (fst (Admin.selectProfiles B (snd (Admin.selectPosts B w))));
      intros [H|[H|[H|[]]]]; discriminate H. }
  unfold Admin.onAuth.
  destruct authLoading, user as [u|], isAdmin; cbn [negb andb orb];
    (split; [intros H; try discriminate H; reflexivity|]);
    (split; [|intros A H; try discriminate A; try reflexivity;
              exfalso; apply H; reflexivity]);
    intros path H; try (now apply F in H); cbn in H; try contradiction H;
    destruct H as [H|[]]; injection H as <-; auto.
Qed.

End AdminActions.

(** ** A post that is stored stays stored *)

Section Inserted.

Context {W : Type} (B : Backend W).



End Inserted.





(** ** The home page *)

Lemma fetchPosts_effects {W : Type} (B : Backend W) (w : W) :
  effects (fetchPosts B (start w))
  = match fst (selectPosts B [EqPublished true] (Some (CreatedAt false)) w) with
    | inl e => [ConsoleError (str "Error fetching posts:") (BackendError e);
                SetLoading false]
    | inr data => [SetPosts data; SetLoading false]
    end.
Proof.
  unfold fetchPosts, tryCatchFinally. cbv zeta. rewrite bind_request.
  cbn [world start].
  destruct (fst (selectPosts B [EqPublished true] (Some (CreatedAt false)) w));
    reflexivity.
Qed.

(** X27. What the home page shows after its fetch, whatever the backend
    answers: never the loading text; the paragraph [No posts yet] both when
    the answer holds no post and when the request failed, the failure going
    to the console only; and for an answer with posts one card for each
    post, in the order of the answer.  A card links to the post page of the
    slug of its post, names the author or [Anonymous], and carries at most
    three badges, the names of the first tags of the post. *)
Theorem home_page_view {W : Type} (B : Backend W) (w : W) :
  homeShows homeMounted (effects (fetchPosts B (start w)))
  = match fst (selectPosts B [EqPublished true] (Some (CreatedAt false)) w) with
    | inl _ => NoPostsYet
    | inr [] => NoPostsYet
    | inr posts => Grid (map cardOf posts)
    end
  /\ homeShows homeMounted (effects (fetchPosts B (start w))) <> HomeLoading
  /\ (forall cards,
         homeShows homeMounted (effects (fetchPosts B (start w))) = Grid cards ->
         exists posts,
           fst (selectPosts B [EqPublished true] (Some (CreatedAt false)) w)
           = inr posts
           /\ Forall2 (fun post card =>
                         card_link card = str "/posts/" ++ p_slug (row post)
                         /\ card_title card = p_title (row post)
                         /\ card_author card <> []
                         /\ List.length (card_badges card) <= 3
                         /\ card_badges card
                            = firstn 3 (map fst (post_tags_of post)))
                      posts cards).
Proof.
  unfold homeShows. rewrite fetchPosts_effects.
  assert (C : forall posts : list Post,
             Forall2 (fun post card =>
                        card_link card = str "/posts/" ++ p_slug (row post)
                        /\ card_title card = p_title (row post)
                        /\ card_author card <> []
                        /\ List.length (card_badges card) <= 3
                        /\ card_badges card
                           = firstn 3 (map fst (post_tags_of post)))
                     posts (map cardOf posts)).
  { induction posts as [|post posts IH]; constructor; [|exact IH].
    cbn [cardOf card_link card_title card_author card_badges].
    split; [reflexivity|]. split; [reflexivity|]. split; [|split].
    - destruct (full_name post) as [[|c name]|]; discriminate.
    - rewrite length_map, length_firstn. lia.
    - symmetry. apply firstn_map. }
  destruct (fst (selectPosts B [EqPublished true] (Some (CreatedAt false)) w))
    as [e|[|post posts]]; cbn.
  - split; [reflexivity|]. split; [discriminate|]. intros cards H. discriminate H.
  - split; [reflexivity|]. split; [discriminate|]. intros cards H. discriminate H.
  - split; [reflexivity|]. split; [discriminate|]. intros cards H.
    injection H as <-. exists (post :: posts). split; [reflexivity|].
    apply (C (post :: posts)).
Qed.

(** ** The row that is sent *)

Lemma generateSlug_shorter (text : jsstring) :
  List.length (generateSlug text) <= List.length text.
Proof.
  unfold generateSlug, stripHyphens, collapseSeparators, removeOthers,
    toLowerCase, trim.
  etransitivity; [apply dropWhileEnd_length|].
  etransitivity; [apply dropWhile_length|].
  etransitivity; [apply collapseFrom_length|].
  etransitivity; [apply filter_length_le|].
  etransitivity; [apply dropWhileEnd_length|].
  etransitivity; [apply dropWhile_length|].
  now rewrite length_map.
Qed.

Section SentRow.

Context {W : Type} (B : Backend W).

(** Every post insert of a run carries the row read off the form, and the
    form is valid. *)
Lemma insert_is_newPost (w : W) (u : User) (now : N) (f : Form) (np : NewPost)
    (answer : Error + PostRow) :
  In (InsertPost np answer) (calls (handleSubmit B (Some u) now f (start w))) ->
  validForm f = true
  /\ np = newPostOf u f
            (option_map (fun file => publicUrl B (fileNameOf u now file))
                        (image f)).
Proof.
  intros H. destruct (validForm f) eqn:V.
  - split; [reflexivity|].
    pose proof (submit_trace B w u now f V) as T.
    assert (K : forall cs a, tagCalls (tagNamesOf (tags f)) a cs ->
                             ~ In (InsertPost np answer) cs).
    { intros cs a Tc Hin. apply tagCalls_kinds in Tc.
      rewrite Forall_forall in Tc. destruct (Tc _ Hin) as [X _]. discriminate X. }
    destruct (image f) as [file|]; simpl option_map.
    + destruct T as [[E _]|[a [cs [E T]]]]; rewrite E in H.
      * destruct H as [H|[]]. discriminate H.
      * destruct H as [H|[H|H]]; [discriminate H | now injection H as <- |].
        exfalso. eapply K; eauto.
    + destruct T as [a [cs [E T]]]. rewrite E in H.
      destruct H as [H|H]; [now injection H as <- |].
      exfalso. eapply K; eauto.
  - destruct (invalid_issues f V) as [m [ms I]].
    rewrite (handleSubmit_invalid B w (Some u) now f m ms I) in H.
    contradiction H.
Qed.

(** X28. Every post row [handleSubmit] sends to the backend keeps the
    bounds of the schema, whatever the form held: its title has 1 to 200
    code units, its content 1 to 50000, and its excerpt is never empty and
    has at most 500, being the given excerpt or, without one, the first 200
    code units of the content at most; its slug is of slug form and not
    longer than the title, and its author is the signed-in user. *)
Theorem sent_row_bounds (w : W) (u : User) (now : N) (f : Form) (np : NewPost)
    (answer : Error + PostRow) :
  In (InsertPost np answer) (calls (handleSubmit B (Some u) now f (start w))) ->
  (1 <= len (np_title np) <= 200)%N
  /\ (1 <= len (np_content np) <= 50000)%N
  /\ (1 <= len (np_excerpt np) <= 500)%N
  /\ (trim (excerpt f) = [] -> (len (np_excerpt np) <= 200)%N)
  /\ isSlug (np_slug np) = true
  /\ List.length (np_slug np) <= List.length (np_title np)
  /\ np_author_id np = user_id u.
Proof.
  intros H. destruct (insert_is_newPost w u now f np answer H) as [V ->].
  cbn [newPostOf np_title np_content np_excerpt np_slug np_author_id].
  unfold validForm in V. rewrite !andb_true_iff, !N.leb_le in V.
  destruct V as [[[[[T1 T2] C1] C2] E] _].
  split; [lia|]. split; [lia|].
  assert (L : forall s : jsstring,
             len (substring0 200 s) = N.min 200 (len s)).
  { intros s. unfold len, substring0. rewrite length_firstn. lia. }
  split; [|split; [|split; [|split]]].
  - destruct (trim (excerpt f)) as [|c given] eqn:G.
    + rewrite L. lia.
    + unfold len in *. cbn [List.length] in *. lia.
  - intros ->. rewrite L. lia.
  - apply generateSlug_isSlug.
  - apply generateSlug_shorter.
  - reflexivity.
Qed.

End SentRow.

Lemma sent_row_bounds_twice :
  In (InsertPost (newPostOf alice (stormPost "news, news, sport" None) None)
        (inr stormRow))
     (calls twiceRun)
  /\ (1 <= len (np_excerpt (newPostOf alice (stormPost "news, news, sport" None)
                              None)) <= 500)%N.
Proof.
  assert (H : In (InsertPost
                    (newPostOf alice (stormPost "news, news, sport" None) None)
                    (inr stormRow))
                 (calls twiceRun))
    by (vm_compute; left; reflexivity).
  split; [exact H|].
  apply (sent_row_bounds Mem.backend (Mem.quiet Mem.empty) alice submittedAt
           (stormPost "news, news, sport" None) _ _ H).
Defined.

(** The panel at the sample backend: the posts are answered, the profiles
    are not, and neither list is stored; a confirmed delete drops the row. *)
Example admin_panel_sample :
  fold_left Admin.update
    (Admin.effects (Admin.fetchData deskBackend (Admin.start deskPosts)))
    Admin.mounted
  = {| Admin.posts := []; Admin.users := []; Admin.loading := false |}
  /\ map Admin.ap_id
       (Admin.posts
          (fold_left Admin.update
             (Admin.effects
                (Admin.handleDeletePost deskBackend true deskPosts 2%N
                   (Admin.start deskPosts)))
             {| Admin.posts := deskPosts; Admin.users := [];
                Admin.loading := false |}))
     = [1%N]
  /\ Admin.onAuth deskBackend false (Some alice) false (Admin.start deskPosts)
     = {| Admin.world := deskPosts; Admin.calls := [];
          Admin.effects := [Admin.Navigate (str "/")] |}.
Proof. repeat split. Qed.

(** ** From page to page *)






